(** * Asynchronous command execution of the VSCode internal-command MCP server

    A shallow embedding of [commandExecutor.ts] (the allow-list gate and the
    command gateway), [backgroundTaskExecutor.ts] (the task store and the
    scheduler loop) and of the two tools of [fastMcpServer.ts] that go
    through the gateway, followed by the properties proved about them.

    Conventions of the embedding:
    - a JavaScript string is a [string] that holds its UTF-8 encoding (the
      non-ASCII text of the messages of the source is kept as it is written
      in the source file); [startsWith], [endsWith], [slice] and [===] are
      taken on it, and the default comparison of [Array.prototype.sort]
      on its UTF-16 code units ([Js.codeUnits]);
    - [Array.prototype.sort] is stable ([Js.sort]);
    - [Date.now()] and the delay are integers ([Z], milliseconds), printed
      by a template literal in decimal as long as they are safe integers
      ([Js.safe_integer]); every call of [Date.now()] takes the next
      reading of a clock about which nothing is assumed;
    - task objects live in a heap and the [Map] of the executor holds
      references to them, in insertion order;
    - a call of [vscode.commands.executeCommand] is recorded in a log when it
      is issued; its promise is settled later by an event of the host;
    - JavaScript runs every callback to completion: an event is one such
      run, and the [await] in [executeTask] splits it in two. *)

From Stdlib Require Import ZArith Lia Bool.
From Stdlib Require Import DecimalString DecimalZ DecimalPos.
From stdpp Require Import base list strings sorting relations.

Local Open Scope Z_scope.

(** ** JavaScript string primitives *)

Module Js.

(** [s.startsWith(p)] *)
Definition startsWith (s p : string) : bool := String.prefix p s.

(** [s.endsWith(suffix)] *)
Definition endsWith (s suffix : string) : bool :=
  let n := String.length s in
  let k := String.length suffix in
  (k <=? n)%nat && String.eqb (String.substring (n - k) k s) suffix.

(** [s.slice(0, -1)]: all code units but the last one *)
Definition slice_0_m1 (s : string) : string :=
  String.substring 0 (String.length s - 1) s.

(** [xs.some(p)] *)
Definition some {A} (p : A → bool) (xs : list A) : bool := existsb p xs.


(** [`${n}`] for a safe integer [n] *)
Definition show_Z (n : Z) : string := NilZero.string_of_int (Z.to_int n).

(** [xs.join(sep)] on an array of strings *)
Fixpoint join (sep : string) (xs : list string) : string :=
  match xs with
  | [] => ""
  | [x] => x
  | x :: rest => x +:+ sep +:+ join sep rest
  end.

(** The UTF-16 code units of a string, from its UTF-8 encoding: one unit
    for a sequence of one, two or three bytes, a surrogate pair for a
    sequence of four.  A byte that is not part of a well-formed sequence
    counts as a code unit of its own. *)
Definition byte (c : Ascii.ascii) : N := Ascii.N_of_ascii c.

Definition continuation (c : Ascii.ascii) : bool :=
  ((128 <=? byte c) && (byte c <? 192))%N.

Definition payload (c : Ascii.ascii) : N := (byte c mod 64)%N.

Fixpoint codeUnits (s : string) : list N :=
  match s with
  | EmptyString => []
  | String c0 s1 =>
      let b0 := byte c0 in
      if (b0 <? 192)%N then b0 :: codeUnits s1
      else
        match s1 with
        | EmptyString => [b0]
        | String c1 s2 =>
            if negb (continuation c1) then b0 :: codeUnits s1
            else if (b0 <? 224)%N then
              ((b0 - 192) * 64 + payload c1)%N :: codeUnits s2
            else
              match s2 with
              | EmptyString => b0 :: codeUnits s1
              | String c2 s3 =>
                  if negb (continuation c2) then b0 :: codeUnits s1
                  else if (b0 <? 240)%N then
                    ((b0 - 224) * 4096 + payload c1 * 64 + payload c2)%N
                      :: codeUnits s3
                  else
                    match s3 with
                    | EmptyString => b0 :: codeUnits s1
                    | String c3 s4 =>
                        if negb (continuation c3) then b0 :: codeUnits s1
                        else
                          let codePoint :=
                            ((b0 - 240) * 262144 + payload c1 * 4096
                             + payload c2 * 64 + payload c3)%N in
                          let v := (codePoint - 65536)%N in
                          (55296 + v / 1024)%N :: (56320 + v mod 1024)%N
                            :: codeUnits s4
                    end
              end
        end
  end.

(** The lexicographic order of sequences of code units. *)
Fixpoint lexLeb (u v : list N) : bool :=
  match u, v with
  | [], _ => true
  | _ :: _, [] => false
  | x :: u', y :: v' => ((x <? y) || ((x =? y) && lexLeb u' v'))%N
  end.

(** [a <= b] on strings, as the default comparison of [xs.sort()] has it:
    by UTF-16 code units *)
Definition le (s t : string) : Prop := lexLeb (codeUnits s) (codeUnits t) = true.

(** [xs.sort(compare)] for a comparison that is a total preorder [R]: the
    sorted arrangement of [xs] in which elements that compare equal keep
    their order (the sort is stable). *)
Fixpoint insert {A} (R : relation A) `{!RelDecision R} (x : A) (l : list A)
    : list A :=
  match l with
  | [] => [x]
  | y :: rest => if decide (R x y) then x :: l else y :: insert R x rest
  end.

Fixpoint sort {A} (R : relation A) `{!RelDecision R} (l : list A) : list A :=
  match l with
  | [] => []
  | x :: rest => insert R x (sort R rest)
  end.

End Js.

#[global] Instance Js_le_dec : RelDecision Js.le.
Proof. intros s t. unfold Js.le. apply _. Defined.

#[global] Instance Js_le_trans : Transitive Js.le.
Proof.
  intros s t r. unfold Js.le.
  generalize (Js.codeUnits s) (Js.codeUnits t) (Js.codeUnits r).
  clear s t r. intros u.
  induction u as [|x u IH]; intros [|y v] [|z w]; cbn; try done.
  intros H1 H2.
  apply orb_true_iff in H1 as [H1 | [H1 H1']%andb_true_iff];
    apply orb_true_iff in H2 as [H2 | [H2 H2']%andb_true_iff];
    apply orb_true_iff.
  - left. apply N.ltb_lt in H1, H2. apply N.ltb_lt. lia.
  - left. apply N.ltb_lt in H1. apply N.eqb_eq in H2. apply N.ltb_lt. lia.
  - left. apply N.eqb_eq in H1. apply N.ltb_lt in H2. apply N.ltb_lt. lia.
  - right. apply N.eqb_eq in H1, H2. apply andb_true_iff. split.
    + apply N.eqb_eq. lia.
    + by eapply IH.
Qed.

#[global] Instance Js_le_total : Total Js.le.
Proof.
  intros s t. unfold Js.le.
  generalize (Js.codeUnits s) (Js.codeUnits t). clear s t. intros u.
  induction u as [|x u IH]; intros [|y v]; cbn; auto.
  destruct (N.ltb_spec x y); [by left |].
  destruct (N.ltb_spec y x); [by right |].
  assert (x = y) as -> by lia. rewrite N.eqb_refl. cbn. apply IH.
Qed.

(** ** The allow-list gate ([CommandExecutor.isCommandAllowed]) *)

Definition matchesEntry (command allowed : string) : bool :=
  if Js.endsWith allowed "*" then
    let prefix := Js.slice_0_m1 allowed in
    Js.startsWith command prefix
  else String.eqb command allowed.

Definition isCommandAllowed (allowedCommands : list string) (command : string) : bool :=
  if (length allowedCommands =? 0)%nat then true
  else Js.some (matchesEntry command) allowedCommands.

(** The reading of the specification: an exact entry is one that does not
    end in the wildcard marker, a wildcard entry is [p ++ "*"], and a command
    starts with [p] when it is [p ++ rest]. *)
Definition ends_in_star (entry : string) : Prop := ∃ p, entry = p +:+ "*".

Definition permitted_by (entry command : string) : Prop :=
  (¬ ends_in_star entry ∧ command = entry)
  ∨ (∃ p rest, entry = p +:+ "*" ∧ command = p +:+ rest).

(** ** Values exchanged with the command host *)

(** What the source types as [any]: arguments and results of host commands
    (an object or array is kept as its serialisation). *)
Inductive JsValue :=
| JsUndefined
| JsNull
| JsBool (b : bool)
| JsNumber (n : Z)
| JsString (s : string)
| JsObject (json : string).

(** The reason of a rejected promise, as the [catch] clauses look at it:
    [error instanceof Error ? error.message : String(error)]. *)
Inductive Rejection :=
| ErrorInstance (message : string)
| OtherReason (asString : string).

Definition errorMessage (e : Rejection) : string :=
  match e with
  | ErrorInstance message => message
  | OtherReason asString => asString
  end.

(** How the host settles the promise of a call. *)
Inductive Settlement :=
| Resolved (value : JsValue)
| Rejected (reason : Rejection).

(** ** Background tasks ([BackgroundTask] of backgroundTaskExecutor.ts) *)

Inductive TaskStatus := pending | running | completed | failed | cancelled.

#[global] Instance TaskStatus_eq_dec : EqDecision TaskStatus.
Proof. solve_decision. Defined.

Module Task.

Record BackgroundTask := mk {
  id : string;
  command : string;
  args : option (list JsValue);
  delay : Z;
  status : TaskStatus;
  createdAt : Z;
  startedAt : option Z;
  completedAt : option Z;
  result : option JsValue;
  error : option string;
}.

(** Field assignments [task.status = s], [task.startedAt = t], ... *)
Definition with_status (s : TaskStatus) (t : BackgroundTask) : BackgroundTask :=
  mk (id t) (command t) (args t) (delay t) s (createdAt t)
     (startedAt t) (completedAt t) (result t) (error t).

Definition with_startedAt (now : Z) (t : BackgroundTask) : BackgroundTask :=
  mk (id t) (command t) (args t) (delay t) (status t) (createdAt t)
     (Some now) (completedAt t) (result t) (error t).

Definition with_completedAt (now : Z) (t : BackgroundTask) : BackgroundTask :=
  mk (id t) (command t) (args t) (delay t) (status t) (createdAt t)
     (startedAt t) (Some now) (result t) (error t).

Definition with_result (v : JsValue) (t : BackgroundTask) : BackgroundTask :=
  mk (id t) (command t) (args t) (delay t) (status t) (createdAt t)
     (startedAt t) (completedAt t) (Some v) (error t).

Definition with_error (e : string) (t : BackgroundTask) : BackgroundTask :=
  mk (id t) (command t) (args t) (delay t) (status t) (createdAt t)
     (startedAt t) (completedAt t) (result t) (Some e).

(** [task.status === s] *)
Definition has_status (s : TaskStatus) (t : BackgroundTask) : bool :=
  bool_decide (status t = s).

(** [['completed', 'failed', 'cancelled'].includes(task.status)] *)
Definition is_terminal (t : BackgroundTask) : bool :=
  match status t with
  | completed | failed | cancelled => true
  | pending | running => false
  end.

End Task.

Abbreviation BackgroundTask := Task.BackgroundTask.

(** A reference to a task object: its index in the heap of task objects. *)
Abbreviation Ref := nat (only parsing).

(** ** The JavaScript [Map] of the executor

    Keys are task ids, values are references; iteration is in insertion
    order and [set] on a key that is present keeps its position. *)

Module JsMap.

Definition t : Type := list (string * Ref).

Definition empty : t := [].

Fixpoint get (k : string) (m : t) : option Ref :=
  match m with
  | [] => None
  | (k', v) :: rest => if String.eqb k k' then Some v else get k rest
  end.

Fixpoint set (k : string) (v : Ref) (m : t) : t :=
  match m with
  | [] => [(k, v)]
  | (k', v') :: rest =>
      if String.eqb k k' then (k', v) :: rest else (k', v') :: set k v rest
  end.

Fixpoint delete (k : string) (m : t) : t :=
  match m with
  | [] => []
  | (k', v') :: rest =>
      if String.eqb k k' then rest else (k', v') :: delete k rest
  end.

Definition values (m : t) : list Ref := map snd m.

Definition size (m : t) : nat := length m.

End JsMap.

(** ** Configuration source, host calls, notifications *)

(** A snapshot of [vscode.workspace.getConfiguration(...)]; a setting that
    is not set is [None] and [config.get(key, default)] falls back. *)
Record Config := mkConfig {
  cfg_allowedCommands : option (list string);
  cfg_asyncExecution : option bool;
  cfg_executionDelay : option Z;
  cfg_showAsyncNotifications : option bool;
}.

Definition config_get {A} (setting : option A) (fallback : A) : A :=
  default fallback setting.

(** A call of [vscode.commands.executeCommand(command, ...args)].  [owner]
    is the task object whose [executeTask] issued the call and waits for it
    ([None] for the call of the synchronous path of the gateway). *)
Record HostCall := mkHostCall {
  hc_owner : option Ref;
  hc_command : string;
  hc_args : list JsValue;
  hc_settled : bool;
}.

Inductive Severity := Information | Warning | Error.

(** [vscode.window.show{Information,Warning,Error}Message(text)] *)
Record Notification := mkNotification {
  severity : Severity;
  text : string;
}.

Definition is_warning (n : Notification) : bool :=
  match severity n with
  | Warning => true
  | Information | Error => false
  end.

(** Aggregate statistics ([getTaskStats]) *)
Module Stats.

Record TaskStats := mk {
  total : nat;
  pending : nat;
  running : nat;
  completed : nat;
  failed : nat;
  cancelled : nat;
}.

End Stats.

Abbreviation TaskStats := Stats.TaskStats.

(** ** The world: the two objects of the subsystem and their environment *)

Record World := mkWorld {
  (* [Date.now()]: the readings of the clock, and how many were taken *)
  clock : nat → Z;
  clockReads : nat;
  (* the configuration source *)
  config : Config;
  (* every call of the command host so far, oldest first *)
  hostCalls : list HostCall;
  (* messages shown to the operator, oldest first *)
  notifications : list Notification;
  (* the task objects ever created *)
  heap : list BackgroundTask;
  (* fields of [BackgroundTaskExecutor]; [processingInterval] tells whether
      the interval timer is registered *)
  tasks : JsMap.t;
  taskCounter : nat;
  isRunning : bool;
  processingInterval : bool;
  (* fields of [CommandExecutor]; [backgroundExecutor] tells whether the
      field has been assigned yet *)
  allowedCommands : list string;
  asyncExecution : bool;
  executionDelay : Z;
  backgroundExecutor : bool;
}.

Definition set_clockReads (x : nat) (w : World) : World :=
  mkWorld (clock w) x (config w) (hostCalls w) (notifications w) (heap w)
    (tasks w) (taskCounter w) (isRunning w) (processingInterval w)
    (allowedCommands w) (asyncExecution w) (executionDelay w)
    (backgroundExecutor w).

Definition set_config (x : Config) (w : World) : World :=
  mkWorld (clock w) (clockReads w) x (hostCalls w) (notifications w)
    (heap w) (tasks w) (taskCounter w) (isRunning w) (processingInterval w)
    (allowedCommands w) (asyncExecution w) (executionDelay w)
    (backgroundExecutor w).

Definition set_hostCalls (x : list HostCall) (w : World) : World :=
  mkWorld (clock w) (clockReads w) (config w) x (notifications w) (heap w)
    (tasks w) (taskCounter w) (isRunning w) (processingInterval w)
    (allowedCommands w) (asyncExecution w) (executionDelay w)
    (backgroundExecutor w).

Definition set_notifications (x : list Notification) (w : World) : World :=
  mkWorld (clock w) (clockReads w) (config w) (hostCalls w) x (heap w)
    (tasks w) (taskCounter w) (isRunning w) (processingInterval w)
    (allowedCommands w) (asyncExecution w) (executionDelay w)
    (backgroundExecutor w).

Definition set_heap (x : list BackgroundTask) (w : World) : World :=
  mkWorld (clock w) (clockReads w) (config w) (hostCalls w)
    (notifications w) x (tasks w) (taskCounter w) (isRunning w)
    (processingInterval w) (allowedCommands w) (asyncExecution w)
    (executionDelay w) (backgroundExecutor w).

Definition set_tasks (x : JsMap.t) (w : World) : World :=
  mkWorld (clock w) (clockReads w) (config w) (hostCalls w)
    (notifications w) (heap w) x (taskCounter w) (isRunning w)
    (processingInterval w) (allowedCommands w) (asyncExecution w)
    (executionDelay w) (backgroundExecutor w).

Definition set_taskCounter (x : nat) (w : World) : World :=
  mkWorld (clock w) (clockReads w) (config w) (hostCalls w)
    (notifications w) (heap w) (tasks w) x (isRunning w)
    (processingInterval w) (allowedCommands w) (asyncExecution w)
    (executionDelay w) (backgroundExecutor w).

Definition set_isRunning (x : bool) (w : World) : World :=
  mkWorld (clock w) (clockReads w) (config w) (hostCalls w)
    (notifications w) (heap w) (tasks w) (taskCounter w) x
    (processingInterval w) (allowedCommands w) (asyncExecution w)
    (executionDelay w) (backgroundExecutor w).

Definition set_processingInterval (x : bool) (w : World) : World :=
  mkWorld (clock w) (clockReads w) (config w) (hostCalls w)
    (notifications w) (heap w) (tasks w) (taskCounter w) (isRunning w) x
    (allowedCommands w) (asyncExecution w) (executionDelay w)
    (backgroundExecutor w).

Definition set_allowedCommands (x : list string) (w : World) : World :=
  mkWorld (clock w) (clockReads w) (config w) (hostCalls w)
    (notifications w) (heap w) (tasks w) (taskCounter w) (isRunning w)
    (processingInterval w) x (asyncExecution w) (executionDelay w)
    (backgroundExecutor w).

Definition set_asyncExecution (x : bool) (w : World) : World :=
  mkWorld (clock w) (clockReads w) (config w) (hostCalls w)
    (notifications w) (heap w) (tasks w) (taskCounter w) (isRunning w)
    (processingInterval w) (allowedCommands w) x (executionDelay w)
    (backgroundExecutor w).

Definition set_executionDelay (x : Z) (w : World) : World :=
  mkWorld (clock w) (clockReads w) (config w) (hostCalls w)
    (notifications w) (heap w) (tasks w) (taskCounter w) (isRunning w)
    (processingInterval w) (allowedCommands w) (asyncExecution w) x
    (backgroundExecutor w).

Definition set_backgroundExecutor (x : bool) (w : World) : World :=
  mkWorld (clock w) (clockReads w) (config w) (hostCalls w)
    (notifications w) (heap w) (tasks w) (taskCounter w) (isRunning w)
    (processingInterval w) (allowedCommands w) (asyncExecution w)
    (executionDelay w) x.

(** ** A state monad over the world *)

Definition M (A : Type) : Type := World → A * World.

#[global] Instance M_ret : MRet M := λ A x w, (x, w).

#[global] Instance M_bind : MBind M := λ A B f m w, f (m w).1 (m w).2.

Definition gets {A} (f : World → A) : M A := λ w, (f w, w).

Definition modify (f : World → World) : M unit := λ w, ((), f w).

(** The world after, and the value returned by, a computation. *)
Definition exec {A} (m : M A) (w : World) : World := (m w).2.

Definition eval {A} (m : M A) (w : World) : A := (m w).1.

(** [for (const x of xs) body(x)] *)
Fixpoint forEach {A} (body : A → M unit) (xs : list A) : M unit :=
  match xs with
  | [] => mret ()
  | x :: rest => body x;; forEach body rest
  end.

(** [Date.now()]: the next reading of the clock *)
Definition Date_now : M Z :=
  λ w, (clock w (clockReads w), set_clockReads (S (clockReads w)) w).

(** Reading a task object through a reference. *)
Definition deref (a : Ref) : M (option BackgroundTask) :=
  gets (λ w, heap w !! a).

(** Assigning to a field of a task object through a reference. *)
Definition assign (a : Ref) (f : BackgroundTask → BackgroundTask) : M unit :=
  modify (λ w, set_heap (alter f a (heap w)) w).

(** A new task object (an object literal). *)
Definition allocate (t : BackgroundTask) : M Ref :=
  λ w, (length (heap w), set_heap (heap w ++ [t]) w).

(** [vscode.commands.executeCommand(command, ...args)]: the call is handed
    to the host and a promise (its index in the log) comes back. *)
Definition vscode_commands_executeCommand
    (owner : option Ref) (command : string) (args : list JsValue) : M nat :=
  λ w, (length (hostCalls w),
        set_hostCalls (hostCalls w ++ [mkHostCall owner command args false]) w).

Definition showMessage (sev : Severity) (message : string) : M unit :=
  modify (λ w, set_notifications (notifications w ++ [mkNotification sev message]) w).

(** ** [BackgroundTaskExecutor] *)

(** [`bg_task_${++this.taskCounter}_${Date.now()}`] *)
Definition taskIdOf (counter : nat) (now : Z) : string :=
  "bg_task_" +:+ Js.show_Z (Z.of_nat counter) +:+ "_" +:+ Js.show_Z now.

Definition submitTask (command : string) (args : option (list JsValue)) (delay : Z)
    : M string :=
  modify (λ w, set_taskCounter (S (taskCounter w)) w);;
  counter ← gets taskCounter;
  stamp ← Date_now;
  let taskId := taskIdOf counter stamp in
  created ← Date_now;
  a ← allocate (Task.mk taskId command args delay pending created None None None None);
  modify (λ w, set_tasks (JsMap.set taskId a (tasks w)) w);;
  mret taskId.

(** The part of [executeTask] that runs before the [await]. *)
Definition executeTask (a : Ref) : M unit :=
  o ← deref a;
  match o with
  | None => mret ()
  | Some task =>
      if negb (Task.has_status pending task) then mret ()
      else
        assign a (Task.with_status running);;
        now ← Date_now;
        assign a (Task.with_startedAt now);;
        vscode_commands_executeCommand
          (Some a) (Task.command task) (default [] (Task.args task));;
        mret ()
  end.

(** The rest of the [try] block of [executeTask], run when the promise of
    the host call is fulfilled. *)
Definition executeTask_fulfilled (a : Ref) (value : JsValue) : M unit :=
  assign a (Task.with_status completed);;
  now ← Date_now;
  assign a (Task.with_completedAt now);;
  assign a (Task.with_result value);;
  cfg ← gets config;
  let showNotifications := config_get (cfg_showAsyncNotifications cfg) false in
  o ← deref a;
  if showNotifications then
    showMessage Information (default "" (Task.command <$> o) +:+ " Done")
  else mret ().

(** The [catch] block of [executeTask], run when the promise is rejected. *)
Definition executeTask_rejected (a : Ref) (reason : Rejection) : M unit :=
  assign a (Task.with_status failed);;
  now ← Date_now;
  assign a (Task.with_completedAt now);;
  assign a (Task.with_error (errorMessage reason));;
  o ← deref a;
  showMessage Error
    ("后台任务执行失败: " +:+ default "" (Task.command <$> o)
       +:+ " - " +:+ errorMessage reason).

(** The comparison [(a, b) => a.createdAt - b.createdAt] as an order. *)
Definition createdAtOf (h : list BackgroundTask) (a : Ref) : Z :=
  default 0 (Task.createdAt <$> h !! a).

Definition createdAt_le (h : list BackgroundTask) (a b : Ref) : Prop :=
  createdAtOf h a ≤ createdAtOf h b.

#[global] Instance createdAt_le_dec h : RelDecision (createdAt_le h).
Proof. intros a b. unfold createdAt_le. apply _. Defined.

(** [task => task.status === s] on a reference *)
Definition ref_has_status (h : list BackgroundTask) (s : TaskStatus) (a : Ref) : bool :=
  default false (Task.has_status s <$> h !! a).

(** [Array.from(this.tasks.values()).filter(pending).sort(by createdAt)] *)
Definition pendingTasksOf (w : World) : list Ref :=
  Js.sort (createdAt_le (heap w))
    (List.filter (ref_has_status (heap w) pending) (JsMap.values (tasks w))).

(** The body of the loop of [processPendingTasks]. *)
Definition processTask (a : Ref) : M unit :=
  o ← deref a;
  match o with
  | None => mret ()
  | Some task =>
      if negb (Task.has_status pending task) then mret ()
      else
        now ← Date_now;
        let shouldExecute := Z.geb (now - Task.createdAt task) (Task.delay task) in
        if shouldExecute then executeTask a else mret ()
  end.

Definition processPendingTasks : M unit :=
  active ← gets isRunning;
  if negb active then mret ()
  else
    pendingTasks ← gets pendingTasksOf;
    forEach processTask pendingTasks.

Definition getTask (taskId : string) : M (option BackgroundTask) :=
  gets (λ w, a ← JsMap.get taskId (tasks w); heap w !! a).

Definition getAllTasks : M (list BackgroundTask) :=
  gets (λ w, omap (λ a, heap w !! a) (JsMap.values (tasks w))).

Definition cancelTask (taskId : string) : M bool :=
  r ← gets (λ w, JsMap.get taskId (tasks w));
  match r with
  | None => mret false
  | Some a =>
      o ← deref a;
      match o with
      | None => mret false
      | Some task =>
          if Task.has_status pending task || Task.has_status running task then
            assign a (Task.with_status cancelled);;
            now ← Date_now;
            assign a (Task.with_completedAt now);;
            mret true
          else mret false
      end
  end.

Definition clearCompletedTasks : M nat :=
  all ← getAllTasks;
  let completedTasks := List.filter Task.is_terminal all in
  forEach (λ task, modify (λ w, set_tasks (JsMap.delete (Task.id task) (tasks w)) w))
          completedTasks;;
  mret (length completedTasks).

Definition clearAllTasks : M nat :=
  count ← gets (λ w, JsMap.size (tasks w));
  modify (set_tasks JsMap.empty);;
  mret count.

Definition getTaskStats : M TaskStats :=
  all ← getAllTasks;
  let count s := length (List.filter (Task.has_status s) all) in
  mret (Stats.mk (length all) (count pending) (count running)
                 (count completed) (count failed) (count cancelled)).

Definition stop : M unit :=
  modify (set_isRunning false);;
  interval ← gets processingInterval;
  if (interval : bool) then modify (set_processingInterval false) else mret ().

Definition dispose : M unit :=
  stop;; clearAllTasks;; mret ().

(** ** [CommandExecutor] *)

(** The object returned by [executeCommand]; a key that the source leaves
    out of the object literal is [None]. *)
Module Reply.

Record ExecutionResult := mk {
  success : bool;
  async : bool;
  taskId : option string;
  message : option string;
  command : string;
  arguments : option (list JsValue);
  executionDelay : option Z;
  queueLength : option nat;
  taskStats : option TaskStats;
  result : option JsValue;
  error : option string;
}.

End Reply.

Abbreviation ExecutionResult := Reply.ExecutionResult.

(** How an [async] function leaves its first synchronous run: it has
    returned, it has thrown, or it is suspended on the promise of a host
    call. *)
Inductive Outcome (A : Type) :=
| Returned (value : A)
| Threw (message : string)
| Awaiting (promise : nat).

Arguments Returned {A} value.
Arguments Threw {A} message.
Arguments Awaiting {A} promise.

Definition updateAllowedCommands : M unit :=
  cfg ← gets config;
  modify (set_allowedCommands (config_get (cfg_allowedCommands cfg) [])).

Definition updateAsyncConfig : M unit :=
  cfg ← gets config;
  modify (set_asyncExecution (config_get (cfg_asyncExecution cfg) true));;
  modify (set_executionDelay (config_get (cfg_executionDelay cfg) 0));;
  enabled ← gets asyncExecution;
  created ← gets backgroundExecutor;
  if negb enabled && created then
    stats ← getTaskStats;
    if (0 <? Stats.pending stats)%nat then
      showMessage Warning
        ("异步执行已禁用，将清除 " +:+ Js.show_Z (Z.of_nat (Stats.pending stats))
           +:+ " 个待处理任务");;
      clearAllTasks;;
      mret ()
    else mret ()
  else mret ().

(** The acknowledgement of the asynchronous path, for a delay that is a
    safe integer (the template literal prints such a number in decimal). *)
Definition submittedMessage (command : string) (executionDelay : Z) : string :=
  "命令 '" +:+ command +:+ "' 已提交到后台执行"
    +:+ (if 0 <? executionDelay
         then "，将在 " +:+ Js.show_Z executionDelay +:+ "ms 后执行"
         else "").

Definition notAllowedMessage (command : string) : string :=
  "Command '" +:+ command +:+ "' is not allowed".

(** [executeCommand] up to its first suspension. *)
Definition executeCommand (command : string) (args : option (list JsValue))
    : M (Outcome ExecutionResult) :=
  allowed ← gets allowedCommands;
  if negb (isCommandAllowed allowed command) then
    mret (Threw (notAllowedMessage command))
  else
    enabled ← gets asyncExecution;
    if (enabled : bool) then
      executionDelay ← gets executionDelay;
      taskId ← submitTask command args executionDelay;
      stats ← getTaskStats;
      mret (Returned
        (Reply.mk true true (Some taskId)
           (Some (submittedMessage command executionDelay))
           command args (Some executionDelay)
           (Some (Stats.pending stats + Stats.running stats)%nat)
           (Some stats) None None))
    else
      promise ← vscode_commands_executeCommand None command (default [] args);
      mret (Awaiting promise).

(** What the synchronous path returns once the host has settled its call. *)
Definition executeCommand_settled
    (command : string) (args : option (list JsValue)) (outcome : Settlement)
    : ExecutionResult :=
  match outcome with
  | Resolved value =>
      Reply.mk true false None None command args None None None (Some value) None
  | Rejected reason =>
      Reply.mk false false None None command args None None None None
               (Some (errorMessage reason))
  end.

(** [vscode.commands.getCommands()] either reports the command names or
    fails; [getAvailableCommands] continues from there. *)
Definition getAvailableCommands
    (allowedCommands : list string) (reported : list string + Rejection)
    : list string :=
  match reported with
  | inl commands =>
      let filtered :=
        if (0 <? length allowedCommands)%nat
        then List.filter (isCommandAllowed allowedCommands) commands
        else commands in
      Js.sort Js.le filtered
  | inr _ => []
  end.

(** ** The tools of [FastMcpServer] that go through the gateway *)

(** The text of a tool result: literal text, or a prefix followed by
    [JSON.stringify(value, null, 2)]. *)
Inductive ToolText :=
| PlainText (s : string)
| JsonText (prefix : string) (value : ExecutionResult).

(** [{ content: [{ type: 'text', text }], isError }]; [isError] is [None]
    where the object literal has no such key. *)
Record ToolResult := mkToolResult {
  content : ToolText;
  isError : option bool;
}.

(** The [success] key of the payload of a tool result, if it has one. *)
Definition successOf (r : ToolResult) : option bool :=
  match content r with
  | JsonText _ value => Some (Reply.success value)
  | PlainText _ => None
  end.

(** [execute_vscode_command], up to the first suspension. *)
Definition execute_vscode_command (command : string) (cmdArgs : option (list string))
    : M (Outcome ToolResult) :=
  r ← executeCommand command (Some (JsString <$> default [] cmdArgs));
  mret (match r with
        | Returned result =>
            Returned (mkToolResult (JsonText "命令执行结果: " result) None)
        | Threw message =>
            Returned (mkToolResult (PlainText ("命令执行失败: " +:+ message)) (Some true))
        | Awaiting promise => Awaiting promise
        end).

Definition execute_vscode_command_settled
    (command : string) (cmdArgs : option (list string)) (outcome : Settlement)
    : ToolResult :=
  mkToolResult
    (JsonText "命令执行结果: "
       (executeCommand_settled command (Some (JsString <$> default [] cmdArgs)) outcome))
    None.

(** What [list_vscode_commands] puts in its text: the number of commands,
    [commands.slice(0, 20)] and whether the marker of truncation follows. *)
Record CommandList := mkCommandList {
  cl_count : nat;
  cl_shown : list string;
  cl_more : bool;
}.

Definition previewOf (commands : list string) : CommandList :=
  mkCommandList (length commands) (take 20 commands) (20 <? length commands)%nat.

Definition newline : string := String (Ascii.ascii_of_nat 10) "".

Definition renderCommandList (l : CommandList) : string :=
  "可用命令 (" +:+ Js.show_Z (Z.of_nat (cl_count l)) +:+ "个):" +:+ newline
    +:+ Js.join newline (cl_shown l)
    +:+ (if cl_more l then newline +:+ "...(还有更多)" else "").

Definition list_vscode_commands
    (allowedCommands : list string) (reported : list string + Rejection)
    : ToolResult :=
  let commands := getAvailableCommands allowedCommands reported in
  mkToolResult (PlainText (renderCommandList (previewOf commands))) None.

(** The reading of the specification: the lines of a text, which is what
    [text.split("\n")] gives. *)
Definition newlineChar : Ascii.ascii := Ascii.ascii_of_nat 10.

Fixpoint linesOf (text : string) : list string :=
  match text with
  | EmptyString => [EmptyString]
  | String c rest =>
      if Ascii.eqb c newlineChar then EmptyString :: linesOf rest
      else
        match linesOf rest with
        | line :: lines => String c line :: lines
        | [] => [String c EmptyString]
        end
  end.

(** ** Events and runs *)

Definition mark_settled (c : HostCall) : HostCall :=
  mkHostCall (hc_owner c) (hc_command c) (hc_args c) true.

(** The host settles a promise: the continuation waiting for it runs. *)
Definition settle (promise : nat) (outcome : Settlement) : M unit :=
  calls ← gets hostCalls;
  match calls !! promise with
  | None => mret ()
  | Some call =>
      if hc_settled call then mret ()
      else
        modify (λ w, set_hostCalls (alter mark_settled promise (hostCalls w)) w);;
        match hc_owner call with
        | None => mret ()
        | Some a =>
            match outcome with
            | Resolved value => executeTask_fulfilled a value
            | Rejected reason => executeTask_rejected a reason
            end
        end
  end.

(** Everything that can happen to the subsystem, one run-to-completion
    step of the event loop each. *)
Inductive Event :=
| ExecuteCommand (command : string) (args : option (list JsValue))
| SubmitTask (command : string) (args : option (list JsValue)) (delay : Z)
| Tick
| Settle (promise : nat) (outcome : Settlement)
| CancelTask (taskId : string)
| ClearCompletedTasks
| ClearAllTasks
| ConfigurationChanged (cfg : Config)
| UpdateAllowedCommands
| UpdateAsyncConfig
| Stop
| Dispose.

Definition step (e : Event) : M unit :=
  match e with
  | ExecuteCommand command args => executeCommand command args;; mret ()
  | SubmitTask command args delay => submitTask command args delay;; mret ()
  | Tick => processPendingTasks
  | Settle promise outcome => settle promise outcome
  | CancelTask taskId => cancelTask taskId;; mret ()
  | ClearCompletedTasks => clearCompletedTasks;; mret ()
  | ClearAllTasks => clearAllTasks;; mret ()
  | ConfigurationChanged cfg => modify (set_config cfg)
  | UpdateAllowedCommands => updateAllowedCommands
  | UpdateAsyncConfig => updateAsyncConfig
  | Stop => stop
  | Dispose => dispose
  end.

Definition run (events : list Event) : M unit := forEach step events.

(** The world before any constructor has run: the field initialisers. *)
Definition blank (clock : nat → Z) (cfg : Config) : World :=
  mkWorld clock 0 cfg [] [] [] JsMap.empty 0 true false [] true 0 false.

(** [new CommandExecutor()], which creates its [BackgroundTaskExecutor]
    ([startTaskProcessor] registers the interval). *)
Definition new_CommandExecutor : M unit :=
  updateAllowedCommands;;
  updateAsyncConfig;;
  modify (set_processingInterval true);;
  modify (set_backgroundExecutor true).

Definition initial (clock : nat → Z) (cfg : Config) : World :=
  exec new_CommandExecutor (blank clock cfg).

(** A world that the subsystem can be in. *)
Definition reachable (w : World) : Prop :=
  ∃ clock cfg events, w = exec (run events) (initial clock cfg).

(** ** The life cycle of a task, as the events drive it *)

(** The task objects that were handed to the command host, oldest first. *)
Definition owners (w : World) : list Ref := omap hc_owner (hostCalls w).

(** The readings of the clock taken between two worlds. *)
Definition taken (w w' : World) (reading : Z) : Prop :=
  ∃ k, (clockReads w ≤ k < clockReads w')%nat ∧ clock w k = reading.

(** [pending → running]: some reading [check] of the clock found the delay
    elapsed; [now] is the later reading stored in [startedAt]. *)
Definition started (readings : Z → Prop) (t t' : BackgroundTask) : Prop :=
  Task.status t = pending
  ∧ ∃ check now,
      readings check
      ∧ Task.delay t ≤ check - Task.createdAt t
      ∧ t' = Task.with_startedAt now (Task.with_status running t).

(** [pending | running → cancelled] by [cancelTask] *)
Definition cancelled_by_request (t t' : BackgroundTask) : Prop :=
  (Task.status t = pending ∨ Task.status t = running)
  ∧ ∃ now, t' = Task.with_completedAt now (Task.with_status cancelled t).

(** What the continuation of [executeTask] writes when the host settles
    the call: whatever the status of the task is by then. *)
Definition settled_by_host (t t' : BackgroundTask) : Prop :=
  ∃ now,
    (∃ value,
       t' = Task.with_result value
              (Task.with_completedAt now (Task.with_status completed t)))
    ∨ (∃ message,
       t' = Task.with_error message
              (Task.with_completedAt now (Task.with_status failed t))).

(** One scheduler tick: every task object stays as it is or is started, no
    object is created, and the objects handed to the host are exactly the
    started ones. *)
Record ticks (w w' : World) : Prop := mkTicks {
  tk_clock : clock w' = clock w;
  tk_reads : (clockReads w ≤ clockReads w')%nat;
  tk_tasks : tasks w' = tasks w;
  tk_length : length (heap w') = length (heap w);
  tk_heap : ∀ a t, heap w !! a = Some t →
    ∃ t', heap w' !! a = Some t' ∧ (t' = t ∨ started (taken w w') t t');
  tk_owners : ∃ new,
    owners w' = owners w ++ new
    ∧ NoDup new
    ∧ ∀ a, a ∈ new →
        (∃ t, heap w !! a = Some t ∧ Task.status t = pending)
        ∧ (∃ t', heap w' !! a = Some t' ∧ Task.status t' = running);
}.

(** One event of any kind. *)
Record moves (w w' : World) : Prop := mkMoves {
  mv_clock : clock w' = clock w;
  mv_reads : (clockReads w ≤ clockReads w')%nat;
  mv_heap : ∀ a t, heap w !! a = Some t →
    ∃ t', heap w' !! a = Some t'
      ∧ (t' = t
         ∨ started (taken w w') t t'
         ∨ cancelled_by_request t t'
         ∨ (a ∈ owners w ∧ settled_by_host t t'));
  mv_owners : ∃ new,
    owners w' = owners w ++ new
    ∧ NoDup new
    ∧ ∀ a, a ∈ new →
        (∃ t, heap w !! a = Some t ∧ Task.status t = pending)
        ∧ (∃ t', heap w' !! a = Some t' ∧ Task.status t' = running);
}.

(** The invariant of the log of host calls: a task object that was handed
    to the host has left [pending], and none was handed over twice. *)
Definition wf (w : World) : Prop :=
  NoDup (owners w)
  ∧ ∀ a, a ∈ owners w → ∃ t, heap w !! a = Some t ∧ Task.status t ≠ pending.

(** An event that leaves the task objects, the log of host calls and the
    clock alone. *)
Definition untouched (w w' : World) : Prop :=
  clock w' = clock w
  ∧ clockReads w' = clockReads w
  ∧ heap w' = heap w
  ∧ hostCalls w' = hostCalls w.

(** What shutdown leaves of the executor: an empty store, no interval
    timer, not running. *)
Definition shut_down (w : World) : Prop :=
  tasks w = JsMap.empty ∧ isRunning w = false ∧ processingInterval w = false.

(** Events that put a task into the store. *)
Definition submits (e : Event) : bool :=
  match e with
  | ExecuteCommand _ _ | SubmitTask _ _ _ => true
  | _ => false
  end.

(** ** More of [BackgroundTaskExecutor] and [CommandExecutor] *)

(** [getTasksByStatus(status)] *)
Definition getTasksByStatus (s : TaskStatus) : M (list BackgroundTask) :=
  all ← getAllTasks;
  mret (List.filter (Task.has_status s) all).

(** The order of [createdAt] is a total preorder. *)
#[global] Instance createdAt_le_trans h : Transitive (createdAt_le h).
Proof. intros a b c. unfold createdAt_le. lia. Qed.

#[global] Instance createdAt_le_total h : Total (createdAt_le h).
Proof. intros a b. unfold createdAt_le. lia. Qed.

(** [text.replace(/c/g, replacement)] for a pattern that is one literal
    character *)
Fixpoint replaceAll (c : Ascii.ascii) (replacement : string) (text : string) : string :=
  match text with
  | EmptyString => EmptyString
  | String a rest =>
      (if Ascii.eqb a c then replacement else String a EmptyString)
        +:+ replaceAll c replacement rest
  end.

Definition ampersand : Ascii.ascii := Ascii.ascii_of_nat 38.
Definition lessThan : Ascii.ascii := Ascii.ascii_of_nat 60.
Definition greaterThan : Ascii.ascii := Ascii.ascii_of_nat 62.
Definition doubleQuote : Ascii.ascii := Ascii.ascii_of_nat 34.
Definition singleQuote : Ascii.ascii := Ascii.ascii_of_nat 39.

(** [escapeHtml] of [CommandExecutor] and [ServerManager] *)
Definition escapeHtml (text : string) : string :=
  replaceAll singleQuote "&#39;"
    (replaceAll doubleQuote "&quot;"
       (replaceAll greaterThan "&gt;"
          (replaceAll lessThan "&lt;"
             (replaceAll ampersand "&amp;" text)))).

(** The characters of a string. *)
Fixpoint chars (s : string) : list Ascii.ascii :=
  match s with
  | EmptyString => []
  | String a rest => a :: chars rest
  end.

(** The object returned by [executeWorkspaceCommand]. *)
Module WorkspaceReply.

Record WorkspaceResult := mk {
  success : bool;
  result : option JsValue;
  error : option string;
  command : string;
  arguments : option (list JsValue);
  workspaceFolders : option (list string);
}.

End WorkspaceReply.

Abbreviation WorkspaceResult := WorkspaceReply.WorkspaceResult.

(** [executeWorkspaceCommand] up to its first suspension;
    [workspaceFolders] is [vscode.workspace.workspaceFolders] (the paths of
    the folders, [None] for [undefined]). *)
Definition executeWorkspaceCommand
    (workspaceFolders : option (list string))
    (command : string) (args : option (list JsValue))
    : M (Outcome WorkspaceResult) :=
  match workspaceFolders with
  | None | Some [] =>
      mret (Returned
        (WorkspaceReply.mk false None (Some "No workspace folders available")
           command args None))
  | Some _ =>
      promise ← vscode_commands_executeCommand None command (default [] args);
      mret (Awaiting promise)
  end.

Definition executeWorkspaceCommand_settled
    (workspaceFolders : list string)
    (command : string) (args : option (list JsValue)) (outcome : Settlement)
    : WorkspaceResult :=
  match outcome with
  | Resolved value =>
      WorkspaceReply.mk true (Some value) None command args (Some workspaceFolders)
  | Rejected reason =>
      WorkspaceReply.mk false None (Some (errorMessage reason)) command args None
  end.

(** ** More of [FastMcpServer] *)

(** What [get_workspace_info] reads from the editor. *)
Record Workspace := mkWorkspace {
  workspace_name : option string;
  workspace_folders : option (list (string * string));
  activeTextEditor : option string;
}.

Record WorkspaceInfo := mkWorkspaceInfo {
  info_name : string;
  info_folders : list (string * string);
  info_activeEditor : string;
}.

(** [value || fallback] on a string that may be [undefined]: the empty
    string is falsy as well. *)
Definition orElse (value : option string) (fallback : string) : string :=
  match value with
  | Some s => if String.eqb s "" then fallback else s
  | None => fallback
  end.

Definition workspaceInfoOf (ws : Workspace) : WorkspaceInfo :=
  mkWorkspaceInfo
    (orElse (workspace_name ws) "未命名工作区")
    (default [] (workspace_folders ws))
    (orElse (activeTextEditor ws) "无活动编辑器").

(** What a tool call answers: the text of a command or list result, or
    ["工作区信息:\n" + JSON.stringify(workspaceInfo, null, 2)]. *)
Inductive ToolAnswer :=
| CommandAnswer (r : ToolResult)
| WorkspaceAnswer (info : WorkspaceInfo).

(** [getTools()]: the names of the advertised tools *)
Definition getTools : list string :=
  ["execute_vscode_command"; "list_vscode_commands"; "get_workspace_info"].

(** [callTool(name, args)] up to its first suspension; [reported] is the
    answer of [vscode.commands.getCommands()] and [ws] the state of the
    workspace, for the tools that read them. *)
Definition callTool
    (name : string) (command : string) (cmdArgs : option (list JsValue))
    (reported : list string + Rejection) (ws : Workspace)
    : M (Outcome ToolAnswer) :=
  if String.eqb name "execute_vscode_command" then
    r ← executeCommand command (Some (default [] cmdArgs));
    mret (match r with
          | Returned result =>
              Returned (CommandAnswer
                          (mkToolResult (JsonText "命令执行结果: " result) None))
          | Threw message => Threw message
          | Awaiting promise => Awaiting promise
          end)
  else if String.eqb name "list_vscode_commands" then
    allowed ← gets allowedCommands;
    mret (Returned (CommandAnswer (list_vscode_commands allowed reported)))
  else if String.eqb name "get_workspace_info" then
    mret (Returned (WorkspaceAnswer (workspaceInfoOf ws)))
  else mret (Threw ("Unknown tool: " +:+ name)).

(** [xs.includes(x)] on an array of strings *)
Definition includes (xs : list string) (x : string) : bool :=
  existsb (String.eqb x) xs.

(** The object returned by [getCommandInfo]; [reported] is the answer of
    [vscode.commands.getCommands(true)]. *)
Record CommandInfo := mkCommandInfo {
  ci_command : string;
  ci_exists : bool;
  ci_allowed : bool;
  ci_error : option string;
}.

Definition getCommandInfo
    (allowedCommands : list string) (reported : list string + Rejection)
    (command : string) : CommandInfo :=
  match reported with
  | inl commands =>
      mkCommandInfo command (includes commands command)
        (isCommandAllowed allowedCommands command) None
  | inr reason => mkCommandInfo command false false (Some (errorMessage reason))
  end.

(** ** The life cycle of [FastMcpServer] *)

Module Server.

(** What is asked of the FastMCP server: [server.start({...})] with the
    host and the port of the configuration, or [server.stop()]. *)
Inductive Request :=
| StartRequest (host : string) (port : Z)
| StopRequest.

(** How the FastMCP server answers; a failure carries the text that
    [`${error}`] gives. *)
Inductive Answer :=
| Done
| Failed (asString : string).

(** The settings [host] and [port], [None] where unset. *)
Record Settings := mkSettings {
  cfg_host : option string;
  cfg_port : option Z;
}.

(** The buttons of the message that reports a start, and what the
    operator does with them ([Dismissed]: the message is closed, its
    promise yields [undefined]). *)
Inductive Selection :=
| Details
| TestTools
| CopyAddress
| Source
| Dismissed.

(** A start message on display: the address it was shown for, and whether
    the operator has answered it. *)
Record Prompt := mkPrompt {
  prompt_host : string;
  prompt_port : Z;
  prompt_answered : bool;
}.

Record State := mkState {
  isRunning : bool;
  (* the status bar item: its text, its colour, whether the last of
     [show()] and [dispose()] called on it was [show()], and whether
     [dispose()] was called *)
  statusBarText : string;
  statusBarColor : string;
  statusBarShown : bool;
  statusBarDisposed : bool;
  (* the requests made to the FastMCP server, oldest first, and whether
     each one was answered *)
  requests : list (Request * bool);
  (* every message shown to the operator, and the start messages among
     them, oldest first *)
  messages : list Notification;
  prompts : list Prompt;
  (* what the buttons did: the text written to the clipboard last, the
     commands executed and the pages opened *)
  clipboard : option string;
  commands : list string;
  opened : list string;
}.

Definition set_isRunning (x : bool) (s : State) : State :=
  mkState x (statusBarText s) (statusBarColor s) (statusBarShown s)
    (statusBarDisposed s) (requests s) (messages s) (prompts s)
    (clipboard s) (commands s) (opened s).

Definition set_requests (x : list (Request * bool)) (s : State) : State :=
  mkState (isRunning s) (statusBarText s) (statusBarColor s) (statusBarShown s)
    (statusBarDisposed s) x (messages s) (prompts s)
    (clipboard s) (commands s) (opened s).

Definition set_prompts (x : list Prompt) (s : State) : State :=
  mkState (isRunning s) (statusBarText s) (statusBarColor s) (statusBarShown s)
    (statusBarDisposed s) (requests s) (messages s) x
    (clipboard s) (commands s) (opened s).

Definition set_clipboard (x : option string) (s : State) : State :=
  mkState (isRunning s) (statusBarText s) (statusBarColor s) (statusBarShown s)
    (statusBarDisposed s) (requests s) (messages s) (prompts s)
    x (commands s) (opened s).

Definition set_commands (x : list string) (s : State) : State :=
  mkState (isRunning s) (statusBarText s) (statusBarColor s) (statusBarShown s)
    (statusBarDisposed s) (requests s) (messages s) (prompts s)
    (clipboard s) x (opened s).

Definition set_opened (x : list string) (s : State) : State :=
  mkState (isRunning s) (statusBarText s) (statusBarColor s) (statusBarShown s)
    (statusBarDisposed s) (requests s) (messages s) (prompts s)
    (clipboard s) (commands s) x.

Definition showMessage (sev : Severity) (message : string) (s : State) : State :=
  mkState (isRunning s) (statusBarText s) (statusBarColor s) (statusBarShown s)
    (statusBarDisposed s) (requests s)
    (messages s ++ [mkNotification sev message]) (prompts s)
    (clipboard s) (commands s) (opened s).

Definition textOf (running : bool) : string :=
  if running then "🚀 VSCode internal command MCP 🟢"
  else "🚀 VSCode internal command MCP 🔴".

Definition colorOf (running : bool) : string :=
  if running then "statusBarItem.prominentBackground"
  else "statusBarItem.errorBackground".

(** [updateStatusBar()]: text, colour, [show()] *)
Definition updateStatusBar (s : State) : State :=
  mkState (isRunning s) (textOf (isRunning s)) (colorOf (isRunning s)) true
    (statusBarDisposed s) (requests s) (messages s) (prompts s)
    (clipboard s) (commands s) (opened s).

(** An item is on display when it was shown and is not disposed. *)
Definition displayed (s : State) : bool :=
  statusBarShown s && negb (statusBarDisposed s).

(** The constructor. *)
Definition new : State :=
  updateStatusBar (mkState false "" "" false false [] [] [] None [] []).

(** [`http://${host}:${port}/mcp`], for a port that is a safe integer *)
Definition addressOf (host : string) (port : Z) : string :=
  "http://" +:+ host +:+ ":" +:+ Js.show_Z port +:+ "/mcp".

Definition startedMessage (host : string) (port : Z) : string :=
  "🚀 VSCode internal command MCP 已启动" +:+ newline
  +:+ "• 地址: " +:+ addressOf host port +:+ newline
  +:+ "• 协议: Model Context Protocol (MCP) with SSE" +:+ newline
  +:+ "• 传输: HTTP Streaming (text/event-stream)" +:+ newline
  +:+ "• 健康检查: http://" +:+ host +:+ ":" +:+ Js.show_Z port +:+ "/health"
  +:+ newline
  +:+ "• 可用工具: 3 个" +:+ newline
  +:+ "• 状态: 运行中 🟢".

(** [start()] up to its suspension. *)
Definition start (settings : Settings) (s : State) : Outcome bool * State :=
  if isRunning s then (Returned true, s)
  else
    let host := config_get (cfg_host settings) "localhost" in
    let port := config_get (cfg_port settings) 8080 in
    (Awaiting (length (requests s)),
     set_requests (requests s ++ [(StartRequest host port, false)]) s).

(** [stop()] up to its suspension. *)
Definition stop (s : State) : Outcome bool * State :=
  if negb (isRunning s) then (Returned true, s)
  else (Awaiting (length (requests s)),
        set_requests (requests s ++ [(StopRequest, false)]) s).

(** The rest of [start()] or [stop()], run when the FastMCP server answers
    the request.  The message that reports a start offers four buttons. *)
Definition continue (request : Request) (answer : Answer) (s : State)
    : bool * State :=
  match request, answer with
  | StartRequest host port, Done =>
      let s1 := updateStatusBar (set_isRunning true s) in
      let s2 := showMessage Information (startedMessage host port) s1 in
      (true, set_prompts (prompts s2 ++ [mkPrompt host port false]) s2)
  | StartRequest _ _, Failed e =>
      (false,
       showMessage Error ("VSCode internal command MCP 启动失败: " +:+ e)
         (updateStatusBar (set_isRunning false s)))
  | StopRequest, Done =>
      (true,
       showMessage Information "🚀 VSCode internal command MCP 已停止"
         (updateStatusBar (set_isRunning false s)))
  | StopRequest, Failed e =>
      (false, showMessage Error ("VSCode internal command MCP 停止失败: " +:+ e) s)
  end.

Definition mark_answered (r : Request * bool) : Request * bool := (r.1, true).

Definition settle (k : nat) (answer : Answer) (s : State) : State :=
  match requests s !! k with
  | Some (request, false) =>
      (continue request answer
         (set_requests (alter mark_answered k (requests s)) s)).2
  | _ => s
  end.

(** The callback on the start message: what each button does. *)
Definition selected (host : string) (port : Z) (selection : Selection)
    (s : State) : State :=
  match selection with
  | Details =>
      set_commands (commands s ++ ["vscodeICommandMcpServer.showStatus"]) s
  | TestTools =>
      set_commands (commands s ++ ["vscodeICommandMcpServer.testMcpTools"]) s
  | CopyAddress =>
      showMessage Information "FastMCP 服务器地址已复制到剪贴板"
        (set_clipboard (Some (addressOf host port)) s)
  | Source =>
      set_opened
        (opened s ++ ["https://github.com/bestk/vscode-internal-command-mcp-server"])
        s
  | Dismissed => s
  end.

Definition mark_chosen (p : Prompt) : Prompt :=
  mkPrompt (prompt_host p) (prompt_port p) true.

(** The operator answers the [k]-th start message. *)
Definition choose (k : nat) (selection : Selection) (s : State) : State :=
  match prompts s !! k with
  | Some p =>
      if prompt_answered p then s
      else selected (prompt_host p) (prompt_port p) selection
             (set_prompts (alter mark_chosen k (prompts s)) s)
  | None => s
  end.

(** [dispose()]: [this.stop()] is not awaited; then the status bar item is
    disposed. *)
Definition dispose (s : State) : State :=
  let s' := (stop s).2 in
  mkState (isRunning s') (statusBarText s') (statusBarColor s') false
    true (requests s') (messages s') (prompts s')
    (clipboard s') (commands s') (opened s').

(** Everything that can happen to the server object: the calls of its
    methods, the answers of the FastMCP server, its [connect] and
    [disconnect] events, and the choices of the operator. *)
Inductive Event :=
| Start (settings : Settings)
| Stop
| Settle (k : nat) (answer : Answer)
| Choose (k : nat) (selection : Selection)
| ClientConnected
| ClientDisconnected
| UpdateConfiguration
| Dispose.

Definition step (e : Event) (s : State) : State :=
  match e with
  | Start settings => (start settings s).2
  | Stop => (stop s).2
  | Settle k answer => settle k answer s
  | Choose k selection => choose k selection s
  | ClientConnected => showMessage Information "🔗 MCP 客户端已连接" s
  | ClientDisconnected => showMessage Information "🔌 MCP 客户端已断开" s
  | UpdateConfiguration => s
  | Dispose => dispose s
  end.

Definition run (events : list Event) (s : State) : State :=
  fold_left (λ s e, step e s) events s.

End Server.

(** ** Events as sequences of elementary updates *)

(** An assignment that leaves alone what a task was submitted with. *)
Definition keeps_request (f : BackgroundTask → BackgroundTask) : Prop :=
  ∀ t, Task.id (f t) = Task.id t
       ∧ Task.command (f t) = Task.command t
       ∧ Task.args (f t) = Task.args t
       ∧ Task.delay (f t) = Task.delay t
       ∧ Task.createdAt (f t) = Task.createdAt t.

(** The elementary updates of the task objects, the store, the counter,
    the log of host calls and the allow-list; [gated] tells whether tasks
    enter through the gate only and the allow-list stays as it is. *)
Inductive update (gated : bool) (w w' : World) : Prop :=
| up_other :
    heap w' = heap w → hostCalls w' = hostCalls w → tasks w' = tasks w →
    taskCounter w' = taskCounter w → allowedCommands w' = allowedCommands w →
    update gated w w'
| up_assign (a : nat) (f : BackgroundTask → BackgroundTask) :
    keeps_request f →
    heap w' = alter f a (heap w) → hostCalls w' = hostCalls w →
    tasks w' = tasks w → taskCounter w' = taskCounter w →
    allowedCommands w' = allowedCommands w →
    update gated w w'
| up_start (a : nat) (t : BackgroundTask) (f : BackgroundTask → BackgroundTask) :
    heap w !! a = Some t → Task.status t = pending → keeps_request f →
    heap w' = alter f a (heap w) →
    hostCalls w' = hostCalls w
                   ++ [mkHostCall (Some a) (Task.command t)
                         (default [] (Task.args t)) false] →
    tasks w' = tasks w → taskCounter w' = taskCounter w →
    allowedCommands w' = allowedCommands w →
    update gated w w'
| up_sync (command : string) (args : list JsValue) :
    isCommandAllowed (allowedCommands w) command = true →
    heap w' = heap w →
    hostCalls w' = hostCalls w ++ [mkHostCall None command args false] →
    tasks w' = tasks w → taskCounter w' = taskCounter w →
    allowedCommands w' = allowedCommands w →
    update gated w w'
| up_settled (promise : nat) :
    heap w' = heap w →
    hostCalls w' = alter mark_settled promise (hostCalls w) →
    tasks w' = tasks w → taskCounter w' = taskCounter w →
    allowedCommands w' = allowedCommands w →
    update gated w w'
| up_submit (command : string) (args : option (list JsValue)) (delay stamp created : Z) :
    (gated = true → isCommandAllowed (allowedCommands w) command = true) →
    heap w' = heap w
              ++ [Task.mk (taskIdOf (S (taskCounter w)) stamp) command args delay
                    pending created None None None None] →
    hostCalls w' = hostCalls w →
    tasks w' = JsMap.set (taskIdOf (S (taskCounter w)) stamp)
                 (length (heap w)) (tasks w) →
    taskCounter w' = S (taskCounter w) →
    allowedCommands w' = allowedCommands w →
    update gated w w'
| up_delete (k : string) :
    heap w' = heap w → hostCalls w' = hostCalls w →
    tasks w' = JsMap.delete k (tasks w) →
    taskCounter w' = taskCounter w → allowedCommands w' = allowedCommands w →
    update gated w w'
| up_clear :
    heap w' = heap w → hostCalls w' = hostCalls w →
    tasks w' = JsMap.empty →
    taskCounter w' = taskCounter w → allowedCommands w' = allowedCommands w →
    update gated w w'
| up_allowed :
    gated = false →
    heap w' = heap w → hostCalls w' = hostCalls w → tasks w' = tasks w →
    taskCounter w' = taskCounter w →
    update gated w w'.

(** Events that let tasks in through the gate only and do not reload the
    allow-list. *)
Definition keeps_gate (e : Event) : bool :=
  match e with
  | SubmitTask _ _ _ | UpdateAllowedCommands => false
  | _ => true
  end.

(** Every task object carries the id made from its own number, and the
    counter is the number of objects created. *)
Definition ids_issued (w : World) : Prop :=
  taskCounter w = length (heap w)
  ∧ ∀ a t, heap w !! a = Some t → ∃ stamp, Task.id t = taskIdOf (S a) stamp.

(** The store holds each task under its own id, and no id twice. *)
Definition store_keyed (w : World) : Prop :=
  NoDup (map fst (tasks w))
  ∧ ∀ k a, (k, a) ∈ tasks w → ∃ t, heap w !! a = Some t ∧ Task.id t = k.

(** Every command in a task or in a host call passes the gate [allowed]. *)
Definition all_gated (allowed : list string) (w : World) : Prop :=
  allowedCommands w = allowed
  ∧ (∀ a t, heap w !! a = Some t → isCommandAllowed allowed (Task.command t) = true)
  ∧ (∀ call, call ∈ hostCalls w → isCommandAllowed allowed (hc_command call) = true).

(** A host call issued for a task carries the command and the arguments of
    that task. *)
Definition calls_match (w : World) : Prop :=
  ∀ k call a, hostCalls w !! k = Some call → hc_owner call = Some a →
    ∃ t, heap w !! a = Some t
      ∧ hc_command call = Task.command t
      ∧ hc_args call = default [] (Task.args t).

(** The host has not answered the call made for the task object [a]. *)
Definition awaits_host (w : World) (a : nat) (k : nat) (call : HostCall) : Prop :=
  hostCalls w !! k = Some call
  ∧ hc_owner call = Some a
  ∧ hc_settled call = false.

(** Every running task waits for the answer of the host. *)
Definition running_awaited (w : World) : Prop :=
  ∀ a t, heap w !! a = Some t → Task.status t = running →
    ∃ k call, awaits_host w a k call.

(** Events other than the two that take a task out of [running]. *)
Definition leaves_running (e : Event) : bool :=
  match e with
  | Settle _ _ | CancelTask _ => false
  | _ => true
  end.

(** * Properties *)

(** ** Sorting *)

Lemma Js_insert_Permutation {A} (R : relation A) `{!RelDecision R}
    (x : A) (l : list A) :
  Js.insert R x l ≡ₚ x :: l.
Proof.
  induction l as [|y l IH]; [done |]. cbn.
  case_decide; [done |]. by rewrite IH, Permutation_swap.
Qed.

Lemma Js_sort_Permutation {A} (R : relation A) `{!RelDecision R} (l : list A) :
  Js.sort R l ≡ₚ l.
Proof.
  induction l as [|x l IH]; [done |]. cbn.
  by rewrite Js_insert_Permutation, IH.
Qed.

Lemma StronglySorted_Js_insert {A} (R : relation A)
    `{!RelDecision R, !Transitive R, !Total R} (x : A) (l : list A) :
  StronglySorted R l → StronglySorted R (Js.insert R x l).
Proof.
  induction 1 as [|y l Hl IH Hy]; cbn.
  - repeat constructor.
  - case_decide as Hxy.
    + constructor; [by constructor |]. constructor; [done |].
      eapply Forall_impl; [exact Hy |]. intros z Hz. by transitivity y.
    + constructor; [done |].
      assert (R y x) as Hyx by (by destruct (total R x y)).
      rewrite Js_insert_Permutation. by constructor.
Qed.

Lemma StronglySorted_Js_sort {A} (R : relation A)
    `{!RelDecision R, !Transitive R, !Total R} (l : list A) :
  StronglySorted R (Js.sort R l).
Proof.
  induction l as [|x l IH]; cbn; [constructor |].
  by apply StronglySorted_Js_insert.
Qed.


(** ** The string primitives *)

Lemma startsWith_spec (s p : string) :
  Js.startsWith s p = true ↔ ∃ rest, s = p +:+ rest.
Proof.
  unfold Js.startsWith. revert s.
  induction p as [|c p IH]; intros s; simpl.
  - split; [intros _; by exists s | by destruct s].
  - destruct s as [|d s]; simpl.
    + split; [done | intros [r Hr]; discriminate].
    + destruct (Ascii.ascii_dec c d) as [->|Hne].
      * rewrite IH. split; intros [r Hr]; exists r.
        -- unfold String.app; simpl. by rewrite Hr.
        -- unfold String.app in Hr; simpl in Hr. by injection Hr.
      * split; [done | intros [r Hr]].
        unfold String.app in Hr; simpl in Hr. congruence.
Qed.

Lemma substring_all (s : string) :
  String.substring 0 (String.length s) s = s.
Proof. induction s; simpl; [done | by f_equal]. Qed.

Lemma length_snoc (p : string) (c : Ascii.ascii) :
  String.length (p +:+ String c "") = S (String.length p).
Proof. induction p; simpl; [done | by f_equal]. Qed.

Lemma substring_last (p : string) (c : Ascii.ascii) :
  String.substring (String.length p) 1 (p +:+ String c "") = String c "".
Proof. induction p; simpl; done. Qed.

Lemma substring_init (p : string) (c : Ascii.ascii) :
  String.substring 0 (String.length p) (p +:+ String c "") = p.
Proof. induction p; simpl; [done | by f_equal]. Qed.

(** A string whose last code unit is cut off and put back. *)
Lemma string_unsnoc_cons (c : Ascii.ascii) (s : string) :
  String.substring 0 (String.length s) (String c s)
    +:+ String.substring (String.length s) 1 (String c s) = String c s.
Proof.
  revert c. induction s as [|d s IH]; intros c; [done |].
  specialize (IH d). unfold String.app in *. simpl in *. by rewrite IH.
Qed.

Lemma string_unsnoc (s : string) :
  s ≠ "" →
  s = String.substring 0 (String.length s - 1) s
      +:+ String.substring (String.length s - 1) 1 s.
Proof.
  destruct s as [|c s]; [done | intros _].
  simpl String.length. rewrite Nat.sub_1_r. simpl Nat.pred.
  symmetry. apply string_unsnoc_cons.
Qed.

Lemma endsWith_star_spec (s : string) :
  Js.endsWith s "*" = true ↔ ends_in_star s.
Proof.
  unfold Js.endsWith, ends_in_star. simpl String.length. split.
  - intros [Hle Heq]%andb_prop.
    apply Nat.leb_le in Hle. apply String.eqb_eq in Heq.
    exists (String.substring 0 (String.length s - 1) s).
    assert (s ≠ "") as Hu%string_unsnoc by (intros ->; simpl in Hle; lia).
    by rewrite Heq in Hu.
  - intros [p ->]. rewrite length_snoc. apply andb_true_intro. split.
    + apply Nat.leb_le. lia.
    + apply String.eqb_eq.
      replace (S (String.length p) - 1)%nat with (String.length p) by lia.
      apply substring_last.
Qed.

Lemma slice_0_m1_snoc (p : string) (c : Ascii.ascii) :
  Js.slice_0_m1 (p +:+ String c "") = p.
Proof.
  unfold Js.slice_0_m1. rewrite length_snoc.
  replace (S (String.length p) - 1)%nat with (String.length p) by lia.
  apply substring_init.
Qed.

Lemma snoc_inj (p q : string) (c : Ascii.ascii) :
  p +:+ String c "" = q +:+ String c "" → p = q.
Proof.
  intros H. rewrite <- (slice_0_m1_snoc p c), <- (slice_0_m1_snoc q c).
  by rewrite H.
Qed.

Lemma matchesEntry_spec (command allowed : string) :
matchesEntry command allowed = true ↔ permitted_by allowed command.
Proof.
unfold matchesEntry, permitted_by.
destruct (Js.endsWith allowed "*") eqn:He.
- apply endsWith_star_spec in He as Hs. destruct Hs as [p ->].
  rewrite slice_0_m1_snoc, startsWith_spec. split.
  + intros [rest ->]. right. by exists p, rest.
  + intros [[Hno _] | (q & rest & Hq & ->)].
    * exfalso. apply Hno. by exists p.
    * apply snoc_inj in Hq as ->. by exists rest.
- assert (¬ ends_in_star allowed) as Hno.
  { intros Hs%endsWith_star_spec. congruence. }
  rewrite String.eqb_eq. split.
  + intros ->. by left.
  + intros [[_ ->] | (q & rest & Hq & _)]; [done |].
    exfalso. apply Hno. by exists q.
Qed.

(** C1. With an empty allow-list every command is allowed; with a non-empty
  one a command is allowed exactly when it equals an entry that does not
  end in the wildcard marker, or starts with a wildcard entry stripped of
  its marker. *)
Theorem isCommandAllowed_correct (allowedCommands : list string) (command : string) :
(allowedCommands = [] → isCommandAllowed allowedCommands command = true)
∧ (allowedCommands ≠ [] →
   (isCommandAllowed allowedCommands command = true
    ↔ ∃ entry, entry ∈ allowedCommands ∧ permitted_by entry command)).
Proof.
split.
- by intros ->.
- intros Hne. unfold isCommandAllowed, Js.some.
  destruct allowedCommands as [|a l]; [done |].
  simpl length. simpl Nat.eqb. cbv iota.
  rewrite existsb_exists. split.
  + intros (entry & Hin & Hm). exists entry. split.
    * by apply list_elem_of_In.
    * by apply matchesEntry_spec.
  + intros (entry & Hin & Hm). exists entry. split.
    * by apply list_elem_of_In.
    * by apply matchesEntry_spec.
Qed.

(** ** The monad *)

Ltac unfold_m :=
  unfold exec, eval, mbind, M_bind, mret, M_ret, gets, modify in *.

Lemma exec_bind {A B} (m : M A) (f : A → M B) (w : World) :
  exec (m ≫= f) w = exec (f (eval m w)) (exec m w).
Proof. reflexivity. Qed.

Lemma exec_forEach_cons {A} (body : A → M unit) (x : A) (xs : list A) (w : World) :
  exec (forEach body (x :: xs)) w = exec (forEach body xs) (exec (body x) w).
Proof. reflexivity. Qed.

Lemma exec_forEach_app {A} (body : A → M unit) (xs ys : list A) (w : World) :
  exec (forEach body (xs ++ ys)) w
  = exec (forEach body ys) (exec (forEach body xs) w).
Proof.
  revert w. induction xs as [|x xs IH]; intros w; [done |].
  rewrite <- app_comm_cons, !exec_forEach_cons. apply IH.
Qed.

Lemma exec_run_cons (e : Event) (events : list Event) (w : World) :
  exec (run (e :: events)) w = exec (run events) (exec (step e) w).
Proof. reflexivity. Qed.

Lemma exec_run_app (events events' : list Event) (w : World) :
  exec (run (events ++ events')) w = exec (run events') (exec (run events) w).
Proof. apply exec_forEach_app. Qed.

(** ** The scheduler tick moves every task along its life cycle *)

Lemma taken_widen (w0 w1 w2 w3 : World) (reading : Z) :
  clock w1 = clock w0 →
  (clockReads w0 ≤ clockReads w1)%nat →
  (clockReads w2 ≤ clockReads w3)%nat →
  taken w1 w2 reading → taken w0 w3 reading.
Proof.
  intros Hc H01 H23 (k & Hk & <-). exists k. split; [lia | by rewrite Hc].
Qed.

Lemma started_widen (w0 w1 w2 w3 : World) (t t' : BackgroundTask) :
  clock w1 = clock w0 →
  (clockReads w0 ≤ clockReads w1)%nat →
  (clockReads w2 ≤ clockReads w3)%nat →
  started (taken w1 w2) t t' → started (taken w0 w3) t t'.
Proof.
  intros Hc H01 H23 (Hp & check & now & Ht & Hd & ->).
  split; [done |]. exists check, now. eauto using taken_widen.
Qed.

Lemma started_running (readings : Z → Prop) (t t' : BackgroundTask) :
  started readings t t' → Task.status t' = running.
Proof. by intros (_ & check & now & _ & _ & ->). Qed.

Lemma ticks_refl (w : World) : ticks w w.
Proof.
  split; try done.
  - intros a t Ha. exists t. auto.
  - exists []. rewrite app_nil_r. split_and!; [done | constructor |].
    intros a Ha. by apply elem_of_nil in Ha.
Qed.

Lemma ticks_trans (w0 w1 w2 : World) : ticks w0 w1 → ticks w1 w2 → ticks w0 w2.
Proof.
  intros [Hc1 Hr1 Ht1 Hl1 Hh1 (new1 & Ho1 & Hn1 & Hs1)]
         [Hc2 Hr2 Ht2 Hl2 Hh2 (new2 & Ho2 & Hn2 & Hs2)].
  split.
  - congruence.
  - lia.
  - congruence.
  - congruence.
  - intros a t Ha.
    destruct (Hh1 a t Ha) as (t1 & Ha1 & H1).
    destruct (Hh2 a t1 Ha1) as (t2 & Ha2 & H2).
    exists t2. split; [done |].
    destruct H1 as [-> | H1], H2 as [-> | H2]; auto.
    + right. eapply started_widen; [..|exact H2]; done.
    + right. eapply started_widen; [..|exact H1]; done.
    + apply started_running in H1. destruct H2 as [H2 _]. congruence.
  - exists (new1 ++ new2). split_and!.
    + by rewrite Ho2, Ho1, app_assoc.
    + apply NoDup_app. split_and!; [done | | done].
      intros a Ha1 Ha2.
      destruct (Hs1 a Ha1) as [_ (t1 & Hl & Hrun)].
      destruct (Hs2 a Ha2) as [(t1' & Hl' & Hpen) _].
      congruence.
    + intros a [Ha | Ha]%elem_of_app.
      * destruct (Hs1 a Ha) as [Hp (t1 & Hl & Hrun)]. split; [done |].
        destruct (Hh2 a t1 Hl) as (t2 & Ha2 & [-> | [H2 _]]); [eauto | congruence].
      * destruct (Hs2 a Ha) as [(t1 & Hl & Hpen) Hrun]. split; [| done].
        assert (is_Some (heap w0 !! a)) as [t Ht].
        { apply lookup_lt_is_Some. rewrite <- Hl1.
          apply lookup_lt_is_Some. eauto. }
        exists t. split; [done |].
        destruct (Hh1 a t Ht) as (t1' & Hl1' & [-> | H1]); [congruence |].
        apply started_running in H1. congruence.
Qed.

Lemma owners_snoc (calls : list HostCall) (c : HostCall) :
  omap hc_owner (calls ++ [c]) = omap hc_owner calls ++ option_list (hc_owner c).
Proof. rewrite omap_app. simpl. by destruct (hc_owner c). Qed.

Lemma processTask_ticks (a : Ref) (w : World) : ticks w (exec (processTask a) w).
Proof.
  unfold processTask, executeTask. unfold_m. cbn.
  destruct (heap w !! a) as [t|] eqn:Ha; cbn; [| apply ticks_refl].
  destruct (Task.has_status pending t) eqn:Hp; cbn; [| apply ticks_refl].
  apply bool_decide_eq_true in Hp as Hpen.
  destruct (Z.geb _ _) eqn:Hdue; cbn.
  - rewrite Ha. cbn. rewrite Hp. cbn.
    split; cbn; try done.
    + lia.
    + by rewrite !length_alter.
    + intros b tb Hb. destruct (decide (b = a)) as [-> | Hne].
      * rewrite !list_lookup_alter_eq, Ha. cbn. eexists. split; [reflexivity |].
        right. split; [congruence |].
        assert (tb = t) as -> by congruence.
        exists (clock w (clockReads w)), (clock w (S (clockReads w))).
        split_and!; [| lia | done].
        exists (clockReads w). cbn. split; [lia | done].
      * rewrite !list_lookup_alter_ne by done. eauto.
    + exists [a]. unfold owners. cbn. rewrite owners_snoc. cbn.
      split_and!; [done | apply NoDup_singleton |].
      intros b ->%list_elem_of_singleton. split; [eauto |].
      rewrite !list_lookup_alter_eq, Ha. cbn. eauto.
  - split; cbn; try done; [lia | eauto |].
    exists []. rewrite app_nil_r. split_and!; [done | constructor |].
    intros b Hb. by apply elem_of_nil in Hb.
Qed.

Lemma forEach_processTask_ticks (l : list Ref) (w : World) :
  ticks w (exec (forEach processTask l) w).
Proof.
  revert w. induction l as [|a l IH]; intros w; [apply ticks_refl |].
  rewrite exec_forEach_cons.
  eapply ticks_trans; [apply processTask_ticks | apply IH].
Qed.

Lemma processPendingTasks_ticks (w : World) :
  ticks w (exec processPendingTasks w).
Proof.
  unfold processPendingTasks. rewrite exec_bind.
  change (eval (gets isRunning) w) with (isRunning w).
  change (exec (gets isRunning) w) with w.
  destruct (isRunning w); cbn [negb]; [| apply ticks_refl].
  rewrite exec_bind. apply forEach_processTask_ticks.
Qed.

Lemma ticks_moves (w w' : World) : ticks w w' → moves w w'.
Proof.
  intros [Hc Hr Ht Hl Hh Ho]. split; try done.
  intros a t Ha. destruct (Hh a t Ha) as (t' & Ha' & [-> | H]); eauto.
Qed.

(** ** Every event moves every task along its life cycle *)

Ltac case_if :=
  match goal with
  | |- context [if ?b then _ else _] => destruct b eqn:?
  end.

Lemma moves_frame (w w' : World) :
  clock w' = clock w →
  (clockReads w ≤ clockReads w')%nat →
  (∀ a t, heap w !! a = Some t → heap w' !! a = Some t) →
  owners w' = owners w →
  moves w w'.
Proof.
  intros Hc Hr Hh Ho. split; [done | done | |].
  - intros a t Ha. exists t. auto.
  - exists []. rewrite app_nil_r. split_and!; [done | constructor |].
    intros a Ha. by apply elem_of_nil in Ha.
Qed.

Lemma untouched_moves (w w' : World) : untouched w w' → moves w w'.
Proof.
  intros (Hc & Hr & Hh & Ho). apply moves_frame; [done | lia | |].
  - intros a t. by rewrite Hh.
  - unfold owners. by rewrite Ho.
Qed.

Lemma untouched_refl (w : World) : untouched w w.
Proof. by repeat split. Qed.

Lemma untouched_trans (w0 w1 w2 : World) :
  untouched w0 w1 → untouched w1 w2 → untouched w0 w2.
Proof.
  intros (? & ? & ? & ?) (? & ? & ? & ?). repeat split; congruence.
Qed.

Lemma forEach_untouched {A} (body : A → M unit) (xs : list A) (w : World) :
  (∀ x w, untouched w (exec (body x) w)) →
  untouched w (exec (forEach body xs) w).
Proof.
  intros Hbody. revert w.
  induction xs as [|x xs IH]; intros w; [apply untouched_refl |].
  rewrite exec_forEach_cons. eapply untouched_trans; [apply Hbody | apply IH].
Qed.

Lemma clearCompletedTasks_untouched (w : World) :
  untouched w (exec clearCompletedTasks w).
Proof.
  unfold clearCompletedTasks. rewrite !exec_bind.
  change (exec getAllTasks w) with w.
  change (exec (mret _) ?w') with w'.
  apply forEach_untouched. intros task w'. by repeat split.
Qed.

Lemma clearAllTasks_untouched (w : World) : untouched w (exec clearAllTasks w).
Proof. by repeat split. Qed.

Lemma getTaskStats_exec (w : World) : exec getTaskStats w = w.
Proof. reflexivity. Qed.

Lemma updateAsyncConfig_untouched (w : World) :
  untouched w (exec updateAsyncConfig w).
Proof.
  unfold updateAsyncConfig. unfold_m. cbn.
  repeat (case_if; cbn); by repeat split.
Qed.

Lemma stop_untouched (w : World) : untouched w (exec stop w).
Proof.
  unfold stop. unfold_m. cbn.
  destruct (processingInterval w); by repeat split.
Qed.

Lemma dispose_untouched (w : World) : untouched w (exec dispose w).
Proof.
  unfold dispose. rewrite !exec_bind.
  change (exec (mret _) ?w') with w'.
  eapply untouched_trans; [apply stop_untouched | apply clearAllTasks_untouched].
Qed.

Lemma submitTask_moves (command : string) (args : option (list JsValue))
    (delay : Z) (w : World) :
  moves w (exec (submitTask command args delay) w).
Proof.
  unfold submitTask, allocate, Date_now. unfold_m.
  apply moves_frame; cbn; [done | lia | | done].
  intros a t Ha. by apply lookup_app_l_Some.
Qed.

Lemma executeCommand_moves (command : string) (args : option (list JsValue))
    (w : World) :
  moves w (exec (executeCommand command args) w).
Proof.
  unfold executeCommand. rewrite exec_bind.
  change (eval (gets allowedCommands) w) with (allowedCommands w).
  change (exec (gets allowedCommands) w) with w.
  destruct (isCommandAllowed (allowedCommands w) command); cbn [negb].
  - rewrite exec_bind.
    change (eval (gets asyncExecution) w) with (asyncExecution w).
    change (exec (gets asyncExecution) w) with w.
    destruct (asyncExecution w).
    + apply (submitTask_moves command args (executionDelay w) w).
    + unfold vscode_commands_executeCommand. unfold_m.
      apply moves_frame; cbn; [done | lia | done |].
      unfold owners. cbn. rewrite owners_snoc. cbn. apply app_nil_r.
  - apply untouched_moves, untouched_refl.
Qed.

Lemma owners_mark_settled (k : nat) (calls : list HostCall) :
  omap hc_owner (alter mark_settled k calls) = omap hc_owner calls.
Proof.
  revert k. induction calls as [|c calls IH]; intros k; [done |].
  destruct k as [|k]; cbn.
  - done.
  - fold (alter mark_settled k calls). by rewrite IH.
Qed.

Lemma owner_in_log (k : nat) (call : HostCall) (a : Ref) (w : World) :
  hostCalls w !! k = Some call → hc_owner call = Some a → a ∈ owners w.
Proof.
  intros Hk Ho. apply list_elem_of_omap. exists call. split; [| done].
  by eapply list_elem_of_lookup_2.
Qed.

(** Two assignments through one reference. *)
Lemma lookup_alter2 (f g : BackgroundTask → BackgroundTask)
    (a b : Ref) (l : list BackgroundTask) (t : BackgroundTask) :
  l !! b = Some t →
  alter g a (alter f a l) !! b = Some (if decide (a = b) then g (f t) else t).
Proof.
  intros Hb. case_decide as Hab.
  - subst b. by rewrite !list_lookup_alter_eq, Hb.
  - by rewrite !list_lookup_alter_ne.
Qed.

Lemma executeTask_fulfilled_effect (a : Ref) (value : JsValue) (w : World) :
  let w' := exec (executeTask_fulfilled a value) w in
  clock w' = clock w
  ∧ clockReads w' = S (clockReads w)
  ∧ hostCalls w' = hostCalls w
  ∧ heap w' =
      alter (Task.with_result value) a
        (alter (Task.with_completedAt (clock w (clockReads w))) a
           (alter (Task.with_status completed) a (heap w))).
Proof.
  unfold executeTask_fulfilled, assign, Date_now, showMessage, deref.
  unfold_m. cbn. by case_if.
Qed.

Lemma executeTask_rejected_effect (a : Ref) (reason : Rejection) (w : World) :
  let w' := exec (executeTask_rejected a reason) w in
  clock w' = clock w
  ∧ clockReads w' = S (clockReads w)
  ∧ hostCalls w' = hostCalls w
  ∧ heap w' =
      alter (Task.with_error (errorMessage reason)) a
        (alter (Task.with_completedAt (clock w (clockReads w))) a
           (alter (Task.with_status failed) a (heap w))).
Proof. done. Qed.

Lemma settled_moves (w w' : World) (a : Ref) (f : BackgroundTask → BackgroundTask) :
  a ∈ owners w →
  (∀ t, settled_by_host t (f t)) →
  clock w' = clock w →
  (clockReads w ≤ clockReads w')%nat →
  owners w' = owners w →
  heap w' = alter f a (heap w) →
  moves w w'.
Proof.
  intros Hin Hf Hc Hr Ho Hh. split; [done | done | |].
  - intros b t Hb. rewrite Hh.
    destruct (decide (a = b)) as [<- | Hne].
    + rewrite list_lookup_alter_eq, Hb. cbn.
      eexists. split; [reflexivity |]. auto.
    + rewrite list_lookup_alter_ne by done. eauto.
  - exists []. rewrite app_nil_r.
    split_and!; [done | constructor | by intros ? ?%elem_of_nil].
Qed.

Lemma settle_moves (promise : nat) (outcome : Settlement) (w : World) :
  moves w (exec (settle promise outcome) w).
Proof.
  unfold settle. rewrite exec_bind.
  change (eval (gets hostCalls) w) with (hostCalls w).
  change (exec (gets hostCalls) w) with w.
  destruct (hostCalls w !! promise) as [call|] eqn:Hk;
    [| apply untouched_moves, untouched_refl].
  destruct (hc_settled call); [apply untouched_moves, untouched_refl |].
  rewrite exec_bind.
  set (w1 := exec (modify _) w).
  assert (owners w1 = owners w) as Ho1 by apply owners_mark_settled.
  destruct (hc_owner call) as [a|] eqn:Ho;
    [| apply moves_frame; [done | cbn; lia | done | done]].
  assert (a ∈ owners w) as Hin by eauto using owner_in_log.
  destruct outcome as [value | reason].
  - destruct (executeTask_fulfilled_effect a value w1) as (Hc & Hr & Hcalls & Hh).
    apply (settled_moves _ _ a
             (λ t, Task.with_result value
                     (Task.with_completedAt (clock w (clockReads w))
                        (Task.with_status completed t)))).
    + done.
    + intros t. eexists. left. by eexists.
    + by rewrite Hc.
    + rewrite Hr. cbn. lia.
    + unfold owners at 1. by rewrite Hcalls.
    + rewrite Hh. cbn. by rewrite !list_alter_alter_eq.
  - destruct (executeTask_rejected_effect a reason w1) as (Hc & Hr & Hcalls & Hh).
    apply (settled_moves _ _ a
             (λ t, Task.with_error (errorMessage reason)
                     (Task.with_completedAt (clock w (clockReads w))
                        (Task.with_status failed t)))).
    + done.
    + intros t. eexists. right. by eexists.
    + by rewrite Hc.
    + rewrite Hr. cbn. lia.
    + unfold owners at 1. by rewrite Hcalls.
    + rewrite Hh. cbn. by rewrite !list_alter_alter_eq.
Qed.

Lemma cancelTask_moves (taskId : string) (w : World) :
  moves w (exec (cancelTask taskId) w).
Proof.
  unfold cancelTask. unfold_m. cbn.
  destruct (JsMap.get taskId (tasks w)) as [a|]; cbn;
    [| apply untouched_moves, untouched_refl].
  destruct (heap w !! a) as [task|] eqn:Ha; cbn;
    [| apply untouched_moves, untouched_refl].
  destruct (Task.has_status pending task || Task.has_status running task) eqn:Hs;
    cbn; [| apply untouched_moves, untouched_refl].
  split; cbn; [done | lia | |].
  - intros b t Hb. eexists. split; [by apply lookup_alter2 |].
    case_decide; [subst b | by left].
    assert (t = task) as -> by congruence.
    right; right; left. split.
    + apply orb_prop in Hs as [H | H]; apply bool_decide_eq_true in H; auto.
    + eexists. reflexivity.
  - exists []. rewrite app_nil_r.
    split_and!; [done | constructor | by intros ? ?%elem_of_nil].
Qed.

Theorem step_moves (e : Event) (w : World) : moves w (exec (step e) w).
Proof.
  destruct e; cbn [step].
  - apply (executeCommand_moves command args w).
  - apply (submitTask_moves command args delay w).
  - apply ticks_moves, processPendingTasks_ticks.
  - apply settle_moves.
  - apply (cancelTask_moves taskId w).
  - apply untouched_moves, clearCompletedTasks_untouched.
  - apply untouched_moves, clearAllTasks_untouched.
  - apply untouched_moves. by repeat split.
  - apply untouched_moves. by repeat split.
  - apply untouched_moves, updateAsyncConfig_untouched.
  - apply untouched_moves, stop_untouched.
  - apply untouched_moves, dispose_untouched.
Qed.

(** ** The invariant of the log of host calls *)

Lemma moves_status (w w' : World) (a : Ref) (t : BackgroundTask) :
  moves w w' → heap w !! a = Some t → Task.status t ≠ pending →
  ∃ t', heap w' !! a = Some t' ∧ Task.status t' ≠ pending.
Proof.
  intros Hm Ha Hs. destruct (mv_heap _ _ Hm a t Ha) as (t' & Ha' & Hcase).
  exists t'. split; [done |].
  destruct Hcase as [-> | [Hst | [Hca | [_ Hse]]]]; [done | ..].
  - apply started_running in Hst. congruence.
  - destruct Hca as (_ & now & ->). done.
  - destruct Hse as (now & [(value & ->) | (message & ->)]); done.
Qed.

Lemma wf_moves (w w' : World) : wf w → moves w w' → wf w'.
Proof.
  intros [Hnd Hown] Hm.
  destruct (mv_owners _ _ Hm) as (new & Ho & Hnew & Hstart).
  split.
  - rewrite Ho. apply NoDup_app. split_and!; [done | | done].
    intros a Ha Ha'.
    destruct (Hown a Ha) as (t & Ht & Hs).
    destruct (Hstart a Ha') as [(t0 & Ht0 & Hp) _]. congruence.
  - intros a. rewrite Ho. intros [Ha | Ha]%elem_of_app.
    + destruct (Hown a Ha) as (t & Ht & Hs). eauto using moves_status.
    + destruct (Hstart a Ha) as [_ (t' & Ht' & Hrun)].
      exists t'. split; [done | congruence].
Qed.

Lemma wf_run (events : list Event) (w : World) :
  wf w → wf (exec (run events) w).
Proof.
  revert w. induction events as [|e events IH]; intros w Hw; [done |].
  rewrite exec_run_cons. apply IH. eauto using wf_moves, step_moves.
Qed.

Lemma initial_untouched (clock : nat → Z) (cfg : Config) :
  untouched (blank clock cfg) (initial clock cfg).
Proof.
  unfold initial, new_CommandExecutor. rewrite !exec_bind.
  set (w1 := exec updateAllowedCommands _).
  assert (untouched (blank clock cfg) w1) as H1 by (by repeat split).
  pose proof (updateAsyncConfig_untouched w1) as H2.
  eapply untouched_trans; [exact H1 |].
  eapply untouched_trans; [exact H2 |]. by repeat split.
Qed.

Lemma wf_initial (clock : nat → Z) (cfg : Config) : wf (initial clock cfg).
Proof.
  destruct (initial_untouched clock cfg) as (_ & _ & _ & Hcalls).
  unfold wf, owners. rewrite Hcalls. cbn. split; [constructor |].
  intros a Ha. by apply elem_of_nil in Ha.
Qed.

Lemma wf_reachable (w : World) : reachable w → wf w.
Proof. intros (clock & cfg & events & ->). apply wf_run, wf_initial. Qed.

Lemma reachable_run (events : list Event) (w : World) :
  reachable w → reachable (exec (run events) w).
Proof.
  intros (clock & cfg & events0 & ->). exists clock, cfg, (events0 ++ events).
  by rewrite exec_run_app.
Qed.

(** C3. [executeTask] hands a task to the command host only if the task is
    pending, and in the world in which the call begins the task is already
    running with [startedAt] assigned.  A tick hands over only tasks that
    were pending when it began, each of them once, and leaves them running.
    Therefore, whatever the events and however many ticks find a task
    eligible, no task object is handed to the command host twice. *)
Theorem task_handed_to_host_at_most_once :
  (∀ (a : nat) (w : World),
     hostCalls (exec (executeTask a) w) = hostCalls w
     ∨ ∃ t w1 t1 now,
         heap w !! a = Some t ∧ Task.status t = pending
         ∧ hostCalls w1 = hostCalls w
         ∧ heap w1 !! a = Some t1
         ∧ Task.status t1 = running ∧ Task.startedAt t1 = Some now
         ∧ exec (executeTask a) w
           = exec (vscode_commands_executeCommand
                     (Some a) (Task.command t) (default [] (Task.args t))) w1)
  ∧ (∀ w : World, ∃ new,
       owners (exec processPendingTasks w) = owners w ++ new
       ∧ NoDup new
       ∧ ∀ a, a ∈ new →
           (∃ t, heap w !! a = Some t ∧ Task.status t = pending)
           ∧ (∃ t', heap (exec processPendingTasks w) !! a = Some t'
                    ∧ Task.status t' = running))
  ∧ (∀ w : World, reachable w →
       NoDup (owners w)
       ∧ ∀ a, a ∈ owners w →
           ∃ t, heap w !! a = Some t ∧ Task.status t ≠ pending).
Proof.
  split_and!.
  - intros a w.
    destruct (heap w !! a) as [t|] eqn:Ha.
    2: { left. unfold executeTask. unfold_m. cbn. by rewrite Ha. }
    destruct (Task.has_status pending t) eqn:Hp.
    2: { left. unfold executeTask. unfold_m. cbn. rewrite Ha. cbn. by rewrite Hp. }
    right. apply bool_decide_eq_true in Hp as Hpen.
    exists t,
      (exec (assign a (Task.with_status running);;
             now ← Date_now; assign a (Task.with_startedAt now)) w),
      (Task.with_startedAt (clock w (clockReads w)) (Task.with_status running t)),
      (clock w (clockReads w)).
    split_and!; [done | done | done | | done | done |].
    + unfold assign, Date_now. unfold_m. cbn.
      by rewrite !list_lookup_alter_eq, Ha.
    + unfold executeTask. unfold_m. cbn. rewrite Ha. cbn. by rewrite Hp.
  - intros w. apply (tk_owners _ _ (processPendingTasks_ticks w)).
  - intros w Hw. by apply wf_reachable.
Qed.

Lemma task_handed_to_host_at_most_once_witness :
  NoDup (owners (exec (run [ExecuteCommand "a.run" None; Tick; Tick])
                      (initial (λ n, Z.of_nat n) (mkConfig None None None None)))).
Proof.
  destruct task_handed_to_host_at_most_once as (_ & _ & Hreachable).
  apply Hreachable. by eexists _, _, _.
Defined.

(** ** Cancelling a pending task *)

Lemma cancelTask_pending (w : World) (taskId : string) (a : Ref) (t : BackgroundTask) :
  JsMap.get taskId (tasks w) = Some a →
  heap w !! a = Some t →
  Task.status t = pending →
  eval (cancelTask taskId) w = true
  ∧ heap (exec (cancelTask taskId) w) !! a
    = Some (Task.with_completedAt (clock w (clockReads w))
              (Task.with_status cancelled t))
  ∧ owners (exec (cancelTask taskId) w) = owners w.
Proof.
  intros Hget Ha Hp.
  assert (Task.has_status pending t = true) as Hb by by apply bool_decide_eq_true.
  unfold cancelTask, assign, Date_now, deref. unfold_m. cbn.
  rewrite Hget. cbn. rewrite Ha. cbn. rewrite Hb. cbn.
  split_and!; [done | | done].
  by rewrite !list_lookup_alter_eq, Ha.
Qed.

(** A cancelled task that was never handed to the host is out of reach of
    every event. *)
Lemma cancelled_unowned_moves (w w' : World) (a : Ref) (t : BackgroundTask) :
  moves w w' →
  heap w !! a = Some t → Task.status t = cancelled → a ∉ owners w →
  heap w' !! a = Some t ∧ a ∉ owners w'.
Proof.
  intros Hm Ha Hs Hno.
  destruct (mv_heap _ _ Hm a t Ha) as (t' & Ha' & Hcase).
  destruct (mv_owners _ _ Hm) as (new & Ho & _ & Hstart).
  split.
  - destruct Hcase as [-> | [[Hp _] | [[[Hp | Hp] _] | [Hin _]]]];
      [done | congruence.. | done].
  - rewrite Ho. intros [Hin | Hin]%elem_of_app; [done |].
    destruct (Hstart a Hin) as [(t0 & Ht0 & Hp) _]. congruence.
Qed.

Lemma cancelled_unowned_run (events : list Event) (w : World) (a : Ref)
    (t : BackgroundTask) :
  heap w !! a = Some t → Task.status t = cancelled → a ∉ owners w →
  heap (exec (run events) w) !! a = Some t.
Proof.
  revert w. induction events as [|e events IH]; intros w Ha Hs Hno; [done |].
  rewrite exec_run_cons.
  destruct (cancelled_unowned_moves w (exec (step e) w) a t) as [Ha' Hno'];
    auto using step_moves.
Qed.

Lemma pending_unowned (w : World) (a : Ref) (t : BackgroundTask) :
  wf w → heap w !! a = Some t → Task.status t = pending → a ∉ owners w.
Proof.
  intros [_ Hown] Ha Hp Hin. destruct (Hown a Hin) as (t' & Ht' & Hs). congruence.
Qed.

(** C7. Cancelling a task that is pending returns [true] and sets its status
    to [cancelled]; after that no event at all (no tick, no settlement of a
    host call, nothing else) changes the task again, so it is never running,
    completed or failed. *)
Theorem cancelled_pending_task_is_never_run
    (w : World) (taskId : string) (a : Ref) (t : BackgroundTask) :
  reachable w →
  JsMap.get taskId (tasks w) = Some a →
  heap w !! a = Some t →
  Task.status t = pending →
  let w1 := exec (cancelTask taskId) w in
  eval (cancelTask taskId) w = true
  ∧ ∃ t1, heap w1 !! a = Some t1
      ∧ Task.status t1 = cancelled
      ∧ ∀ events : list Event,
          heap (exec (run events) w1) !! a = Some t1
          ∧ (Task.status <$> heap (exec (run events) w1) !! a) = Some cancelled.
Proof.
  intros Hw%wf_reachable Hget Ha Hp w1.
  destruct (cancelTask_pending w taskId a t Hget Ha Hp) as (Hret & Ha1 & Ho1).
  split; [done |]. eexists. split; [exact Ha1 |]. split; [done |].
  intros events.
  assert (heap (exec (run events) w1) !! a =
          Some (Task.with_completedAt (clock w (clockReads w))
                  (Task.with_status cancelled t))) as ->.
  { apply cancelled_unowned_run; [done | done |].
    fold w1 in Ho1. rewrite Ho1. eauto using pending_unowned. }
  done.
Qed.

(** ** The delay of a task *)

(** A tick whose readings of the clock are all early leaves a pending task
    as it is. *)
Lemma early_tick (w : World) (a : Ref) (t : BackgroundTask) :
  heap w !! a = Some t →
  (∀ k, (clockReads w ≤ k < clockReads (exec processPendingTasks w))%nat →
        clock w k - Task.createdAt t < Task.delay t) →
  heap (exec processPendingTasks w) !! a = Some t.
Proof.
  intros Ha Hearly.
  destruct (tk_heap _ _ (processPendingTasks_ticks w) a t Ha)
    as (t' & Ha' & [-> | Hst]); [done |].
  destruct Hst as (_ & check & now & (k & Hk & <-) & Hdue & _).
  specialize (Hearly k Hk). lia.
Qed.

Lemma early_ticks (n : nat) (w : World) (a : Ref) (t : BackgroundTask) :
  heap w !! a = Some t →
  (∀ k, (clockReads w ≤ k)%nat → clock w k - Task.createdAt t < Task.delay t) →
  heap (exec (run (replicate n Tick)) w) !! a = Some t.
Proof.
  revert w. induction n as [|n IH]; intros w Ha Hearly; [done |].
  cbn [replicate]. rewrite exec_run_cons. cbn [step].
  pose proof (processPendingTasks_ticks w) as Htick.
  apply IH.
  - apply early_tick; [done |]. intros k Hk. apply Hearly. lia.
  - intros k Hk. rewrite (tk_clock _ _ Htick). apply Hearly.
    pose proof (tk_reads _ _ Htick). lia.
Qed.

(** While the readings are early no event starts the task: it can only be
    cancelled. *)
Lemma early_moves (w w' : World) (a : Ref) (t : BackgroundTask) :
  moves w w' →
  heap w !! a = Some t →
  Task.status t = pending ∨ Task.status t = cancelled →
  a ∉ owners w →
  (∀ k, (clockReads w ≤ k)%nat → clock w k - Task.createdAt t < Task.delay t) →
  ∃ t', heap w' !! a = Some t'
    ∧ (Task.status t' = pending ∨ Task.status t' = cancelled)
    ∧ Task.startedAt t' = Task.startedAt t
    ∧ Task.createdAt t' = Task.createdAt t
    ∧ Task.delay t' = Task.delay t
    ∧ a ∉ owners w'.
Proof.
  intros Hm Ha Hs Hno Hearly.
  destruct (mv_heap _ _ Hm a t Ha) as (t' & Ha' & Hcase).
  destruct (mv_owners _ _ Hm) as (new & Ho & _ & Hstart).
  assert (Task.status t' ≠ running → a ∉ owners w') as Hno'.
  { intros Hnr. rewrite Ho. intros [Hin | Hin]%elem_of_app; [done |].
    destruct (Hstart a Hin) as [_ (t'' & Ht'' & Hrun)]. congruence. }
  exists t'. split; [done |].
  destruct Hcase as [-> | [Hst | [Hca | [Hin _]]]]; [| | | done].
  - split_and!; try done. apply Hno'. destruct Hs; congruence.
  - destruct Hst as (_ & check & now & (k & Hk & <-) & Hdue & _).
    specialize (Hearly k ltac:(lia)). lia.
  - destruct Hca as (_ & now & ->). split_and!; try done; [by right |].
    by apply Hno'.
Qed.

Lemma early_run (events : list Event) (w : World) (a : Ref) (t : BackgroundTask) :
  heap w !! a = Some t →
  Task.status t = pending ∨ Task.status t = cancelled →
  a ∉ owners w →
  (∀ k, (clockReads w ≤ k)%nat → clock w k - Task.createdAt t < Task.delay t) →
  ∃ t', heap (exec (run events) w) !! a = Some t'
    ∧ (Task.status t' = pending ∨ Task.status t' = cancelled)
    ∧ Task.startedAt t' = Task.startedAt t.
Proof.
  revert w t. induction events as [|e events IH]; intros w t Ha Hs Hno Hearly.
  - exists t. auto.
  - rewrite exec_run_cons.
    pose proof (step_moves e w) as Hm.
    destruct (early_moves _ _ a t Hm Ha Hs Hno Hearly)
      as (t1 & Ha1 & Hs1 & Hst1 & Hc1 & Hd1 & Hno1).
    destruct (IH (exec (step e) w) t1 Ha1 Hs1 Hno1) as (t2 & Ha2 & Hs2 & Hst2).
    + intros k Hk. rewrite (mv_clock _ _ Hm), Hc1, Hd1. apply Hearly.
      pose proof (mv_reads _ _ Hm). lia.
    + exists t2. split_and!; [done | done | congruence].
Qed.

(** A task that is running is left alone by the rest of a tick. *)
Lemma running_through_loop (l : list Ref) (w : World) (a : Ref) (t : BackgroundTask) :
  heap w !! a = Some t → Task.status t = running →
  heap (exec (forEach processTask l) w) !! a = Some t.
Proof.
  intros Ha Hrun.
  destruct (tk_heap _ _ (forEach_processTask_ticks l w) a t Ha)
    as (t' & Ha' & [-> | [Hp _]]); [done | congruence].
Qed.

Lemma processTask_due (w : World) (a : Ref) (t : BackgroundTask) :
  heap w !! a = Some t → Task.status t = pending →
  Task.delay t ≤ clock w (clockReads w) - Task.createdAt t →
  ∃ t', heap (exec (processTask a) w) !! a = Some t' ∧ Task.status t' = running.
Proof.
  intros Ha Hp Hdue.
  assert (Task.has_status pending t = true) as Hb by by apply bool_decide_eq_true.
  unfold processTask, executeTask, assign, Date_now, deref,
    vscode_commands_executeCommand.
  unfold_m. cbn. rewrite Ha. cbn. rewrite Hb. cbn.
  replace (_ >=? _) with true by (symmetry; apply Z.geb_le; lia).
  cbn. rewrite Ha. cbn. rewrite Hb. cbn.
  rewrite !list_lookup_alter_eq, Ha. cbn. eauto.
Qed.

Lemma due_in_loop (l : list Ref) (w : World) (a : Ref) (t : BackgroundTask) :
  a ∈ l →
  heap w !! a = Some t → Task.status t = pending →
  (∀ k, (clockReads w ≤ k)%nat → Task.delay t ≤ clock w k - Task.createdAt t) →
  ∃ t', heap (exec (forEach processTask l) w) !! a = Some t'
    ∧ Task.status t' = running.
Proof.
  revert w. induction l as [|b l IH]; intros w Hin Ha Hp Hdue.
  { by apply elem_of_nil in Hin. }
  rewrite exec_forEach_cons.
  pose proof (processTask_ticks b w) as Htick.
  destruct (tk_heap _ _ Htick a t Ha) as (t1 & Ha1 & [-> | Hst]).
  - apply elem_of_cons in Hin as [-> | Hin].
    + destruct (processTask_due w b t Ha Hp) as (t' & Ha' & Hrun).
      { apply Hdue. lia. }
      exists t'. split; [| done]. by apply running_through_loop.
    + apply IH; [done | done | done |].
      intros k Hk. rewrite (tk_clock _ _ Htick). apply Hdue.
      pose proof (tk_reads _ _ Htick). lia.
  - exists t1. split; [| by eapply started_running].
    apply running_through_loop; [done | by eapply started_running].
Qed.

Lemma pending_in_pendingTasks (w : World) (a : Ref) (t : BackgroundTask) :
  a ∈ JsMap.values (tasks w) →
  heap w !! a = Some t → Task.status t = pending →
  a ∈ pendingTasksOf w.
Proof.
  intros Hin Ha Hp. unfold pendingTasksOf.
  rewrite Js_sort_Permutation.
  apply list_elem_of_In, filter_In. split; [by apply list_elem_of_In |].
  unfold ref_has_status. rewrite Ha. cbn. by apply bool_decide_eq_true.
Qed.

Lemma due_tick (w : World) (a : Ref) (t : BackgroundTask) :
  isRunning w = true →
  a ∈ JsMap.values (tasks w) →
  heap w !! a = Some t → Task.status t = pending →
  (∀ k, (clockReads w ≤ k)%nat → Task.delay t ≤ clock w k - Task.createdAt t) →
  ∃ t', heap (exec processPendingTasks w) !! a = Some t'
    ∧ Task.status t' = running.
Proof.
  intros Hrun Hin Ha Hp Hdue.
  unfold processPendingTasks. rewrite exec_bind.
  change (eval (gets isRunning) w) with (isRunning w).
  change (exec (gets isRunning) w) with w.
  rewrite Hrun. cbn [negb]. rewrite exec_bind.
  change (eval (gets pendingTasksOf) w) with (pendingTasksOf w).
  change (exec (gets pendingTasksOf) w) with w.
  eauto using due_in_loop, pending_in_pendingTasks.
Qed.

(** C4. A pending task is not started by a tick whose readings of the clock
    are all before [createdAt + delay]; as long as the readings are that
    early it stays pending through any number of ticks, and no other event
    starts it either (it can only be cancelled).  A task in the store with
    delay 0 is started by the very next tick of a running executor, as is
    any task whose delay has elapsed. *)
Theorem task_waits_for_its_delay (w : World) (a : Ref) (t : BackgroundTask) :
  heap w !! a = Some t →
  Task.status t = pending →
  ((∀ k, (clockReads w ≤ k < clockReads (exec processPendingTasks w))%nat →
         clock w k - Task.createdAt t < Task.delay t) →
   heap (exec processPendingTasks w) !! a = Some t)
  ∧ ((∀ k, (clockReads w ≤ k)%nat →
           clock w k - Task.createdAt t < Task.delay t) →
     (∀ n, heap (exec (run (replicate n Tick)) w) !! a = Some t)
     ∧ (reachable w →
        ∀ events, ∃ t',
          heap (exec (run events) w) !! a = Some t'
          ∧ (Task.status t' = pending ∨ Task.status t' = cancelled)
          ∧ Task.startedAt t' = Task.startedAt t))
  ∧ (isRunning w = true →
     a ∈ JsMap.values (tasks w) →
     (Task.delay t = 0 →
      (∀ k, (clockReads w ≤ k)%nat → Task.createdAt t ≤ clock w k) →
      Task.status <$> heap (exec processPendingTasks w) !! a = Some running)
     ∧ ((∀ k, (clockReads w ≤ k)%nat →
              Task.delay t ≤ clock w k - Task.createdAt t) →
        Task.status <$> heap (exec processPendingTasks w) !! a = Some running)).
Proof.
  intros Ha Hp. split_and!.
  - by apply early_tick.
  - intros Hearly. split.
    + intros n. by apply early_ticks.
    + intros Hw%wf_reachable events.
      apply early_run; eauto using pending_unowned.
  - intros Hrun Hin.
    assert ((∀ k, (clockReads w ≤ k)%nat →
                  Task.delay t ≤ clock w k - Task.createdAt t) →
            Task.status <$> heap (exec processPendingTasks w) !! a = Some running)
      as Hdue.
    { intros Hdue. destruct (due_tick w a t Hrun Hin Ha Hp Hdue) as (t' & -> & Hs).
      cbn. by rewrite Hs. }
    split; [| done].
    intros Hzero Hmono. apply Hdue. intros k Hk. specialize (Hmono k Hk). lia.
Qed.

(** ** Shutdown *)

Lemma stop_effect (w : World) :
  isRunning (exec stop w) = false
  ∧ processingInterval (exec stop w) = false
  ∧ tasks (exec stop w) = tasks w.
Proof. unfold stop. unfold_m. cbn. by destruct (processingInterval w) eqn:E. Qed.

Lemma stopped_tick (w : World) :
  isRunning w = false → exec processPendingTasks w = w.
Proof. intros H. unfold processPendingTasks. unfold_m. cbn. by rewrite H. Qed.

(** The part of the executor that shutdown leaves behind: nothing in the
    store, no timer, not running. *)
Lemma shut_down_step (e : Event) (w : World) :
  submits e = false →
  shut_down w → shut_down (exec (step e) w).
Proof.
  intros He (Ht & Hr & Hi). destruct e; try discriminate He; cbn [step].
  - by rewrite stopped_tick.
  - unfold settle, executeTask_fulfilled, executeTask_rejected, assign,
      Date_now, showMessage, deref.
    unfold_m. cbn. repeat (case_match; cbn); done.
  - unfold cancelTask, assign, Date_now, deref.
    unfold_m. cbn. repeat (case_match; cbn); done.
  - unfold clearCompletedTasks, getAllTasks. unfold_m. cbn. by rewrite Ht.
  - done.
  - done.
  - done.
  - unfold updateAsyncConfig, getTaskStats, getAllTasks, showMessage, clearAllTasks.
    unfold_m. cbn. repeat (case_match; cbn); done.
  - destruct (stop_effect w) as (? & ? & ?). repeat split; congruence.
  - unfold dispose. rewrite !exec_bind.
    destruct (stop_effect w) as (? & ? & ?). done.
Qed.

Lemma shut_down_run (events : list Event) (w : World) :
  Forall (λ e, submits e = false) events →
  shut_down w → shut_down (exec (run events) w).
Proof.
  intros Hev. revert w.
  induction Hev as [|e events He _ IH]; intros w Hw; [done |].
  rewrite exec_run_cons. by apply IH, shut_down_step.
Qed.

Lemma values_set (k : string) (v : nat) (m : JsMap.t) (a : nat) :
  a ∈ JsMap.values (JsMap.set k v m) → a = v ∨ a ∈ JsMap.values m.
Proof.
  unfold JsMap.values. induction m as [|[k' v'] m IH]; cbn.
  - intros ->%list_elem_of_singleton. by left.
  - destruct (String.eqb k k'); cbn.
    + intros [-> | Hin]%elem_of_cons; [by left | right; by right].
    + intros [-> | Hin]%elem_of_cons; [right; by left |].
      destruct (IH Hin); [by left | right; by right].
Qed.

Lemma values_delete (k : string) (m : JsMap.t) (a : nat) :
  a ∈ JsMap.values (JsMap.delete k m) → a ∈ JsMap.values m.
Proof.
  unfold JsMap.values. induction m as [|[k' v'] m IH]; cbn; [done |].
  destruct (String.eqb k k'); cbn.
  - by right.
  - intros [-> | Hin]%elem_of_cons; [by left | right; auto].
Qed.

Lemma forEach_delete_values (ts : list BackgroundTask) (w : World) (a : nat) :
  a ∈ JsMap.values (tasks (exec (forEach
        (λ task, modify (λ w, set_tasks (JsMap.delete (Task.id task) (tasks w)) w))
        ts) w)) →
  a ∈ JsMap.values (tasks w).
Proof.
  revert w. induction ts as [|t ts IH]; intros w; [done |].
  rewrite exec_forEach_cons. intros Hin%IH.
  apply (values_delete (Task.id t)). exact Hin.
Qed.

(** The store never takes up a task object again: a reference that an event
    puts into the store is that of an object created by that event. *)
Lemma step_store_refs (e : Event) (w : World) (a : nat) :
  a ∈ JsMap.values (tasks (exec (step e) w)) →
  a ∈ JsMap.values (tasks w) ∨ (length (heap w) ≤ a)%nat.
Proof.
  destruct e; cbn [step].
  - unfold executeCommand, submitTask, allocate, Date_now,
      vscode_commands_executeCommand.
    unfold_m. cbn. repeat (case_match; cbn); auto.
    intros [-> | Hin]%values_set; auto.
  - unfold submitTask, allocate, Date_now. unfold_m. cbn.
    intros [-> | Hin]%values_set; auto.
  - rewrite (tk_tasks _ _ (processPendingTasks_ticks w)). auto.
  - unfold settle, executeTask_fulfilled, executeTask_rejected, assign,
      Date_now, showMessage, deref.
    unfold_m. cbn. repeat (case_match; cbn); auto.
  - unfold cancelTask, assign, Date_now, deref.
    unfold_m. cbn. repeat (case_match; cbn); auto.
  - unfold clearCompletedTasks. rewrite !exec_bind.
    change (exec (mret _) ?w') with w'.
    intros Hin%forEach_delete_values. auto.
  - cbn. by intros ?%elem_of_nil.
  - auto.
  - auto.
  - unfold updateAsyncConfig, getTaskStats, getAllTasks, showMessage, clearAllTasks.
    unfold_m. cbn. repeat (case_match; cbn); auto; by intros ?%elem_of_nil.
  - destruct (stop_effect w) as (_ & _ & ->). auto.
  - cbn. by intros ?%elem_of_nil.
Qed.

Lemma moves_length (w w' : World) :
  moves w w' → (length (heap w) ≤ length (heap w'))%nat.
Proof.
  intros Hm. destruct (decide (length (heap w) ≤ length (heap w'))%nat) as [|Hgt]; [done |].
  destruct (lookup_lt_is_Some_2 (heap w) (length (heap w'))) as [t Ht]; [lia |].
  destruct (mv_heap _ _ Hm _ _ Ht) as (t' & Ht'%lookup_lt_Some & _). lia.
Qed.

Lemma run_store_refs (events : list Event) (w : World) (a : nat) :
  a ∈ JsMap.values (tasks (exec (run events) w)) →
  a ∈ JsMap.values (tasks w) ∨ (length (heap w) ≤ a)%nat.
Proof.
  revert w. induction events as [|e events IH]; intros w; [auto |].
  rewrite exec_run_cons. intros [Hin | Hlen]%IH.
  - by apply (step_store_refs e).
  - right. pose proof (moves_length _ _ (step_moves e w)). lia.
Qed.

(** C8. [dispose] stops the recurring tick and empties the store, whatever
    the status of the tasks in it; afterwards a tick does nothing, and
    through the settlement of outstanding host calls (and any other event
    that submits no new task) the store stays empty: [getTask] finds nothing
    under any id.  Whatever happens later, new submissions included, no task
    object that existed at shutdown is put back into the store. *)
Theorem dispose_clears_the_store (w : World) :
  let w1 := exec dispose w in
  processingInterval w1 = false
  ∧ isRunning w1 = false
  ∧ tasks w1 = JsMap.empty
  ∧ eval getAllTasks w1 = []
  ∧ exec processPendingTasks w1 = w1
  ∧ (∀ events : list Event,
      Forall (λ e, submits e = false) events →
      let w2 := exec (run events) w1 in
      tasks w2 = JsMap.empty
      ∧ eval getAllTasks w2 = []
      ∧ (∀ taskId, eval (getTask taskId) w2 = None)
      ∧ isRunning w2 = false
      ∧ processingInterval w2 = false)
  ∧ ∀ (events : list Event) (a : nat),
      (a < length (heap w1))%nat →
      a ∉ JsMap.values (tasks (exec (run events) w1)).
Proof.
  intros w1.
  assert (shut_down w1) as Hdown.
  { subst w1. unfold dispose. rewrite !exec_bind.
    destruct (stop_effect w) as (? & ? & ?). done. }
  destruct Hdown as (Ht & Hr & Hi).
  split_and!; [done | done | done | | by apply stopped_tick | |].
  - unfold getAllTasks. unfold_m. cbn. by rewrite Ht.
  - intros events Hev w2.
    destruct (shut_down_run events w1 Hev) as (Ht2 & Hr2 & Hi2); [done |].
    fold w2 in Ht2, Hr2, Hi2.
    split_and!; [done | | | done | done].
    + unfold getAllTasks. unfold_m. cbn. by rewrite Ht2.
    + intros taskId. unfold getTask. unfold_m. cbn. by rewrite Ht2.
  - intros events a Ha [Hin | Hlen]%run_store_refs; [| lia].
    rewrite Ht in Hin. by apply elem_of_nil in Hin.
Qed.

(** ** The gateway and the tools *)

(** C2 (as amended). A command that a non-empty allow-list does not permit
    is refused by [execute_vscode_command] in either mode: [executeCommand]
    throws, the tool returns an error result ([isError: true], with the text
    "Command '...' is not allowed" and no [success] key), and the world is
    left exactly as it was: no task is created and the command host is not
    called. *)
Theorem refused_command_changes_nothing
    (w : World) (command : string) (cmdArgs : option (list string)) :
  allowedCommands w ≠ [] →
  isCommandAllowed (allowedCommands w) command = false →
  eval (executeCommand command (Some (JsString <$> default [] cmdArgs))) w
  = Threw (notAllowedMessage command)
  ∧ eval (execute_vscode_command command cmdArgs) w
    = Returned (mkToolResult
                  (PlainText ("命令执行失败: " +:+ notAllowedMessage command))
                  (Some true))
  ∧ exec (execute_vscode_command command cmdArgs) w = w
  ∧ tasks (exec (execute_vscode_command command cmdArgs) w) = tasks w
  ∧ heap (exec (execute_vscode_command command cmdArgs) w) = heap w
  ∧ hostCalls (exec (execute_vscode_command command cmdArgs) w) = hostCalls w.
Proof.
  intros _ Hno.
  assert (exec (execute_vscode_command command cmdArgs) w = w) as Hw.
  { unfold execute_vscode_command, executeCommand. unfold_m. cbn.
    by rewrite Hno. }
  rewrite Hw. split_and!; try done.
  - unfold executeCommand. unfold_m. cbn. by rewrite Hno.
  - unfold execute_vscode_command, executeCommand. unfold_m. cbn.
    by rewrite Hno.
Qed.

(** The world of the examples: the clock starts at 1000 and advances by one
    at each reading. *)
Lemma refused_command_changes_nothing_witness :
  let w := initial (λ n, 1000 + Z.of_nat n)
                   (mkConfig (Some ["a.*"; "b.exec"]) None None None) in
  eval (execute_vscode_command "c.other" None) w
  = Returned (mkToolResult
                (PlainText "命令执行失败: Command 'c.other' is not allowed")
                (Some true))
  ∧ exec (execute_vscode_command "c.other" None) w = w.
Proof.
  intros w.
  destruct (refused_command_changes_nothing w "c.other" None)
    as (_ & Hret & Hw & _); [done | reflexivity |].
  split; [exact Hret | exact Hw].
Defined.

(** The result of a refused command carries no [success: false]. *)
Lemma refused_command_has_no_success_key :
  let w := initial (λ n, 1000 + Z.of_nat n)
                   (mkConfig (Some ["a.*"; "b.exec"]) None None None) in
  allowedCommands w ≠ []
  ∧ isCommandAllowed (allowedCommands w) "c.other" = false
  ∧ ¬ ∃ r, eval (execute_vscode_command "c.other" None) w = Returned r
           ∧ successOf r = Some false.
Proof.
  intros w. split_and!; [done | reflexivity |].
  intros (r & Hr & Hs). vm_compute in Hr. injection Hr as <-. discriminate Hs.
Qed.

(** ** Disabling asynchronous execution *)

(** What [updateAsyncConfig] does when the configuration disables
    asynchronous execution while tasks are pending: one warning, and the
    whole store is cleared; task objects and host calls are left alone. *)
Lemma updateAsyncConfig_disabled (w : World) :
  cfg_asyncExecution (config w) = Some false →
  backgroundExecutor w = true →
  (0 < Stats.pending (eval getTaskStats w))%nat →
  let w' := exec updateAsyncConfig w in
  asyncExecution w' = false
  ∧ tasks w' = JsMap.empty
  ∧ (∃ message, notifications w' = notifications w ++ [mkNotification Warning message])
  ∧ heap w' = heap w
  ∧ hostCalls w' = hostCalls w.
Proof.
  intros Hcfg Hbg Hpending.
  apply Nat.ltb_lt in Hpending.
  unfold updateAsyncConfig, showMessage, clearAllTasks.
  rewrite !exec_bind.
  change (eval (gets config) w) with (config w).
  change (exec (gets config) w) with w.
  rewrite Hcfg. cbn [config_get default].
  set (w1 := exec (modify (set_executionDelay _)) _).
  change (eval (gets asyncExecution) w1) with false.
  change (exec (gets asyncExecution) w1) with w1.
  change (eval (gets backgroundExecutor) w1) with (backgroundExecutor w).
  change (exec (gets backgroundExecutor) w1) with w1.
  rewrite Hbg. cbn [negb andb]. rewrite exec_bind.
  change (eval getTaskStats w1) with (eval getTaskStats w).
  rewrite Hpending. by eauto 10.
Qed.

(** C5 (the code at the failing input). One task is running and one is
    pending when the configuration disables asynchronous execution: the
    refresh raises one warning and purges the pending task, but it purges
    the record of the running task as well. *)
Theorem disabling_async_purges_running_task :
  let w := exec (run [ExecuteCommand "first" None; Tick;
                      ExecuteCommand "second" None])
                (initial (λ n, 1000 + Z.of_nat n) (mkConfig None None None None)) in
  let w' := exec (run [ConfigurationChanged (mkConfig None (Some false) None None);
                       UpdateAsyncConfig]) w in
  (Task.status <$> eval (getTask "bg_task_1_1000") w) = Some running
  ∧ (Task.status <$> eval (getTask "bg_task_2_1004") w) = Some pending
  ∧ eval (getTask "bg_task_2_1004") w' = None
  ∧ length (List.filter is_warning (notifications w')) = 1%nat
  ∧ (hc_settled <$> hostCalls w' !! 0%nat) = Some false
  ∧ eval (getTask "bg_task_1_1000") w' = None
  ∧ eval getAllTasks w' = [].
Proof. vm_compute. by repeat split. Qed.

(** ** Timestamps *)

(** What no event changes: the identity of a task, its [createdAt], and its
    [startedAt] once the task has left [pending]. *)
Lemma moves_fixed_fields (w w' : World) (a : nat) (t : BackgroundTask) :
  moves w w' → heap w !! a = Some t →
  ∃ t', heap w' !! a = Some t'
    ∧ Task.id t' = Task.id t
    ∧ Task.createdAt t' = Task.createdAt t
    ∧ (Task.status t ≠ pending →
       Task.status t' ≠ pending ∧ Task.startedAt t' = Task.startedAt t).
Proof.
  intros Hm Ha. destruct (mv_heap _ _ Hm a t Ha) as (t' & Ha' & Hcase).
  exists t'. split; [done |].
  destruct Hcase as [-> | [Hst | [Hca | [_ Hse]]]]; [done | ..].
  - destruct Hst as (Hp & check & now & _ & _ & ->). done.
  - destruct Hca as (_ & now & ->). done.
  - destruct Hse as (now & [(value & ->) | (message & ->)]); done.
Qed.

Lemma createdAt_startedAt_assigned_once
    (events : list Event) (w : World) (a : nat) (t : BackgroundTask) :
  heap w !! a = Some t →
  ∃ t', heap (exec (run events) w) !! a = Some t'
    ∧ Task.id t' = Task.id t
    ∧ Task.createdAt t' = Task.createdAt t
    ∧ (Task.status t ≠ pending →
       Task.status t' ≠ pending ∧ Task.startedAt t' = Task.startedAt t).
Proof.
  revert w t. induction events as [|e events IH]; intros w t Ha.
  - exists t. auto.
  - rewrite exec_run_cons.
    destruct (moves_fixed_fields _ _ a t (step_moves e w) Ha)
      as (t1 & Ha1 & Hid1 & Hc1 & Hs1).
    destruct (IH _ t1 Ha1) as (t2 & Ha2 & Hid2 & Hc2 & Hs2).
    exists t2. split_and!; [done | congruence | congruence |].
    intros Hp. destruct (Hs1 Hp) as [Hp1 Hst1].
    destruct (Hs2 Hp1) as [Hp2 Hst2]. split; [done | congruence].
Qed.

(** C6 (the code at the failing input). A task is cancelled while it is
    running, which assigns [completedAt]; when the host call then completes,
    the continuation of [executeTask] assigns [completedAt] a second time
    (and turns the cancelled task into a completed one). *)
Theorem completedAt_is_assigned_twice :
  let w := exec (run [ExecuteCommand "first" None; Tick;
                      CancelTask "bg_task_1_1000"])
                (initial (λ n, 1000 + Z.of_nat n) (mkConfig None None None None)) in
  let w' := exec (step (Settle 0 (Resolved JsNull))) w in
  (Task.status <$> eval (getTask "bg_task_1_1000") w) = Some cancelled
  ∧ (Task.completedAt <$> eval (getTask "bg_task_1_1000") w) = Some (Some 1004)
  ∧ (Task.status <$> eval (getTask "bg_task_1_1000") w') = Some completed
  ∧ (Task.completedAt <$> eval (getTask "bg_task_1_1000") w') = Some (Some 1005).
Proof. vm_compute. by repeat split. Qed.

(** ** The theorems at concrete inputs *)

Lemma isCommandAllowed_correct_witness :
  isCommandAllowed [] "anything" = true
  ∧ (isCommandAllowed ["a.*"; "b.exec"] "a.run" = true
     ↔ ∃ entry, entry ∈ ["a.*"; "b.exec"] ∧ permitted_by entry "a.run").
Proof.
  split.
  - apply (proj1 (isCommandAllowed_correct [] "anything")). reflexivity.
  - apply (proj2 (isCommandAllowed_correct ["a.*"; "b.exec"] "a.run")).
    discriminate.
Defined.

Lemma cancelled_pending_task_is_never_run_witness :
  let w := exec (run [ExecuteCommand "a.run" None])
                (initial (λ n, 1000 + Z.of_nat n)
                         (mkConfig None None (Some 500) None)) in
  eval (cancelTask "bg_task_1_1000") w = true
  ∧ ∃ t1, heap (exec (cancelTask "bg_task_1_1000") w) !! 0%nat = Some t1
      ∧ Task.status t1 = cancelled
      ∧ ∀ events : list Event,
          heap (exec (run events) (exec (cancelTask "bg_task_1_1000") w)) !! 0%nat
          = Some t1
          ∧ (Task.status <$>
               heap (exec (run events) (exec (cancelTask "bg_task_1_1000") w))
                 !! 0%nat) = Some cancelled.
Proof.
  intros w.
  apply (cancelled_pending_task_is_never_run w "bg_task_1_1000" 0
           (Task.mk "bg_task_1_1000" "a.run" None 500 pending 1001
                    None None None None)).
  - by eexists _, _, _.
  - reflexivity.
  - reflexivity.
  - reflexivity.
Defined.

Lemma task_waits_for_its_delay_witness :
  let w := exec (run [ExecuteCommand "a.run" None])
                (initial (λ _, 1000) (mkConfig None None (Some 500) None)) in
  let w0 := exec (run [ExecuteCommand "a.run" None])
                 (initial (λ n, 1000 + Z.of_nat n) (mkConfig None None None None)) in
  (∀ n, (Task.status <$> heap (exec (run (replicate n Tick)) w) !! 0%nat)
        = Some pending)
  ∧ (Task.status <$> heap (exec processPendingTasks w0) !! 0%nat) = Some running.
Proof.
  intros w w0. split.
  - intros n.
    destruct (task_waits_for_its_delay w 0
                (Task.mk "bg_task_1_1000" "a.run" None 500 pending 1000
                         None None None None))
      as (_ & Hearly & _); [reflexivity | reflexivity |].
    destruct Hearly as [Hticks _].
    + intros k _. simpl. lia.
    + by rewrite Hticks.
  - destruct (task_waits_for_its_delay w0 0
                (Task.mk "bg_task_1_1000" "a.run" None 0 pending 1001
                         None None None None))
      as (_ & _ & Hdue); [reflexivity | reflexivity |].
    destruct Hdue as [Hzero _].
    + reflexivity.
    + apply list_elem_of_In. simpl. auto.
    + apply Hzero; [reflexivity |]. intros k Hk. simpl in *. lia.
Defined.

Lemma dispose_clears_the_store_witness :
  let w := exec (run [ExecuteCommand "a.run" None; Tick])
                (initial (λ n, 1000 + Z.of_nat n) (mkConfig None None None None)) in
  let w1 := exec dispose w in
  let w2 := exec (run [Settle 0 (Resolved JsNull); Tick]) w1 in
  (Task.status <$> eval (getTask "bg_task_1_1000") w) = Some running
  ∧ eval (getTask "bg_task_1_1000") w1 = None
  ∧ eval (getTask "bg_task_1_1000") w2 = None
  ∧ (Task.status <$> heap w2 !! 0%nat) = Some completed
  ∧ 0%nat ∉ JsMap.values
      (tasks (exec (run [Settle 0 (Resolved JsNull);
                         ExecuteCommand "a.stop" None; Tick]) w1)).
Proof.
  intros w w1 w2.
  destruct (dispose_clears_the_store w) as (_ & _ & _ & _ & _ & Hlater & Hback).
  destruct (Hlater [Settle 0 (Resolved JsNull); Tick]) as (_ & _ & Hget & _).
  { repeat constructor. }
  destruct (Hlater []) as (_ & _ & Hget1 & _).
  { constructor. }
  split_and!; [reflexivity | apply Hget1 | apply Hget | reflexivity |].
  apply Hback. simpl. lia.
Defined.

(** * Further properties *)

(** ** The JavaScript [Map] *)

Lemma eqb_string_true (k k' : string) : String.eqb k k' = true ↔ k = k'.
Proof. apply String.eqb_eq. Qed.


Lemma JsMap_get_set_ne (k k' : string) (v : nat) (m : JsMap.t) :
  k ≠ k' → JsMap.get k' (JsMap.set k v m) = JsMap.get k' m.
Proof.
  intros Hne. induction m as [|[k0 v0] m IH]; cbn.
  - destruct (String.eqb k' k) eqn:E; [| done].
    apply String.eqb_eq in E. congruence.
  - destruct (String.eqb k k0) eqn:E; cbn.
    + apply String.eqb_eq in E. subst k0.
      destruct (String.eqb k' k) eqn:E'; [| done].
      apply String.eqb_eq in E'. congruence.
    + by rewrite IH.
Qed.

Lemma JsMap_get_None (k : string) (m : JsMap.t) :
  JsMap.get k m = None ↔ k ∉ map fst m.
Proof.
  induction m as [|[k' v'] m IH]; cbn.
  - split; [intros _ H; by apply elem_of_nil in H | done].
  - destruct (String.eqb k k') eqn:E.
    + apply String.eqb_eq in E. subst k'. split; [done |].
      intros H. exfalso. apply H. by left.
    + rewrite IH. rewrite not_elem_of_cons. split; [| tauto].
      intros H. split; [| done]. intros ->. by rewrite String.eqb_refl in E.
Qed.

Lemma JsMap_get_Some (k : string) (v : nat) (m : JsMap.t) :
  JsMap.get k m = Some v → (k, v) ∈ m.
Proof.
  induction m as [|[k' v'] m IH]; cbn; [done |].
  destruct (String.eqb k k') eqn:E.
  - apply String.eqb_eq in E. subst k'. intros [= ->]. by left.
  - intros H. right. auto.
Qed.

Lemma JsMap_elem_get (k : string) (v : nat) (m : JsMap.t) :
  NoDup (map fst m) → (k, v) ∈ m → JsMap.get k m = Some v.
Proof.
  induction m as [|[k' v'] m IH]; cbn; intros Hnd Hin.
  - by apply elem_of_nil in Hin.
  - apply NoDup_cons in Hnd as [Hk' Hnd].
    apply elem_of_cons in Hin as [[= -> ->] | Hin].
    + by rewrite String.eqb_refl.
    + destruct (String.eqb k k') eqn:E; [| auto].
      apply String.eqb_eq in E. subst k'. exfalso. apply Hk'.
      apply list_elem_of_fmap. by exists (k, v).
Qed.

Lemma JsMap_set_fresh (k : string) (v : nat) (m : JsMap.t) :
  JsMap.get k m = None → JsMap.set k v m = m ++ [(k, v)].
Proof.
  induction m as [|[k' v'] m IH]; cbn; [done |].
  destruct (String.eqb k k'); [done |]. intros H. by rewrite IH.
Qed.

Lemma JsMap_elem_set (k k' : string) (v v' : nat) (m : JsMap.t) :
  (k', v') ∈ JsMap.set k v m → (k' = k ∧ v' = v) ∨ (k', v') ∈ m.
Proof.
  induction m as [|[k0 v0] m IH]; cbn.
  - intros [= -> ->]%list_elem_of_singleton. by left.
  - destruct (String.eqb k k0) eqn:E.
    + apply String.eqb_eq in E. subst k0.
      intros [[= -> ->] | Hin]%elem_of_cons; [by left | right; by right].
    + intros [[= -> ->] | Hin]%elem_of_cons; [right; by left |].
      destruct (IH Hin) as [? | ?]; [by left | right; by right].
Qed.

Lemma JsMap_key_set (k k' : string) (v : nat) (m : JsMap.t) :
  k' ∈ map fst (JsMap.set k v m) → k' = k ∨ k' ∈ map fst m.
Proof.
  intros ([k0 v0] & -> & Hin)%list_elem_of_fmap.
  apply JsMap_elem_set in Hin as [[-> _] | Hin]; [by left | right].
  apply list_elem_of_fmap. by exists (k0, v0).
Qed.

Lemma JsMap_keys_set (k : string) (v : nat) (m : JsMap.t) :
  NoDup (map fst m) → NoDup (map fst (JsMap.set k v m)).
Proof.
  induction m as [|[k' v'] m IH]; cbn; intros Hnd.
  - apply NoDup_singleton.
  - apply NoDup_cons in Hnd as [Hk' Hnd].
    destruct (String.eqb k k') eqn:E; cbn.
    + by apply NoDup_cons.
    + apply NoDup_cons. split; [| auto].
      intros [-> | Hin]%JsMap_key_set; [| done].
      by rewrite String.eqb_refl in E.
Qed.

Lemma JsMap_elem_delete (k k' : string) (v' : nat) (m : JsMap.t) :
  (k', v') ∈ JsMap.delete k m → (k', v') ∈ m.
Proof.
  induction m as [|[k0 v0] m IH]; cbn; [done |].
  destruct (String.eqb k k0); [by right |].
  intros [-> | Hin]%elem_of_cons; [by left | right; auto].
Qed.

Lemma JsMap_delete_filter (k : string) (m : JsMap.t) :
  NoDup (map fst m) →
  JsMap.delete k m = List.filter (λ e, negb (String.eqb k e.1)) m.
Proof.
  induction m as [|[k' v'] m IH]; cbn; intros Hnd; [done |].
  apply NoDup_cons in Hnd as [Hk' Hnd].
  destruct (String.eqb k k') eqn:E; cbn.
  - apply String.eqb_eq in E. subst k'. symmetry.
    clear IH Hnd. induction m as [|[k0 v0] m IH]; cbn; [done |].
    cbn in Hk'. apply not_elem_of_cons in Hk' as [Hne Hk'].
    destruct (String.eqb k k0) eqn:E; cbn.
    + apply String.eqb_eq in E. congruence.
    + f_equal. auto.
  - f_equal. auto.
Qed.

Lemma NoDup_keys_filter (p : string * nat → bool) (m : JsMap.t) :
  NoDup (map fst m) → NoDup (map fst (List.filter p m)).
Proof.
  induction m as [|e m IH]; cbn; intros Hnd; [done |].
  apply NoDup_cons in Hnd as [He Hnd].
  destruct (p e); cbn; [| auto].
  apply NoDup_cons. split; [| auto].
  intros (e' & Heq & Hin)%list_elem_of_fmap.
  apply list_elem_of_In, filter_In in Hin as [Hin _].
  apply He. apply list_elem_of_fmap. exists e'. split; [done |].
  by apply list_elem_of_In.
Qed.

(** ** Task ids *)

Lemma show_nat_digits (n : nat) :
  ∃ d, Z.to_int (Z.of_nat n) = Decimal.Pos d
       ∧ Js.show_Z (Z.of_nat n) = NilEmpty.string_of_uint d.
Proof.
  unfold Js.show_Z. destruct (Z.of_nat n) as [|p|p] eqn:Hn; [| | lia].
  - by exists (Decimal.D0 Decimal.Nil).
  - exists (Pos.to_uint p). split; [done |]. cbn.
    pose proof (DecimalPos.Unsigned.to_uint_nonnil p).
    by destruct (Pos.to_uint p).
Qed.

Lemma digits_then_underscore (d1 d2 : Decimal.uint) (r1 r2 : string) :
  NilEmpty.string_of_uint d1 +:+ "_" +:+ r1
  = NilEmpty.string_of_uint d2 +:+ "_" +:+ r2 →
  d1 = d2.
Proof.
  revert d2. unfold String.app.
  induction d1 as [|d1 IH|d1 IH|d1 IH|d1 IH|d1 IH|d1 IH|d1 IH|d1 IH|d1 IH|d1 IH];
    intros [|d2|d2|d2|d2|d2|d2|d2|d2|d2|d2]; simpl; intros H;
    try discriminate H; try done;
    injection H as H; f_equal; by apply IH.
Qed.

Lemma taskIdOf_counter_inj (c c' : nat) (s s' : Z) :
  taskIdOf c s = taskIdOf c' s' → c = c'.
Proof.
  unfold taskIdOf. intros H%(inj (String.app "bg_task_")).
  destruct (show_nat_digits c) as (d & Hd & Hs).
  destruct (show_nat_digits c') as (d' & Hd' & Hs').
  rewrite Hs, Hs' in H. apply digits_then_underscore in H. subst d'.
  apply Nat2Z.inj, DecimalZ.to_int_inj. congruence.
Qed.

(** ** Every event is a sequence of elementary updates *)

Lemma update_weaken (gated : bool) (w w' : World) :
  update gated w w' → update false w w'.
Proof.
  intros [| a f | a t f | command args | promise
          | command args delay stamp created | k | |].
  - by apply up_other.
  - by apply (up_assign _ _ _ a f).
  - by apply (up_start _ _ _ a t f).
  - by apply (up_sync _ _ _ command args).
  - by apply (up_settled _ _ _ promise).
  - by apply (up_submit _ _ _ command args delay stamp created).
  - by apply (up_delete _ _ _ k).
  - by apply up_clear.
  - by apply up_allowed.
Qed.

Lemma updates_weaken (gated : bool) (w w' : World) :
  rtc (update gated) w w' → rtc (update false) w w'.
Proof.
  induction 1 as [|w0 w1 w2 H _ IH]; [done |].
  eapply rtc_l; [by eapply update_weaken | done].
Qed.

Lemma keeps_request_status (s : TaskStatus) : keeps_request (Task.with_status s).
Proof. done. Qed.

Lemma keeps_request_compose (f g : BackgroundTask → BackgroundTask) :
  keeps_request f → keeps_request g → keeps_request (f ∘ g).
Proof.
  intros Hf Hg t. destruct (Hf (g t)) as (? & ? & ? & ? & ?).
  destruct (Hg t) as (? & ? & ? & ? & ?). cbn. split_and!; congruence.
Qed.

Lemma processTask_updates (gated : bool) (a : nat) (w : World) :
  rtc (update gated) w (exec (processTask a) w).
Proof.
  unfold processTask, executeTask. unfold_m. cbn.
  destruct (heap w !! a) as [t|] eqn:Ha; cbn; [| done].
  destruct (Task.has_status pending t) eqn:Hp; cbn; [| done].
  apply bool_decide_eq_true in Hp as Hpen.
  destruct (Z.geb _ _) eqn:Hdue; cbn.
  - rewrite Ha. cbn. rewrite Hp. cbn. apply rtc_once.
    apply (up_start _ _ _ a t
             (Task.with_startedAt (clock w (S (clockReads w)))
                ∘ Task.with_status running)); try done.
    cbn. by rewrite list_alter_alter_eq.
  - apply rtc_once. by apply up_other.
Qed.

Lemma forEach_updates {A} (gated : bool) (body : A → M unit) (xs : list A) (w : World) :
  (∀ x w, rtc (update gated) w (exec (body x) w)) →
  rtc (update gated) w (exec (forEach body xs) w).
Proof.
  intros Hbody. revert w. induction xs as [|x xs IH]; intros w; [done |].
  rewrite exec_forEach_cons. etrans; [apply Hbody | apply IH].
Qed.

Lemma submitTask_update (gated : bool) (command : string)
    (args : option (list JsValue)) (delay : Z) (w : World) :
  (gated = true → isCommandAllowed (allowedCommands w) command = true) →
  update gated w (exec (submitTask command args delay) w).
Proof.
  intros Hgate.
  by apply (up_submit _ _ _ command args delay
              (clock w (clockReads w)) (clock w (S (clockReads w)))).
Qed.

Lemma step_updates (e : Event) (w : World) :
  rtc (update (keeps_gate e)) w (exec (step e) w).
Proof.
  destruct e; cbn [step keeps_gate].
  - unfold executeCommand. rewrite !exec_bind.
    change (eval (gets allowedCommands) w) with (allowedCommands w).
    change (exec (gets allowedCommands) w) with w.
    destruct (isCommandAllowed (allowedCommands w) command) eqn:Hallowed;
      cbn [negb]; [| done].
    rewrite exec_bind.
    change (eval (gets asyncExecution) w) with (asyncExecution w).
    change (exec (gets asyncExecution) w) with w.
    destruct (asyncExecution w).
    + apply rtc_once. by apply (submitTask_update true command args (executionDelay w) w).
    + apply rtc_once. by apply (up_sync _ _ _ command (default [] args)).
  - apply rtc_once. by apply submitTask_update.
  - unfold processPendingTasks. rewrite exec_bind.
    change (eval (gets isRunning) w) with (isRunning w).
    change (exec (gets isRunning) w) with w.
    destruct (isRunning w); cbn [negb]; [| done].
    rewrite exec_bind. apply forEach_updates. intros a w'.
    apply processTask_updates.
  - unfold settle. rewrite exec_bind.
    change (eval (gets hostCalls) w) with (hostCalls w).
    change (exec (gets hostCalls) w) with w.
    destruct (hostCalls w !! promise) as [call|]; [| done].
    destruct (hc_settled call); [done |].
    rewrite exec_bind. set (w1 := exec (modify _) w).
    eapply rtc_l; [by apply (up_settled _ w w1 promise) |].
    destruct (hc_owner call) as [a|]; [| done].
    destruct outcome as [value | reason].
    + destruct (executeTask_fulfilled_effect a value w1) as (_ & _ & Hcalls & Hh).
      apply rtc_once.
      apply (up_assign _ _ _ a
               (Task.with_result value
                  ∘ Task.with_completedAt (clock w1 (clockReads w1))
                  ∘ Task.with_status completed)); try done.
      * rewrite Hh. by rewrite !list_alter_alter_eq.
      * unfold executeTask_fulfilled, assign, Date_now, showMessage, deref.
        unfold_m. cbn. by case_match.
      * unfold executeTask_fulfilled, assign, Date_now, showMessage, deref.
        unfold_m. cbn. by case_match.
      * unfold executeTask_fulfilled, assign, Date_now, showMessage, deref.
        unfold_m. cbn. by case_match.
    + destruct (executeTask_rejected_effect a reason w1) as (_ & _ & Hcalls & Hh).
      apply rtc_once.
      apply (up_assign _ _ _ a
               (Task.with_error (errorMessage reason)
                  ∘ Task.with_completedAt (clock w1 (clockReads w1))
                  ∘ Task.with_status failed)); try done.
      rewrite Hh. by rewrite !list_alter_alter_eq.
  - unfold cancelTask, assign, Date_now, deref. unfold_m. cbn.
    destruct (JsMap.get taskId (tasks w)) as [a|]; cbn; [| done].
    destruct (heap w !! a) as [task|]; cbn; [| done].
    destruct (_ || _); cbn; [| done].
    apply rtc_once.
    apply (up_assign _ _ _ a
             (Task.with_completedAt (clock w (clockReads w))
                ∘ Task.with_status cancelled)); try done.
    cbn. by rewrite list_alter_alter_eq.
  - unfold clearCompletedTasks. rewrite !exec_bind.
    change (exec (mret _) ?w') with w'.
    apply forEach_updates. intros task w'. apply rtc_once.
    by apply (up_delete _ _ _ (Task.id task)).
  - apply rtc_once. by apply up_clear.
  - apply rtc_once. by apply up_other.
  - apply rtc_once. by apply up_allowed.
  - unfold updateAsyncConfig, getTaskStats, getAllTasks, showMessage, clearAllTasks.
    unfold_m. cbn. repeat (case_match; cbn).
    all: apply rtc_once; first [by apply up_other | by apply up_clear].
  - destruct (stop_untouched w) as (_ & _ & Hh & Hc).
    destruct (stop_effect w) as (_ & _ & Ht).
    apply rtc_once. apply up_other; try done.
    all: unfold stop; unfold_m; cbn; by case_match.
  - apply rtc_once. apply up_clear; try done.
    all: unfold dispose, stop, clearAllTasks; unfold_m; cbn; by case_match.
Qed.

Lemma run_updates (events : list Event) (w : World) :
  rtc (update false) w (exec (run events) w).
Proof.
  revert w. induction events as [|e events IH]; intros w; [done |].
  rewrite exec_run_cons. etrans; [| apply IH].
  eapply updates_weaken, step_updates.
Qed.

Lemma run_gated_updates (events : list Event) (w : World) :
  Forall (λ e, keeps_gate e = true) events →
  rtc (update true) w (exec (run events) w).
Proof.
  intros Hev. revert w. induction Hev as [|e events He _ IH]; intros w; [done |].
  rewrite exec_run_cons. etrans; [| apply IH].
  rewrite <- He. apply step_updates.
Qed.

(** ** What the updates keep *)

Lemma invariant_updates (gated : bool) (P : World → Prop) (w w' : World) :
  (∀ w w', update gated w w' → P w → P w') →
  rtc (update gated) w w' → P w → P w'.
Proof. intros Hstep. induction 1; eauto. Qed.

Lemma lookup_alter_keeps (f : BackgroundTask → BackgroundTask) (a b : nat)
    (l : list BackgroundTask) (t' : BackgroundTask) :
  keeps_request f →
  alter f a l !! b = Some t' →
  ∃ t, l !! b = Some t
    ∧ Task.id t' = Task.id t
    ∧ Task.command t' = Task.command t
    ∧ Task.args t' = Task.args t.
Proof.
  intros Hf. destruct (decide (a = b)) as [<- | Hne].
  - rewrite list_lookup_alter_eq.
    destruct (l !! a) as [t|]; [| done]. cbn. intros [= <-].
    destruct (Hf t) as (? & ? & ? & _). eauto.
  - rewrite list_lookup_alter_ne by done. eauto.
Qed.

Lemma lookup_alter_keeps_2 (f : BackgroundTask → BackgroundTask) (a b : nat)
    (l : list BackgroundTask) (t : BackgroundTask) :
  keeps_request f →
  l !! b = Some t →
  ∃ t', alter f a l !! b = Some t'
    ∧ Task.id t' = Task.id t
    ∧ Task.command t' = Task.command t
    ∧ Task.args t' = Task.args t.
Proof.
  intros Hf Hb. destruct (decide (a = b)) as [<- | Hne].
  - rewrite list_lookup_alter_eq, Hb. cbn.
    destruct (Hf t) as (? & ? & ? & _). eauto.
  - rewrite list_lookup_alter_ne by done. eauto.
Qed.

Lemma ids_issued_update (gated : bool) (w w' : World) :
  update gated w w' → ids_issued w → ids_issued w'.
Proof.
  intros Hup [Hcount Hids].
  destruct Hup as [Hh Hc Ht Hn Ha | a f Hf Hh Hc Ht Hn Ha
    | a t f Hat Hp Hf Hh Hc Ht Hn Ha | command args Hok Hh Hc Ht Hn Ha
    | promise Hh Hc Ht Hn Ha
    | command args delay stamp created Hok Hh Hc Ht Hn Ha
    | k Hh Hc Ht Hn Ha | Hh Hc Ht Hn Ha | Hg Hh Hc Ht Hn].
  all: split;
    [ rewrite Hn, Hh, ?length_alter, ?length_app; cbn; lia
    | intros b tb; rewrite Hh ].
  all: try (intros Hb; by apply Hids).
  - intros (t0 & Hb & Hid & _)%lookup_alter_keeps; [| done].
    rewrite Hid. eauto.
  - intros (t0 & Hb & Hid & _)%lookup_alter_keeps; [| done].
    rewrite Hid. eauto.
  - intros [Hb | [Hb Hnew]]%lookup_app_Some; [eauto |].
    destruct (b - length (heap w))%nat as [|n] eqn:Hn'; [| by destruct n].
    cbn in Hnew. injection Hnew as <-. cbn.
    assert (b = length (heap w)) as -> by lia.
    rewrite Hcount. eauto.
Qed.

Lemma store_keyed_update (gated : bool) (w w' : World) :
  update gated w w' → store_keyed w → store_keyed w'.
Proof.
  intros Hup [Hnd Hkeys].
  destruct Hup as [Hh Hc Ht Hn Ha | a f Hf Hh Hc Ht Hn Ha
    | a t f Hat Hp Hf Hh Hc Ht Hn Ha | command args Hok Hh Hc Ht Hn Ha
    | promise Hh Hc Ht Hn Ha
    | command args delay stamp created Hok Hh Hc Ht Hn Ha
    | k Hh Hc Ht Hn Ha | Hh Hc Ht Hn Ha | Hg Hh Hc Ht Hn].
  all: split; rewrite Ht; try done.
  all: try (intros k0 a0 Hin; rewrite Hh; by apply Hkeys).
  - intros k0 a0 Hin. rewrite Hh.
    destruct (Hkeys k0 a0 Hin) as (t0 & Hb & Hid).
    destruct (lookup_alter_keeps_2 f a a0 _ t0 Hf Hb) as (t' & Hb' & Hid' & _).
    exists t'. split; [done | congruence].
  - intros k0 a0 Hin. rewrite Hh.
    destruct (Hkeys k0 a0 Hin) as (t0 & Hb & Hid).
    destruct (lookup_alter_keeps_2 f a a0 _ t0 Hf Hb) as (t' & Hb' & Hid' & _).
    exists t'. split; [done | congruence].
  - by apply JsMap_keys_set.
  - intros k0 a0 [[-> ->] | Hin]%JsMap_elem_set; rewrite Hh.
    + exists (Task.mk (taskIdOf (S (taskCounter w)) stamp) command args delay
                pending created None None None None).
      split; [| reflexivity].
      by rewrite lookup_app_r, Nat.sub_diag.
    + destruct (Hkeys k0 a0 Hin) as (t0 & Hb & Hid).
      exists t0. split; [by apply lookup_app_l_Some | done].
  - rewrite JsMap_delete_filter by done. by apply NoDup_keys_filter.
  - intros k0 a0 Hin%JsMap_elem_delete. rewrite Hh. by apply Hkeys.
  - constructor.
  - intros k0 a0 Hin. by apply elem_of_nil in Hin.
Qed.

Lemma calls_match_update (gated : bool) (w w' : World) :
  update gated w w' → calls_match w → calls_match w'.
Proof.
  intros Hup Hcm.
  assert (∀ f a, keeps_request f → heap w' = alter f a (heap w) →
            ∀ k call b, hostCalls w !! k = Some call → hc_owner call = Some b →
              ∃ t, heap w' !! b = Some t
                ∧ hc_command call = Task.command t
                ∧ hc_args call = default [] (Task.args t)) as Hkeep.
  { intros f a Hf Hh k call b Hk Ho.
    destruct (Hcm k call b Hk Ho) as (t & Hb & Hcmd & Hargs). rewrite Hh.
    destruct (lookup_alter_keeps_2 f a b _ t Hf Hb) as (t' & Hb' & _ & Hc' & Ha').
    exists t'. split; [done |]. split; congruence. }
  destruct Hup as [Hh Hc Ht Hn Ha | a f Hf Hh Hc Ht Hn Ha
    | a t f Hat Hp Hf Hh Hc Ht Hn Ha | command args Hok Hh Hc Ht Hn Ha
    | promise Hh Hc Ht Hn Ha
    | command args delay stamp created Hok Hh Hc Ht Hn Ha
    | k Hh Hc Ht Hn Ha | Hh Hc Ht Hn Ha | Hg Hh Hc Ht Hn].
  all: intros k0 call b; rewrite Hc.
  all: try (rewrite Hh; by apply Hcm).
  - by apply (Hkeep f a).
  - intros [Hk | [_ Hnew]]%lookup_app_Some Ho; [by apply (Hkeep f a Hf Hh k0) |].
    destruct (k0 - length (hostCalls w))%nat as [|n]; [| by destruct n].
    cbn in Hnew. injection Hnew as <-. cbn in Ho. injection Ho as <-.
    rewrite Hh.
    destruct (lookup_alter_keeps_2 f a a _ t Hf Hat) as (t' & Hb' & _ & Hc' & Ha').
    exists t'. cbn. split; [done |]. split; congruence.
  - intros [Hk | [_ Hnew]]%lookup_app_Some Ho; [rewrite Hh; by eapply Hcm |].
    destruct (k0 - length (hostCalls w))%nat as [|n]; [| by destruct n].
    cbn in Hnew. injection Hnew as <-. done.
  - rewrite list_lookup_alter. case_decide.
    + destruct (hostCalls w !! promise) as [c|] eqn:Hk; [| done].
      cbn. intros [= <-] Ho. rewrite Hh. by apply (Hcm promise c).
    + rewrite Hh. apply Hcm.
  - intros Hk Ho. destruct (Hcm k0 call b Hk Ho) as (t & Hb & ? & ?).
    exists t. rewrite Hh. split; [by apply lookup_app_l_Some | done].
Qed.

Lemma all_gated_update (allowed : list string) (w w' : World) :
  update true w w' → all_gated allowed w → all_gated allowed w'.
Proof.
  intros Hup (Hlist & Htasks & Hcalls).
  assert (∀ f a, keeps_request f → heap w' = alter f a (heap w) →
            ∀ b t, heap w' !! b = Some t →
              isCommandAllowed allowed (Task.command t) = true) as Hkeep.
  { intros f a Hf Hh b t'. rewrite Hh.
    intros (t & Hb & _ & Hc & _)%lookup_alter_keeps; [| done].
    rewrite Hc. eauto. }
  destruct Hup as [Hh Hc Ht Hn Ha | a f Hf Hh Hc Ht Hn Ha
    | a t f Hat Hp Hf Hh Hc Ht Hn Ha | command args Hok Hh Hc Ht Hn Ha
    | promise Hh Hc Ht Hn Ha
    | command args delay stamp created Hok Hh Hc Ht Hn Ha
    | k Hh Hc Ht Hn Ha | Hh Hc Ht Hn Ha | Hg Hh Hc Ht Hn];
    [| | | | | | | | done].
  all: split_and!; [congruence | |].
  all: try (rewrite Hh; exact Htasks).
  all: try (rewrite Hc; exact Hcalls).
  - by apply (Hkeep f a).
  - by apply (Hkeep f a).
  - rewrite Hc. intros call [Hin | ->%list_elem_of_singleton]%elem_of_app; [auto |].
    cbn. eauto.
  - rewrite Hc. intros call [Hin | ->%list_elem_of_singleton]%elem_of_app; [auto |].
    cbn. by rewrite <- Hlist.
  - rewrite Hc. intros call (k & Hk)%list_elem_of_lookup_1.
    rewrite list_lookup_alter in Hk. case_decide.
    + destruct (hostCalls w !! promise) as [c|] eqn:Hp; [| done].
      cbn in Hk. injection Hk as <-. cbn.
      apply Hcalls. by eapply list_elem_of_lookup_2.
    + apply Hcalls. by eapply list_elem_of_lookup_2.
  - rewrite Hh. intros b t [Hb | [_ Hnew]]%lookup_app_Some; [eauto |].
    destruct (b - length (heap w))%nat as [|n]; [| by destruct n].
    cbn in Hnew. injection Hnew as <-. cbn. rewrite <- Hlist. auto.
Qed.

(** ** The world after the constructors *)

Lemma initial_fields (clock : nat → Z) (cfg : Config) :
  heap (initial clock cfg) = []
  ∧ hostCalls (initial clock cfg) = []
  ∧ tasks (initial clock cfg) = JsMap.empty
  ∧ taskCounter (initial clock cfg) = 0%nat
  ∧ allowedCommands (initial clock cfg) = config_get (cfg_allowedCommands cfg) []
  ∧ isRunning (initial clock cfg) = true.
Proof.
  unfold initial, new_CommandExecutor, updateAllowedCommands, updateAsyncConfig,
    getTaskStats, getAllTasks, showMessage, clearAllTasks.
  unfold_m. cbn. by repeat (case_match; cbn).
Qed.

Lemma reachable_invariants (w : World) :
  reachable w → ids_issued w ∧ store_keyed w ∧ calls_match w.
Proof.
  intros (clock & cfg & events & ->).
  destruct (initial_fields clock cfg) as (Hh & Hc & Ht & Hn & _).
  pose proof (run_updates events (initial clock cfg)) as Hrun.
  split_and!.
  - eapply (invariant_updates false ids_issued); [apply ids_issued_update | done |].
    split; [by rewrite Hn, Hh |]. intros a t. by rewrite Hh.
  - eapply (invariant_updates false store_keyed); [apply store_keyed_update | done |].
    split; rewrite Ht; [constructor |]. intros k a Hin. by apply elem_of_nil in Hin.
  - eapply (invariant_updates false calls_match); [apply calls_match_update | done |].
    intros k call a. by rewrite Hc.
Qed.

(** ** Statistics *)

Lemma count_by_status (l : list BackgroundTask) :
  (length (List.filter (Task.has_status pending) l)
   + length (List.filter (Task.has_status running) l)
   + length (List.filter (Task.has_status completed) l)
   + length (List.filter (Task.has_status failed) l)
   + length (List.filter (Task.has_status cancelled) l))%nat
  = length l.
Proof.
  induction l as [|t l IH]; [done |].
  unfold Task.has_status in *. cbn [List.filter].
  destruct (Task.status t); repeat case_bool_decide; try done; cbn; lia.
Qed.

(** X1. The five counts of [getTaskStats] add up to its total, the total is
    the number of tasks that [getAllTasks] returns, and each count is the
    number of tasks that [getTasksByStatus] returns for that status. *)
Theorem stats_add_up (w : World) :
  let stats := eval getTaskStats w in
  (Stats.pending stats + Stats.running stats + Stats.completed stats
   + Stats.failed stats + Stats.cancelled stats)%nat = Stats.total stats
  ∧ Stats.total stats = length (eval getAllTasks w)
  ∧ Stats.pending stats = length (eval (getTasksByStatus pending) w)
  ∧ Stats.running stats = length (eval (getTasksByStatus running) w)
  ∧ Stats.completed stats = length (eval (getTasksByStatus completed) w)
  ∧ Stats.failed stats = length (eval (getTasksByStatus failed) w)
  ∧ Stats.cancelled stats = length (eval (getTasksByStatus cancelled) w)
  ∧ ∀ s t, t ∈ eval (getTasksByStatus s) w → Task.status t = s.
Proof.
  intros stats. split_and!; try done.
  - apply count_by_status.
  - intros s t Hin. unfold getTasksByStatus in Hin. unfold_m. cbn in Hin.
    apply list_elem_of_In, filter_In in Hin as [_ Hs].
    by apply bool_decide_eq_true in Hs.
Qed.

(** ** Submitting *)

Lemma submitTask_effect (command : string) (args : option (list JsValue))
    (delay : Z) (w : World) :
  let taskId := taskIdOf (S (taskCounter w)) (clock w (clockReads w)) in
  let task := Task.mk taskId command args delay pending
                (clock w (S (clockReads w))) None None None None in
  let w' := exec (submitTask command args delay) w in
  eval (submitTask command args delay) w = taskId
  ∧ heap w' = heap w ++ [task]
  ∧ tasks w' = JsMap.set taskId (length (heap w)) (tasks w)
  ∧ hostCalls w' = hostCalls w
  ∧ notifications w' = notifications w
  ∧ taskCounter w' = S (taskCounter w).
Proof. done. Qed.



Lemma getAllTasks_elem (w : World) (k : string) (a : nat) (t : BackgroundTask) :
  (k, a) ∈ tasks w → heap w !! a = Some t → t ∈ eval getAllTasks w.
Proof.
  intros Hin Ha. unfold getAllTasks. unfold_m. cbn.
  apply list_elem_of_omap. exists a. split; [| done].
  unfold JsMap.values. apply list_elem_of_fmap. by exists (k, a).
Qed.



Lemma getTask_Some (w : World) (k : string) (t : BackgroundTask) :
  eval (getTask k) w = Some t ↔
  ∃ a, JsMap.get k (tasks w) = Some a ∧ heap w !! a = Some t.
Proof.
  unfold getTask. unfold_m. cbn.
  destruct (JsMap.get k (tasks w)) as [a|]; cbn.
  - split; [eauto | by intros (a' & [= <-] & ?)].
  - split; [done | by intros (a' & ? & ?)].
Qed.

(** X3. The id that [submitTask] returns is new: no task is stored under
    it and no task object ever created carries it.  So the submission adds
    one entry to the store and every other task stays retrievable as it
    was. *)
Theorem submitted_id_is_fresh
    (w : World) (command : string) (args : option (list JsValue)) (delay : Z) :
  reachable w →
  let taskId := eval (submitTask command args delay) w in
  let w' := exec (submitTask command args delay) w in
  eval (getTask taskId) w = None
  ∧ (∀ a t, heap w !! a = Some t → Task.id t ≠ taskId)
  ∧ JsMap.size (tasks w') = S (JsMap.size (tasks w))
  ∧ (∀ k, k ≠ taskId → eval (getTask k) w' = eval (getTask k) w).
Proof.
  intros (Hids & Hkeyed & _)%reachable_invariants taskId w'.
  destruct Hids as [Hcount Hids]. destruct Hkeyed as [Hnd Hkeys].
  destruct (submitTask_effect command args delay w) as (Hid & Hh & Ht & _).
  fold taskId in Hid. fold w' in Hh, Ht. rewrite <- Hid in Ht.
  assert (∀ a t, heap w !! a = Some t → Task.id t ≠ taskId) as Hnew.
  { intros a t Ha Heq. destruct (Hids a t Ha) as (stamp & Hstamp).
    rewrite Hid, Hstamp in Heq. apply taskIdOf_counter_inj in Heq.
    apply lookup_lt_Some in Ha. lia. }
  assert (JsMap.get taskId (tasks w) = None) as Hfresh.
  { destruct (JsMap.get taskId (tasks w)) as [a|] eqn:Hget; [| done].
    apply JsMap_get_Some in Hget.
    destruct (Hkeys _ _ Hget) as (t & Ha & Heq). by destruct (Hnew a t Ha). }
  split_and!.
  - unfold getTask. unfold_m. cbn. by rewrite Hfresh.
  - exact Hnew.
  - rewrite Ht, JsMap_set_fresh by done. unfold JsMap.size.
    rewrite length_app. cbn. lia.
  - intros k Hk. unfold getTask. unfold_m. cbn -[submitTask].
    change ((submitTask command args delay w).2) with w'.
    rewrite Ht, JsMap_get_set_ne by done.
    destruct (JsMap.get k (tasks w)) as [a|] eqn:Hget; [| done]. cbn.
    apply JsMap_get_Some in Hget.
    destruct (Hkeys _ _ Hget) as (t & Ha & _).
    rewrite Hh, Ha. by apply lookup_app_l_Some.
Qed.

Lemma submitted_id_is_fresh_witness :
  let w := exec (run [ExecuteCommand "first" None; Tick])
                (initial (λ _, 1000) (mkConfig None None None None)) in
  eval (getTask (eval (submitTask "second" None 0) w)) w = None
  ∧ JsMap.size (tasks (exec (submitTask "second" None 0) w)) = 2%nat.
Proof.
  intros w.
  destruct (submitted_id_is_fresh w "second" None 0) as (Hnone & _ & Hsize & _).
  { by eexists _, _, _. }
  split; [exact Hnone | exact Hsize].
Defined.

(** ** The gate, from submission to the host *)

(** X4. What the background executor runs has passed the gate.  As long as
    the allow-list is not reloaded, every task created through
    [executeCommand], and every host call that the executor makes for a
    task, carries a command that the allow-list permits; and
    [executeCommand] itself hands a command to the host only if the
    allow-list permits it.  (Nothing is said about the entry points that
    call the host without consulting the allow-list, such as
    [executeWorkspaceCommand]: they create no task, and their calls belong
    to no task.) *)
Theorem queued_commands_pass_the_gate
    (clock : nat → Z) (cfg : Config) (events : list Event) :
  Forall (λ e, keeps_gate e = true) events →
  let allowed := config_get (cfg_allowedCommands cfg) [] in
  let w := exec (run events) (initial clock cfg) in
  allowedCommands w = allowed
  ∧ (∀ a t, heap w !! a = Some t →
       isCommandAllowed allowed (Task.command t) = true)
  ∧ (∀ call a, call ∈ hostCalls w → hc_owner call = Some a →
       isCommandAllowed allowed (hc_command call) = true)
  ∧ (∀ command args promise,
       eval (executeCommand command args) w = Awaiting promise →
       isCommandAllowed allowed command = true
       ∧ hostCalls (exec (executeCommand command args) w)
         = hostCalls w ++ [mkHostCall None command (default [] args) false]).
Proof.
  intros Hev allowed w.
  destruct (initial_fields clock cfg) as (Hh & Hc & _ & _ & Ha & _).
  assert (all_gated allowed w) as (Hl & Htasks & Hcalls).
  { eapply (invariant_updates true (all_gated allowed));
      [apply all_gated_update | by apply run_gated_updates |].
    split_and!; [done | |].
    - intros a t. by rewrite Hh.
    - intros call. rewrite Hc. by intros ?%elem_of_nil. }
  split_and!; [done | done | by auto |].
  intros command args promise.
  unfold executeCommand, vscode_commands_executeCommand. unfold_m. cbn.
  rewrite Hl.
  destruct (isCommandAllowed allowed command); cbn; [| done].
  by destruct (asyncExecution w).
Qed.

Lemma queued_commands_pass_the_gate_witness :
  let w := exec (run [ExecuteCommand "a.run" None; ExecuteCommand "rm" None; Tick;
                      ConfigurationChanged (mkConfig None (Some false) None None);
                      UpdateAsyncConfig; ExecuteCommand "a.stop" None;
                      ExecuteCommand "rm" None])
                (initial (λ n, Z.of_nat n) (mkConfig (Some ["a.*"]) None None None)) in
  allowedCommands w = ["a.*"]
  ∧ Forall (λ t, isCommandAllowed ["a.*"] (Task.command t) = true) (heap w)
  ∧ hc_command <$> hostCalls w = ["a.run"; "a.stop"].
Proof.
  intros w.
  destruct (queued_commands_pass_the_gate
              (λ n, Z.of_nat n) (mkConfig (Some ["a.*"]) None None None)
              [ExecuteCommand "a.run" None; ExecuteCommand "rm" None; Tick;
               ConfigurationChanged (mkConfig None (Some false) None None);
               UpdateAsyncConfig; ExecuteCommand "a.stop" None;
               ExecuteCommand "rm" None])
    as (Hallowed & Htasks & _); [repeat constructor |].
  split_and!; [exact Hallowed | | reflexivity].
  apply Forall_forall. intros t [a Ha]%list_elem_of_lookup_1.
  by apply (Htasks a).
Defined.

(** X5. A host call issued for a task carries the command and the
    arguments that the task was submitted with (no arguments when it was
    submitted without), and that task has left [pending]. *)
Theorem host_call_matches_task (w : World) (k : nat) (call : HostCall) (a : nat) :
  reachable w →
  hostCalls w !! k = Some call →
  hc_owner call = Some a →
  ∃ t, heap w !! a = Some t
    ∧ hc_command call = Task.command t
    ∧ hc_args call = default [] (Task.args t)
    ∧ Task.status t ≠ pending.
Proof.
  intros Hw Hk Ho.
  destruct (reachable_invariants w Hw) as (_ & _ & Hcm).
  destruct (Hcm k call a Hk Ho) as (t & Ha & Hc & Hargs).
  exists t. split_and!; [done..|].
  destruct (wf_reachable w Hw) as [_ Hown].
  destruct (Hown a) as (t' & Ha' & Hs); [by eapply owner_in_log | congruence].
Qed.

Lemma host_call_matches_task_witness :
  let w := exec (run [ExecuteCommand "a.run" (Some [JsString "x"]); Tick])
                (initial (λ n, Z.of_nat n) (mkConfig None None None None)) in
  ∃ t, heap w !! 0%nat = Some t
    ∧ "a.run" = Task.command t
    ∧ [JsString "x"] = default [] (Task.args t)
    ∧ Task.status t ≠ pending.
Proof.
  intros w.
  apply (host_call_matches_task w 0
           (mkHostCall (Some 0%nat) "a.run" [JsString "x"] false) 0).
  - by eexists _, _, _.
  - reflexivity.
  - reflexivity.
Defined.

(** ** Cancelling, edge cases *)

(** X6. [cancelTask] refuses, returning [false] and changing nothing, when
    no task is stored under the id or when the task is already completed,
    failed or cancelled.  A running task is marked cancelled and
    [completedAt] is set, but its host call is neither withdrawn nor
    settled. *)
Theorem cancelTask_edge_cases (w : World) (taskId : string) :
  (eval (getTask taskId) w = None →
   eval (cancelTask taskId) w = false ∧ exec (cancelTask taskId) w = w)
  ∧ (∀ t, eval (getTask taskId) w = Some t → Task.is_terminal t = true →
     eval (cancelTask taskId) w = false ∧ exec (cancelTask taskId) w = w)
  ∧ (∀ t, eval (getTask taskId) w = Some t → Task.status t = running →
     eval (cancelTask taskId) w = true
     ∧ eval (getTask taskId) (exec (cancelTask taskId) w)
       = Some (Task.with_completedAt (clock w (clockReads w))
                 (Task.with_status cancelled t))
     ∧ hostCalls (exec (cancelTask taskId) w) = hostCalls w).
Proof.
  unfold getTask, cancelTask, assign, Date_now, deref. unfold_m. cbn.
  destruct (JsMap.get taskId (tasks w)) as [a|] eqn:Hget; cbn.
  2: { split_and!; [done | intros t [=] | intros t [=]]. }
  destruct (heap w !! a) as [task|] eqn:Ha; cbn.
  2: { split_and!; [done | intros t [=] | intros t [=]]. }
  split_and!.
  - done.
  - intros t [= <-] Hterm. unfold Task.is_terminal, Task.has_status in *.
    destruct (Task.status task); try done;
      repeat case_bool_decide; try done.
  - intros t [= <-] Hrun. unfold Task.has_status. rewrite Hrun.
    repeat case_bool_decide; try done. cbn. rewrite Hget. cbn.
    by rewrite !list_lookup_alter_eq, Ha.
Qed.

Lemma cancelTask_edge_cases_witness :
  let w := exec (run [ExecuteCommand "a.run" None; Tick])
                (initial (λ n, 1000 + Z.of_nat n) (mkConfig None None None None)) in
  (eval (cancelTask "no such id") w = false ∧ exec (cancelTask "no such id") w = w)
  ∧ eval (cancelTask "bg_task_1_1000") w = true.
Proof.
  intros w.
  destruct (cancelTask_edge_cases w "no such id") as (Hunknown & _ & _).
  destruct (cancelTask_edge_cases w "bg_task_1_1000") as (_ & _ & Hrunning).
  split.
  - apply Hunknown. reflexivity.
  - apply (Hrunning (Task.mk "bg_task_1_1000" "a.run" None 0 running 1001
                       (Some 1003) None None None)); reflexivity.
Defined.

(** ** Clearing *)

Lemma filter_filter_bool {A} (p q : A → bool) (l : list A) :
  List.filter p (List.filter q l) = List.filter (λ x, q x && p x) l.
Proof.
  induction l as [|x l IH]; [done |]. cbn.
  destruct (q x); cbn; [destruct (p x); by rewrite IH | done].
Qed.

Lemma forEach_delete_effect (ts : list BackgroundTask) (w : World) :
  let w' := exec (forEach
      (λ task, modify (λ w, set_tasks (JsMap.delete (Task.id task) (tasks w)) w))
      ts) w in
  tasks w' = fold_left (λ m t, JsMap.delete (Task.id t) m) ts (tasks w)
  ∧ heap w' = heap w
  ∧ isRunning w' = isRunning w.
Proof.
  revert w. induction ts as [|t ts IH]; intros w; [done |].
  cbn zeta. rewrite exec_forEach_cons.
  destruct (IH (exec (modify (λ w, set_tasks (JsMap.delete (Task.id t) (tasks w)) w)) w))
    as (-> & -> & ->).
  done.
Qed.

Lemma fold_delete_filter (ts : list BackgroundTask) (m : JsMap.t) :
  NoDup (map fst m) →
  fold_left (λ m t, JsMap.delete (Task.id t) m) ts m
  = List.filter (λ e, negb (existsb (λ t, String.eqb (Task.id t) e.1) ts)) m.
Proof.
  revert m. induction ts as [|t ts IH]; intros m Hnd; cbn.
  - induction m as [|e m IHm]; [done |]. cbn. f_equal. apply IHm.
    by apply NoDup_cons in Hnd as [_ ?].
  - rewrite JsMap_delete_filter by done.
    rewrite IH by by apply NoDup_keys_filter.
    rewrite filter_filter_bool. apply filter_ext. intros [k a]. cbn.
    by rewrite negb_orb.
Qed.

(** With each task stored under its own id, the entries that
    [clearCompletedTasks] deletes are those of the terminal tasks. *)
Lemma clearCompletedTasks_tasks (w : World) :
  store_keyed w →
  tasks (exec clearCompletedTasks w)
  = List.filter
      (λ e, negb (default false (Task.is_terminal <$> heap w !! e.2))) (tasks w)
  ∧ heap (exec clearCompletedTasks w) = heap w.
Proof.
  intros [Hnd Hkeys].
  unfold clearCompletedTasks. rewrite !exec_bind.
  change (exec (mret _) ?w') with w'.
  change (exec getAllTasks w) with w.
  destruct (forEach_delete_effect
              (List.filter Task.is_terminal (eval getAllTasks w)) w) as (-> & -> & _).
  split; [| done].
  rewrite fold_delete_filter by done.
  apply filter_ext_in. intros [k a] Hin%list_elem_of_In. cbn. f_equal.
  destruct (Hkeys k a Hin) as (t & Ha & Hid). rewrite Ha. cbn.
  destruct (Task.is_terminal t) eqn:Hterm.
  - apply existsb_exists. exists t. split; [| by apply String.eqb_eq].
    apply filter_In. split; [| done].
    apply list_elem_of_In. by eapply getAllTasks_elem.
  - apply not_true_is_false. intros (t' & Hin' & Heq)%existsb_exists.
    apply filter_In in Hin' as [Hin' Hterm'].
    apply String.eqb_eq in Heq.
    apply list_elem_of_In in Hin'. unfold getAllTasks in Hin'. unfold_m.
    cbn in Hin'. apply list_elem_of_omap in Hin' as (a' & Ha'in & Ha').
    apply list_elem_of_fmap in Ha'in as ([k' a''] & -> & Hin'').
    cbn in Ha'. destruct (Hkeys k' a'' Hin'') as (t'' & Ht'' & Hid'').
    assert (t'' = t') as -> by congruence.
    assert (k' = k) as -> by congruence.
    assert (a'' = a) as ->.
    { apply (JsMap_elem_get _ _ _ Hnd) in Hin, Hin''. congruence. }
    congruence.
Qed.

Lemma getAllTasks_filter (h : list BackgroundTask) (m : JsMap.t) :
  omap (λ a, h !! a)
    (map snd (List.filter
                (λ e, negb (default false (Task.is_terminal <$> h !! e.2))) m))
  = List.filter (λ t, negb (Task.is_terminal t)) (omap (λ a, h !! a) (map snd m)).
Proof.
  induction m as [|[k a] m IH]; [done |]. cbn.
  destruct (h !! a) as [t|] eqn:Ha; cbn.
  - destruct (Task.is_terminal t); cbn; [done |]. by rewrite Ha, IH.
  - by rewrite Ha.
Qed.

Lemma count_terminal (l : list BackgroundTask) :
  length (List.filter Task.is_terminal l)
  = (length (List.filter (Task.has_status completed) l)
     + length (List.filter (Task.has_status failed) l)
     + length (List.filter (Task.has_status cancelled) l))%nat.
Proof.
  induction l as [|t l IH]; [done |].
  unfold Task.has_status, Task.is_terminal in *. cbn [List.filter].
  destruct (Task.status t); repeat case_bool_decide; try done; cbn; lia.
Qed.

Lemma getTaskStats_eval (w : World) :
  eval getTaskStats w
  = let all := eval getAllTasks w in
    let count s := length (List.filter (Task.has_status s) all) in
    Stats.mk (length all) (count pending) (count running)
             (count completed) (count failed) (count cancelled).
Proof. reflexivity. Qed.

Lemma clearCompletedTasks_getAllTasks (w : World) :
  store_keyed w →
  eval getAllTasks (exec clearCompletedTasks w)
  = List.filter (λ t, negb (Task.is_terminal t)) (eval getAllTasks w).
Proof.
  intros Hkeyed. destruct (clearCompletedTasks_tasks w Hkeyed) as [Ht Hh].
  set (w' := exec clearCompletedTasks w) in *.
  unfold getAllTasks, JsMap.values. unfold_m. cbn.
  rewrite Ht, Hh. apply getAllTasks_filter.
Qed.

(** X7. [clearCompletedTasks] removes exactly the completed, failed and
    cancelled tasks and returns how many they were: afterwards
    [getAllTasks] returns the pending and running tasks, in the order they
    had, each of them is found under its id as before, and a removed task
    is not found any more.  Task objects and host calls are not touched. *)
Theorem clearCompletedTasks_removes_terminal_tasks (w : World) :
  reachable w →
  let w' := exec clearCompletedTasks w in
  eval getAllTasks w'
  = List.filter (λ t, negb (Task.is_terminal t)) (eval getAllTasks w)
  ∧ eval clearCompletedTasks w
    = length (List.filter Task.is_terminal (eval getAllTasks w))
  ∧ (∀ k t, eval (getTask k) w = Some t →
       eval (getTask k) w'
       = if Task.is_terminal t then None else Some t)
  ∧ heap w' = heap w
  ∧ hostCalls w' = hostCalls w.
Proof.
  intros (_ & Hkeyed & _)%reachable_invariants w'.
  destruct (clearCompletedTasks_tasks w Hkeyed) as [Ht Hh].
  destruct (clearCompletedTasks_untouched w) as (_ & _ & _ & Hc).
  destruct Hkeyed as [Hnd Hkeys]. fold w' in Ht, Hh, Hc.
  split_and!; [| done | | done | done].
  - unfold getAllTasks, JsMap.values. unfold_m. cbn.
    rewrite Ht, Hh. apply getAllTasks_filter.
  - intros k t (a & Hget & Ha)%getTask_Some.
    apply JsMap_get_Some in Hget as Hin.
    unfold getTask. unfold_m. cbn. rewrite Ht, Hh.
    destruct (Task.is_terminal t) eqn:Hterm.
    + assert (JsMap.get k (List.filter (λ e, negb (default false
                (Task.is_terminal <$> heap w !! e.2))) (tasks w)) = None) as ->;
        [| done].
      apply JsMap_get_None. intros ([k' a'] & Hk & Hin')%list_elem_of_fmap.
      cbn in Hk. subst k'.
      apply list_elem_of_In, filter_In in Hin' as [Hin' Hlive].
      apply list_elem_of_In in Hin'.
      apply (JsMap_elem_get _ _ _ Hnd) in Hin'. rewrite Hin' in Hget.
      injection Hget as ->. cbn in Hlive. rewrite Ha in Hlive. cbn in Hlive.
      by rewrite Hterm in Hlive.
    + rewrite (JsMap_elem_get k a); cbn; [done | by apply NoDup_keys_filter |].
      apply list_elem_of_In, filter_In. split; [by apply list_elem_of_In |].
      cbn. rewrite Ha. cbn. by rewrite Hterm.
Qed.

Lemma clearCompletedTasks_removes_terminal_tasks_witness :
  let w := exec (run [ExecuteCommand "first" None; Tick;
                      Settle 0 (Resolved JsNull); ExecuteCommand "second" None])
                (initial (λ n, 1000 + Z.of_nat n) (mkConfig None None None None)) in
  eval clearCompletedTasks w = 1%nat
  ∧ (Task.command <$> eval getAllTasks (exec clearCompletedTasks w)) = ["second"].
Proof.
  intros w.
  destruct (clearCompletedTasks_removes_terminal_tasks w) as (Hall & Hn & _).
  { by eexists _, _, _. }
  split.
  - rewrite Hn. reflexivity.
  - rewrite Hall. reflexivity.
Defined.

Lemma getAllTasks_length (w : World) :
  store_keyed w → length (eval getAllTasks w) = JsMap.size (tasks w).
Proof.
  intros [_ Hkeys]. unfold getAllTasks, JsMap.size, JsMap.values. unfold_m. cbn.
  induction (tasks w) as [|[k a] m IH]; [done |]. cbn.
  destruct (Hkeys k a) as (t & -> & _); [by left |]. cbn. f_equal.
  apply IH. intros k' a' Hin. apply Hkeys. by right.
Qed.

(** X8. The numbers that the clear operations return are those of the
    statistics: [clearAllTasks] returns the total and leaves all counts at
    zero; [clearCompletedTasks] returns completed + failed + cancelled and
    leaves the pending and running counts as they were. *)
Theorem clear_counts_agree_with_stats (w : World) :
  reachable w →
  let stats := eval getTaskStats w in
  (eval clearAllTasks w = Stats.total stats
   ∧ eval getTaskStats (exec clearAllTasks w) = Stats.mk 0 0 0 0 0 0)
  ∧ (eval clearCompletedTasks w
     = (Stats.completed stats + Stats.failed stats + Stats.cancelled stats)%nat
     ∧ eval getTaskStats (exec clearCompletedTasks w)
       = Stats.mk (Stats.pending stats + Stats.running stats)
                  (Stats.pending stats) (Stats.running stats) 0 0 0).
Proof.
  intros Hw stats.
  destruct (reachable_invariants w Hw) as (_ & Hkeyed & _).
  split; split.
  - cbn. symmetry. by apply (getAllTasks_length w).
  - done.
  - unfold clearCompletedTasks. unfold_m. cbn. apply count_terminal.
  - subst stats. rewrite !getTaskStats_eval. cbn zeta.
    rewrite (clearCompletedTasks_getAllTasks w Hkeyed).
    generalize (eval getAllTasks w). intros l.
    rewrite !filter_filter_bool.
    assert (∀ s, length (List.filter
                   (λ x, negb (Task.is_terminal x) && Task.has_status s x) l)
                 = match s with
                   | pending | running => length (List.filter (Task.has_status s) l)
                   | _ => 0%nat
                   end)
      as Hcount.
    { intros s. induction l as [|t l IH]; [by destruct s |].
      unfold Task.is_terminal, Task.has_status in *. cbn [List.filter].
      destruct (Task.status t), s; repeat case_bool_decide; try done;
        cbn in *; lia. }
    rewrite !Hcount. cbn. f_equal.
    assert (length (List.filter (λ t, negb (Task.is_terminal t)) l)
            = (length (List.filter (Task.has_status pending) l)
               + length (List.filter (Task.has_status running) l))%nat) as ->;
      [| done].
    clear Hcount. induction l as [|t l IH]; [done |].
    unfold Task.is_terminal, Task.has_status in *. cbn [List.filter].
    destruct (Task.status t); repeat case_bool_decide; try done; cbn; lia.
Qed.

Lemma clear_counts_agree_with_stats_witness :
  let w := exec (run [ExecuteCommand "first" None; Tick;
                      Settle 0 (Resolved JsNull); ExecuteCommand "second" None])
                (initial (λ n, 1000 + Z.of_nat n) (mkConfig None None None None)) in
  eval clearAllTasks w = 2%nat ∧ eval clearCompletedTasks w = 1%nat.
Proof.
  intros w.
  destruct (clear_counts_agree_with_stats w) as [[Hall _] [Hdone _]].
  { by eexists _, _, _. }
  split; [rewrite Hall | rewrite Hdone]; reflexivity.
Defined.

(** ** The listing and the gate *)

(** X9. A command name is listed by [getAvailableCommands] exactly when the
    host reported it and it passes the gate, whether the allow-list is empty
    or not.  When the host fails to report the commands the listing is
    empty, and [list_vscode_commands] answers with a list of no commands
    and no error flag. *)
Theorem listed_commands_pass_the_gate
    (allowed : list string) (reported : list string + Rejection) (c : string) :
  (c ∈ getAvailableCommands allowed reported
   ↔ ∃ names, reported = inl names ∧ c ∈ names ∧ isCommandAllowed allowed c = true)
  ∧ (∀ reason, getAvailableCommands allowed (inr reason) = [])
  ∧ (∀ reason,
       list_vscode_commands allowed (inr reason)
       = mkToolResult (PlainText ("可用命令 (0个):" +:+ newline)) None).
Proof.
  split_and!; [| done | done].
  destruct reported as [names | reason]; cbn.
  2: { split; [by intros ?%elem_of_nil | by intros (? & [=] & _)]. }
  rewrite Js_sort_Permutation.
  destruct allowed as [|entry allowed]; cbn [length Nat.ltb Nat.leb].
  - split; [intros Hin; by exists names | by intros (? & [= <-] & ? & _)].
  - rewrite list_elem_of_In, filter_In, <- list_elem_of_In. split.
    + intros [Hin Hok]. by exists names.
    + by intros (? & [= <-] & ? & ?).
Qed.

(** ** Escaping for the result pages *)

Lemma string_app_assoc (a b c : string) : (a +:+ b) +:+ c = a +:+ (b +:+ c).
Proof.
  induction a as [|x a IH]; [done |].
  unfold String.app in *. simpl. by rewrite IH.
Qed.

Lemma replaceAll_app (c : Ascii.ascii) (r a b : string) :
  replaceAll c r (a +:+ b) = replaceAll c r a +:+ replaceAll c r b.
Proof.
  induction a as [|x a IH]; [done |].
  change (String x a +:+ b) with (String x (a +:+ b)). cbn [replaceAll].
  rewrite IH. by rewrite string_app_assoc.
Qed.

Lemma escapeHtml_app (a b : string) :
  escapeHtml (a +:+ b) = escapeHtml a +:+ escapeHtml b.
Proof. unfold escapeHtml. by rewrite !replaceAll_app. Qed.

Lemma escapeHtml_cons (c : Ascii.ascii) (s : string) :
  escapeHtml (String c s) = escapeHtml (String c "") +:+ escapeHtml s.
Proof. by rewrite <- escapeHtml_app. Qed.

(** What [escapeHtml] makes of one character. *)
Lemma escapeHtml_char (c : Ascii.ascii) :
  (c = ampersand ∧ escapeHtml (String c "") = "&amp;")
  ∨ (c = lessThan ∧ escapeHtml (String c "") = "&lt;")
  ∨ (c = greaterThan ∧ escapeHtml (String c "") = "&gt;")
  ∨ (c = doubleQuote ∧ escapeHtml (String c "") = "&quot;")
  ∨ (c = singleQuote ∧ escapeHtml (String c "") = "&#39;")
  ∨ ((c ∉ [ampersand; lessThan; greaterThan; doubleQuote; singleQuote])
     ∧ escapeHtml (String c "") = String c "").
Proof.
  destruct c as [[] [] [] [] [] [] [] []];
    first [ by left
          | by right; left
          | by right; right; left
          | by right; right; right; left
          | by right; right; right; right; left
          | right; right; right; right; right; split; [| reflexivity];
            intros Hin; repeat (apply elem_of_cons in Hin as [[=] | Hin]);
            by apply elem_of_nil in Hin ].
Qed.

Lemma chars_app (a b : string) : chars (a +:+ b) = chars a ++ chars b.
Proof. induction a as [|x a IH]; [done |]. cbn. by rewrite <- IH. Qed.

(** X10. [escapeHtml] works character by character: it maps a
    concatenation to the concatenation of the images, the five special
    characters to their entities (an ampersand once: the entities written
    by the later replacements are not escaped again), and leaves any other
    character as it is.  Its result contains none of the characters
    [<], [>], double quote and single quote, and a text without special
    characters is returned unchanged. *)
Theorem escapeHtml_escapes (s : string) :
  (∀ a b, escapeHtml (a +:+ b) = escapeHtml a +:+ escapeHtml b)
  ∧ escapeHtml (String ampersand "") = "&amp;"
  ∧ escapeHtml (String lessThan "") = "&lt;"
  ∧ escapeHtml (String greaterThan "") = "&gt;"
  ∧ escapeHtml (String doubleQuote "") = "&quot;"
  ∧ escapeHtml (String singleQuote "") = "&#39;"
  ∧ (∀ c, c ∈ chars (escapeHtml s) →
       c ∉ [lessThan; greaterThan; doubleQuote; singleQuote])
  ∧ ((∀ c, c ∈ chars s →
        c ∉ [ampersand; lessThan; greaterThan; doubleQuote; singleQuote]) →
     escapeHtml s = s).
Proof.
  split_and!; try reflexivity.
  - apply escapeHtml_app.
  - induction s as [|x s IH]; intros c Hin; [by apply elem_of_nil in Hin |].
    rewrite escapeHtml_cons, chars_app in Hin.
    apply elem_of_app in Hin as [Hin | Hin]; [| by apply IH].
    destruct (escapeHtml_char x)
      as [[_ Hx] | [[_ Hx] | [[_ Hx] | [[_ Hx] | [[_ Hx] | [Hx1 Hx]]]]]];
      rewrite Hx in Hin; cbn in Hin.
    6: { apply list_elem_of_singleton in Hin as ->.
         intros Hc. apply Hx1. by right. }
    all: repeat (apply elem_of_cons in Hin as [-> | Hin]);
      try (by apply elem_of_nil in Hin);
      intros Hc; repeat (apply elem_of_cons in Hc as [[=] | Hc]);
      by apply elem_of_nil in Hc.
  - induction s as [|x s IH]; intros Hplain; [done |].
    rewrite escapeHtml_cons, IH.
    2: { intros c Hc. apply Hplain. by right. }
    destruct (escapeHtml_char x)
      as [[-> _] | [[-> _] | [[-> _] | [[-> _] | [[-> _] | [_ ->]]]]]];
      [exfalso; eapply Hplain; [by left |] .. | done].
    + by left.
    + right. by left.
    + right. right. by left.
    + right. right. right. by left.
    + right. right. right. right. by left.
Qed.

Lemma escapeHtml_escapes_witness :
  escapeHtml "a.run (x=1)" = "a.run (x=1)".
Proof.
  apply (escapeHtml_escapes "a.run (x=1)"). intros c Hc.
  cbn in Hc. repeat (apply elem_of_cons in Hc as [-> | Hc]);
    try (by apply elem_of_nil in Hc);
    intros Hin; repeat (apply elem_of_cons in Hin as [[=] | Hin]);
    by apply elem_of_nil in Hin.
Defined.

(** X11. [escapeHtml] loses nothing: two texts with the same escaped form
    are the same text. *)
Theorem escapeHtml_injective (s s' : string) :
  escapeHtml s = escapeHtml s' → s = s'.
Proof.
  revert s'. induction s as [|x s IH]; intros [|y s'].
  - done.
  - rewrite escapeHtml_cons.
    destruct (escapeHtml_char y)
      as [[_ Hy] | [[_ Hy] | [[_ Hy] | [[_ Hy] | [[_ Hy] | [_ Hy]]]]]];
      rewrite Hy; discriminate.
  - rewrite escapeHtml_cons.
    destruct (escapeHtml_char x)
      as [[_ Hx] | [[_ Hx] | [[_ Hx] | [[_ Hx] | [[_ Hx] | [_ Hx]]]]]];
      rewrite Hx; discriminate.
  - rewrite (escapeHtml_cons x), (escapeHtml_cons y).
    destruct (escapeHtml_char x)
      as [[Hx1 Hx] | [[Hx1 Hx] | [[Hx1 Hx] | [[Hx1 Hx] | [[Hx1 Hx] | [Hx1 Hx]]]]]];
      destruct (escapeHtml_char y)
      as [[Hy1 Hy] | [[Hy1 Hy] | [[Hy1 Hy] | [[Hy1 Hy] | [[Hy1 Hy] | [Hy1 Hy]]]]]];
      rewrite Hx, Hy; cbn; intros Heq;
      try discriminate Heq;
      try (injection Heq as Heq; subst; f_equal; by apply IH).
    all: exfalso; injection Heq as Hc _;
      first [ apply Hx1; rewrite Hc; by left
            | apply Hy1; rewrite <- Hc; by left ].
Qed.

Lemma escapeHtml_injective_witness :
  "<b>" = "<b>".
Proof. apply (escapeHtml_injective "<b>" "<b>"). reflexivity. Defined.

(** ** Calling a tool by name *)

(** X12. [callTool] handles exactly the tools that [getTools] advertises:
    it throws [Unknown tool: name], changing nothing, exactly for the other
    names.  Unlike the tool [execute_vscode_command] it does not catch the
    refusal of the gate: a refused command makes it throw where the tool
    answers with an error result; in every other case it answers and
    changes the world as the tool does. *)
Theorem callTool_dispatch
    (name command : string) (cmdArgs : option (list string))
    (reported : list string + Rejection) (ws : Workspace) (w : World) :
  let call name := callTool name command ((λ l : list string, JsString <$> l) <$> cmdArgs) reported ws in
  (eval (call name) w = Threw ("Unknown tool: " +:+ name) ↔ name ∉ getTools)
  ∧ (name ∉ getTools → exec (call name) w = w)
  ∧ exec (call "execute_vscode_command") w
    = exec (execute_vscode_command command cmdArgs) w
  ∧ (isCommandAllowed (allowedCommands w) command = false →
     eval (call "execute_vscode_command") w = Threw (notAllowedMessage command)
     ∧ eval (execute_vscode_command command cmdArgs) w
       = Returned (mkToolResult
                     (PlainText ("命令执行失败: " +:+ notAllowedMessage command))
                     (Some true)))
  ∧ (isCommandAllowed (allowedCommands w) command = true →
     match eval (execute_vscode_command command cmdArgs) w with
     | Returned r => eval (call "execute_vscode_command") w = Returned (CommandAnswer r)
     | Awaiting promise => eval (call "execute_vscode_command") w = Awaiting promise
     | Threw _ => False
     end)
  ∧ eval (call "list_vscode_commands") w
    = Returned (CommandAnswer (list_vscode_commands (allowedCommands w) reported))
  ∧ exec (call "list_vscode_commands") w = w
  ∧ eval (call "get_workspace_info") w
    = Returned (WorkspaceAnswer (workspaceInfoOf ws))
  ∧ exec (call "get_workspace_info") w = w.
Proof.
  intros call.
  assert ((λ l : list string, JsString <$> l) <$> cmdArgs = None → cmdArgs = None) as Hnone
    by by destruct cmdArgs.
  assert (default [] ((λ l : list string, JsString <$> l) <$> cmdArgs) = JsString <$> default [] cmdArgs)
    as Hargs by by destruct cmdArgs.
  split_and!; try done.
  - subst call. cbn beta. unfold callTool, getTools.
    destruct (String.eqb name "execute_vscode_command") eqn:E1.
    { apply String.eqb_eq in E1 as ->. split.
      - unfold executeCommand. unfold_m. cbn.
        destruct (isCommandAllowed (allowedCommands w) command); cbn.
        + destruct (asyncExecution w); cbn; discriminate.
        + discriminate.
      - intros Hnot. exfalso. apply Hnot. by left. }
    destruct (String.eqb name "list_vscode_commands") eqn:E2.
    { apply String.eqb_eq in E2 as ->. split; [discriminate |].
      intros Hnot. exfalso. apply Hnot. right. by left. }
    destruct (String.eqb name "get_workspace_info") eqn:E3.
    { apply String.eqb_eq in E3 as ->. split; [discriminate |].
      intros Hnot. exfalso. apply Hnot. right. right. by left. }
    split; [intros _ | done].
    apply String.eqb_neq in E1, E2, E3.
    intros Hin. repeat (apply elem_of_cons in Hin as [-> | Hin]); try done.
    by apply elem_of_nil in Hin.
  - intros Hnot. subst call. cbn beta. unfold callTool.
    destruct (String.eqb name "execute_vscode_command") eqn:E1.
    { apply String.eqb_eq in E1 as ->. exfalso. apply Hnot. by left. }
    destruct (String.eqb name "list_vscode_commands") eqn:E2.
    { apply String.eqb_eq in E2 as ->. exfalso. apply Hnot. right. by left. }
    destruct (String.eqb name "get_workspace_info") eqn:E3.
    { apply String.eqb_eq in E3 as ->. exfalso. apply Hnot. right. right. by left. }
    done.
  - subst call. cbn beta. unfold callTool, execute_vscode_command.
    cbn [String.eqb Ascii.eqb Bool.eqb]. rewrite !exec_bind.
    change (exec (mret ?x) ?w') with w'. by rewrite Hargs.
  - intros Hrefused. subst call. cbn beta.
    unfold callTool, execute_vscode_command, executeCommand.
    cbn [String.eqb Ascii.eqb Bool.eqb]. unfold_m. cbn. by rewrite Hrefused.
  - intros Hallowed. subst call. cbn beta.
    unfold callTool, execute_vscode_command, executeCommand.
    cbn [String.eqb Ascii.eqb Bool.eqb]. unfold_m. cbn. rewrite Hallowed. cbn.
    rewrite Hargs. by destruct (asyncExecution w).
Qed.

Lemma callTool_dispatch_witness :
  let w := initial (λ n, 1000 + Z.of_nat n)
                   (mkConfig (Some ["a.*"]) None None None) in
  eval (callTool "run_anything" "rm" None (inl []) (mkWorkspace None None None)) w
  = Threw "Unknown tool: run_anything"
  ∧ eval (callTool "execute_vscode_command" "rm" None (inl [])
            (mkWorkspace None None None)) w
    = Threw "Command 'rm' is not allowed".
Proof.
  intros w.
  destruct (callTool_dispatch "run_anything" "rm" None (inl [])
              (mkWorkspace None None None) w)
    as (Hunknown & _ & _ & Hrefused & _).
  split.
  - apply Hunknown. intros Hin.
    repeat (apply elem_of_cons in Hin as [[=] | Hin]). by apply elem_of_nil in Hin.
  - apply Hrefused. reflexivity.
Defined.

(** ** Workspace commands *)

(** X13. [executeWorkspaceCommand] does not go through the gate.  Without
    a workspace folder it returns a failure and calls nothing; with one it
    hands the command to the host at once, with the given arguments: also a
    command that [executeCommand] refuses, and also while asynchronous
    execution is enabled (no task is created).  Its result reports the
    folders on success only. *)
Theorem executeWorkspaceCommand_bypasses_the_gate
    (folders : option (list string)) (command : string)
    (args : option (list JsValue)) (w : World) :
  let m := executeWorkspaceCommand folders command args in
  ((folders = None ∨ folders = Some []) →
     eval m w = Returned (WorkspaceReply.mk false None
                            (Some "No workspace folders available")
                            command args None)
     ∧ exec m w = w)
  ∧ (∀ folder rest, folders = Some (folder :: rest) →
       eval m w = Awaiting (length (hostCalls w))
       ∧ hostCalls (exec m w)
         = hostCalls w ++ [mkHostCall None command (default [] args) false]
       ∧ heap (exec m w) = heap w
       ∧ tasks (exec m w) = tasks w
       ∧ (isCommandAllowed (allowedCommands w) command = false →
          eval (executeCommand command args) w = Threw (notAllowedMessage command)
          ∧ hostCalls (exec (executeCommand command args) w) = hostCalls w)
       ∧ ∀ outcome,
           let r := executeWorkspaceCommand_settled (folder :: rest) command args
                      outcome in
           (WorkspaceReply.success r = true ↔ ∃ value, outcome = Resolved value)
           ∧ (WorkspaceReply.workspaceFolders r
              = if WorkspaceReply.success r then Some (folder :: rest) else None)).
Proof.
  intros m. split.
  - by intros [-> | ->].
  - intros folder rest ->. split_and!; try done.
    + intros Hrefused. unfold executeCommand. unfold_m. cbn.
      by rewrite Hrefused.
    + intros [value | reason]; cbn; split; try done.
      * split; [by eexists | done].
      * split; [done | by intros [? [=]]].
Qed.

Lemma executeWorkspaceCommand_bypasses_the_gate_witness :
  let w := initial (λ n, 1000 + Z.of_nat n)
                   (mkConfig (Some ["a.*"]) None None None) in
  eval (executeCommand "rm" None) w = Threw "Command 'rm' is not allowed"
  ∧ hostCalls (exec (executeWorkspaceCommand (Some ["/home/project"]) "rm" None) w)
    = [mkHostCall None "rm" [] false]
  ∧ exec (executeWorkspaceCommand None "rm" None) w = w.
Proof.
  intros w.
  destruct (executeWorkspaceCommand_bypasses_the_gate (Some ["/home/project"])
              "rm" None w) as [_ Hfolders].
  destruct (Hfolders "/home/project" [] eq_refl)
    as (_ & Hcalls & _ & _ & Hgate & _).
  destruct (executeWorkspaceCommand_bypasses_the_gate None "rm" None w)
    as [Hnone _].
  split_and!.
  - apply Hgate. reflexivity.
  - rewrite Hcalls. reflexivity.
  - apply Hnone. by left.
Defined.

(** ** What the operator is told *)

(** X14. When the host settles the call of a task, the failure is always
    shown to the operator as an error, whatever the configuration says; the
    success is shown only when [showAsyncNotifications] is set (it is off by
    default).  Either message names the command that was handed to the
    host.  The settlement of a synchronous call shows nothing and changes
    no task. *)
Theorem settlement_is_reported
    (w : World) (promise : nat) (call : HostCall) (outcome : Settlement) :
  reachable w →
  hostCalls w !! promise = Some call →
  hc_settled call = false →
  let w' := exec (settle promise outcome) w in
  match hc_owner call, outcome with
  | None, _ => notifications w' = notifications w ∧ heap w' = heap w
  | Some _, Rejected reason =>
      notifications w'
      = notifications w
        ++ [mkNotification Error
              ("后台任务执行失败: " +:+ hc_command call
                 +:+ " - " +:+ errorMessage reason)]
  | Some _, Resolved _ =>
      notifications w'
      = notifications w
        ++ (if config_get (cfg_showAsyncNotifications (config w)) false
            then [mkNotification Information (hc_command call +:+ " Done")]
            else [])
  end.
Proof.
  intros (_ & _ & Hmatch)%reachable_invariants Hk Hunsettled w'.
  subst w'. unfold settle. rewrite exec_bind.
  change (eval (gets hostCalls) w) with (hostCalls w).
  change (exec (gets hostCalls) w) with w.
  rewrite Hk, Hunsettled. rewrite exec_bind.
  destruct (hc_owner call) as [a|] eqn:Ho; [| by destruct outcome].
  destruct (Hmatch promise call a Hk Ho) as (t & Ha & -> & _).
  destruct outcome as [value | reason].
  - unfold executeTask_fulfilled, assign, Date_now, showMessage, deref.
    unfold_m. cbn. rewrite !list_lookup_alter_eq, Ha. cbn.
    destruct (config_get _ _); cbn; [done | by rewrite app_nil_r].
  - unfold executeTask_rejected, assign, Date_now, showMessage, deref.
    unfold_m. cbn. by rewrite !list_lookup_alter_eq, Ha.
Qed.

Lemma settlement_is_reported_witness :
  let w := exec (run [ExecuteCommand "a.run" None; Tick])
                (initial (λ n, 1000 + Z.of_nat n) (mkConfig None None None None)) in
  notifications (exec (settle 0 (Rejected (ErrorInstance "no such command"))) w)
  = [mkNotification Error "后台任务执行失败: a.run - no such command"]
  ∧ notifications (exec (settle 0 (Resolved JsNull)) w) = [].
Proof.
  intros w.
  assert (reachable w) as Hw by by eexists _, _, _.
  split.
  - apply (settlement_is_reported w 0 (mkHostCall (Some 0%nat) "a.run" [] false)
             (Rejected (ErrorInstance "no such command")) Hw);
      reflexivity.
  - apply (settlement_is_reported w 0 (mkHostCall (Some 0%nat) "a.run" [] false)
             (Resolved JsNull) Hw);
      reflexivity.
Defined.

(** ** Refreshing the asynchronous configuration *)

(** X15. [updateAsyncConfig] takes both settings from the configuration,
    with asynchronous execution on and a delay of 0 as defaults.  It
    touches the store and warns the operator only when asynchronous
    execution is off, the executor exists and at least one task is pending;
    task objects, host calls and the scheduler are never touched.  Once
    asynchronous execution is off, an allowed command is handed to the host
    at once and no task is created for it. *)
Theorem updateAsyncConfig_effect (w : World) :
  let w' := exec updateAsyncConfig w in
  asyncExecution w' = config_get (cfg_asyncExecution (config w)) true
  ∧ executionDelay w' = config_get (cfg_executionDelay (config w)) 0
  ∧ heap w' = heap w
  ∧ hostCalls w' = hostCalls w
  ∧ isRunning w' = isRunning w
  ∧ allowedCommands w' = allowedCommands w
  ∧ ((asyncExecution w' = true ∨ backgroundExecutor w = false
      ∨ Stats.pending (eval getTaskStats w) = 0%nat) →
     tasks w' = tasks w ∧ notifications w' = notifications w)
  ∧ (asyncExecution w' = false →
     ∀ command args,
       isCommandAllowed (allowedCommands w) command = true →
       eval (executeCommand command args) w' = Awaiting (length (hostCalls w))
       ∧ hostCalls (exec (executeCommand command args) w')
         = hostCalls w ++ [mkHostCall None command (default [] args) false]
       ∧ heap (exec (executeCommand command args) w') = heap w
       ∧ tasks (exec (executeCommand command args) w') = tasks w').
Proof.
  intros w'.
  assert (asyncExecution w' = config_get (cfg_asyncExecution (config w)) true
          ∧ executionDelay w' = config_get (cfg_executionDelay (config w)) 0
          ∧ isRunning w' = isRunning w
          ∧ allowedCommands w' = allowedCommands w) as (Ha & Hd & Hr & Hal).
  { subst w'. unfold updateAsyncConfig, showMessage, clearAllTasks. unfold_m. cbn.
    repeat (case_if; cbn); done. }
  destruct (updateAsyncConfig_untouched w) as (_ & _ & Hh & Hc).
  fold w' in Hh, Hc.
  split_and!; try done.
  - intros Hquiet. subst w'.
    unfold updateAsyncConfig, showMessage, clearAllTasks, getTaskStats,
      getAllTasks, JsMap.values in *.
    unfold_m. cbn in *.
    destruct (config_get (cfg_asyncExecution (config w)) true); cbn in *; [done |].
    destruct (backgroundExecutor w); cbn in *; [| done].
    destruct Hquiet as [Hq | [Hq | Hq]]; [| done |].
    + exfalso. revert Hq. by repeat (case_if; cbn).
    + by rewrite Hq.
  - intros Hoff command args Hallowed.
    unfold executeCommand, vscode_commands_executeCommand. unfold_m. cbn.
    rewrite Hal, Hallowed. cbn. rewrite Hoff. cbn. by rewrite Hc, Hh.
Qed.

Lemma updateAsyncConfig_effect_witness :
  let w := exec (run [ExecuteCommand "a.run" None; Tick;
                      ConfigurationChanged (mkConfig None (Some false) None None)])
                (initial (λ n, 1000 + Z.of_nat n) (mkConfig None None None None)) in
  tasks (exec updateAsyncConfig w) = tasks w
  ∧ notifications (exec updateAsyncConfig w) = notifications w
  ∧ eval (executeCommand "b.run" None) (exec updateAsyncConfig w) = Awaiting 1%nat.
Proof.
  intros w.
  destruct (updateAsyncConfig_effect w) as (_ & _ & _ & _ & _ & _ & Hquiet & Hsync).
  destruct Hquiet as [Ht Hn]; [right; right; reflexivity |].
  split_and!; [done | done |].
  apply Hsync; reflexivity.
Defined.

(** ** What an event does to the task objects *)

(** Apart from a tick, an event leaves the task objects alone, creates one
    pending task, or writes a status other than [running] to the task whose
    host call it settles or that it cancels. *)
Lemma step_heap (e : Event) (w : World) :
  e ≠ Tick →
  heap (exec (step e) w) = heap w
  ∨ (∃ t, heap (exec (step e) w) = heap w ++ [t] ∧ Task.status t = pending)
  ∨ (∃ a f,
       heap (exec (step e) w) = alter f a (heap w)
       ∧ (∀ t, Task.status (f t) ≠ running)
       ∧ ((∃ promise outcome call,
             e = Settle promise outcome
             ∧ hostCalls w !! promise = Some call
             ∧ hc_owner call = Some a ∧ hc_settled call = false)
          ∨ (∃ taskId, e = CancelTask taskId
                       ∧ JsMap.get taskId (tasks w) = Some a))).
Proof.
  intros Hne. destruct e; cbn [step]; try done.
  - unfold executeCommand. rewrite !exec_bind.
    change (eval (gets allowedCommands) w) with (allowedCommands w).
    change (exec (gets allowedCommands) w) with w.
    destruct (isCommandAllowed (allowedCommands w) command); cbn [negb]; [| by left].
    rewrite !exec_bind.
    change (eval (gets asyncExecution) w) with (asyncExecution w).
    change (exec (gets asyncExecution) w) with w.
    destruct (asyncExecution w); [| by left].
    right; left. by eexists.
  - right; left. by eexists.
  - unfold settle. rewrite !exec_bind.
    change (eval (gets hostCalls) w) with (hostCalls w).
    change (exec (gets hostCalls) w) with w.
    destruct (hostCalls w !! promise) as [call|] eqn:Hk; [| by left].
    destruct (hc_settled call) eqn:Hs; [by left |].
    rewrite exec_bind. set (w1 := exec (modify _) w).
    destruct (hc_owner call) as [a|] eqn:Ho; [| by left].
    right; right. destruct outcome as [value | reason].
    + destruct (executeTask_fulfilled_effect a value w1) as (_ & _ & _ & Hh).
      exists a, (λ t, Task.with_result value
                        (Task.with_completedAt (clock w (clockReads w))
                           (Task.with_status completed t))).
      split_and!; [| done | left; by eexists _, _, _].
      rewrite Hh. cbn. by rewrite !list_alter_alter_eq.
    + destruct (executeTask_rejected_effect a reason w1) as (_ & _ & _ & Hh).
      exists a, (λ t, Task.with_error (errorMessage reason)
                        (Task.with_completedAt (clock w (clockReads w))
                           (Task.with_status failed t))).
      split_and!; [| done | left; by eexists _, _, _].
      rewrite Hh. cbn. by rewrite !list_alter_alter_eq.
  - unfold cancelTask, assign, Date_now, deref. unfold_m. cbn.
    destruct (JsMap.get taskId (tasks w)) as [a|] eqn:Hget; cbn; [| by left].
    destruct (heap w !! a) as [task|]; cbn; [| by left].
    destruct (Task.has_status pending task || Task.has_status running task);
      cbn; [| by left].
    right; right.
    exists a, (λ t, Task.with_completedAt (clock w (clockReads w))
                      (Task.with_status cancelled t)).
    split_and!; [| done | right; by eexists].
    by rewrite !list_alter_alter_eq.
  - left. apply clearCompletedTasks_untouched.
  - left. apply clearAllTasks_untouched.
  - by left.
  - by left.
  - left. apply updateAsyncConfig_untouched.
  - left. apply stop_untouched.
  - left. apply dispose_untouched.
Qed.

(** Only a tick of a running executor puts a task into [running]. *)
Lemma step_no_start (e : Event) (w : World) (a : nat) (t : BackgroundTask) :
  (e = Tick → isRunning w = false) →
  heap (exec (step e) w) !! a = Some t → Task.status t = running →
  heap w !! a = Some t.
Proof.
  intros Hstopped Ha Hrun.
  assert (e = Tick ∨ e ≠ Tick) as [-> | Hne]
    by (destruct e; (by left) || (by right)).
  { cbn [step] in Ha. by rewrite stopped_tick in Ha by auto. }
  destruct (step_heap e w Hne) as [Hh | [(t0 & Hh & Hp) | (b & f & Hh & Hf & _)]];
    rewrite Hh in Ha.
  - done.
  - apply lookup_app_Some in Ha as [Ha | [_ Ha]]; [done |].
    apply list_lookup_singleton_Some in Ha as [_ <-]. congruence.
  - destruct (decide (b = a)) as [-> | Hba].
    + rewrite list_lookup_alter_eq in Ha.
      destruct (heap w !! a) as [t0|]; [| done].
      injection Ha as <-. by destruct (Hf t0).
    + by rewrite list_lookup_alter_ne in Ha.
Qed.

(** Nothing sets [isRunning] again. *)
Lemma isRunning_step (e : Event) (w : World) :
  isRunning w = false → isRunning (exec (step e) w) = false.
Proof.
  intros Hr. destruct e; cbn [step].
  - unfold executeCommand, submitTask, vscode_commands_executeCommand, allocate,
      Date_now.
    unfold_m. cbn. repeat (case_if; cbn); done.
  - done.
  - by rewrite stopped_tick.
  - unfold settle, executeTask_fulfilled, executeTask_rejected, assign,
      Date_now, showMessage, deref.
    unfold_m. cbn. repeat (case_match; cbn); done.
  - unfold cancelTask, assign, Date_now, deref.
    unfold_m. cbn. repeat (case_match; cbn); done.
  - unfold clearCompletedTasks. rewrite !exec_bind.
    destruct (forEach_delete_effect
                (List.filter Task.is_terminal (eval getAllTasks w)) w)
      as (_ & _ & Hr').
    exact (eq_trans Hr' Hr).
  - done.
  - done.
  - done.
  - unfold updateAsyncConfig, showMessage, clearAllTasks. unfold_m. cbn.
    repeat (case_if; cbn); done.
  - apply stop_effect.
  - unfold dispose. rewrite !exec_bind. change (exec (mret _) ?w') with w'.
    apply stop_effect.
Qed.

Lemma stopped_step_owners (e : Event) (w : World) :
  isRunning w = false → owners (exec (step e) w) = owners w.
Proof.
  intros Hr.
  destruct (mv_owners _ _ (step_moves e w)) as (new & Ho & _ & Hnew).
  destruct new as [|a new]; [by rewrite app_nil_r in Ho |].
  destruct (Hnew a) as [(t & Ha & Hp) (t' & Ha' & Hrun)]; [by left |].
  apply step_no_start in Ha'; [congruence | done | done].
Qed.

(** ** A stopped executor *)

(** X16. Nothing restarts the executor: once [isRunning] is false it stays
    false through every later event, no task is handed to the host any
    more (also none that is submitted afterwards, and submissions are still
    accepted), and the only tasks in [running] are those that were running
    already. *)
Theorem stopped_executor_starts_nothing (w : World) (events : list Event) :
  isRunning w = false →
  let w' := exec (run events) w in
  isRunning w' = false
  ∧ owners w' = owners w
  ∧ ∀ a t, heap w' !! a = Some t → Task.status t = running → heap w !! a = Some t.
Proof.
  revert w. induction events as [|e events IH]; intros w Hr; [done |].
  cbn zeta. rewrite exec_run_cons.
  destruct (IH (exec (step e) w)) as (Hr' & Ho' & Hh'); [by apply isRunning_step |].
  split_and!; [done | by rewrite Ho', stopped_step_owners |].
  intros a t Ha Hrun. apply (step_no_start e); auto.
Qed.

Lemma stopped_executor_starts_nothing_witness :
  let w := exec (run [ExecuteCommand "a.run" None; Stop])
                (initial (λ n, 1000 + Z.of_nat n) (mkConfig None None None None)) in
  let w' := exec (run [ExecuteCommand "b.run" None; Tick; Tick]) w in
  isRunning w' = false ∧ owners w' = owners w.
Proof.
  intros w w'.
  destruct (stopped_executor_starts_nothing w
              [ExecuteCommand "b.run" None; Tick; Tick]) as (Hr & Ho & _);
    [reflexivity |].
  split; [exact Hr | exact Ho].
Defined.

(** ** A running task *)

(** X17. There is no timeout and no other way out of [running]: a running
    task object stays exactly as it is through every event, except the
    settlement of its own host call and the cancellation under an id that
    the store maps to it.  So it stays as it is through any number of
    events that are neither settlements nor cancellations. *)
Theorem running_task_is_left_alone (w : World) (a : nat) (t : BackgroundTask) :
  heap w !! a = Some t →
  Task.status t = running →
  (∀ e : Event,
     (∀ promise outcome call,
        e = Settle promise outcome → hostCalls w !! promise = Some call →
        hc_owner call ≠ Some a) →
     (∀ taskId, e = CancelTask taskId → JsMap.get taskId (tasks w) ≠ Some a) →
     heap (exec (step e) w) !! a = Some t)
  ∧ ∀ events : list Event,
      Forall (λ e, leaves_running e = true) events →
      heap (exec (run events) w) !! a = Some t.
Proof.
  intros Ha Hrun.
  assert (∀ (w : World) (e : Event),
            heap w !! a = Some t →
            (∀ promise outcome call,
               e = Settle promise outcome → hostCalls w !! promise = Some call →
               hc_owner call ≠ Some a) →
            (∀ taskId, e = CancelTask taskId → JsMap.get taskId (tasks w) ≠ Some a) →
            heap (exec (step e) w) !! a = Some t) as Hstep.
  { clear w Ha. intros w e Ha Hsettle Hcancel.
    assert (e = Tick ∨ e ≠ Tick) as [-> | Hne]
    by (destruct e; (by left) || (by right)).
    { destruct (tk_heap _ _ (processPendingTasks_ticks w) a t Ha)
        as (t' & Ha' & [-> | [Hp _]]); [done | congruence]. }
    destruct (step_heap e w Hne)
      as [Hh | [(t0 & Hh & Hp) | (b & f & Hh & Hf & Hwho)]]; rewrite Hh.
    - done.
    - by apply lookup_app_l_Some.
    - destruct (decide (b = a)) as [-> | Hba]; [| by rewrite list_lookup_alter_ne].
      exfalso.
      destruct Hwho as [(promise & outcome & call & -> & Hk & Ho & _)
                       | (taskId & -> & Hget)].
      + by eapply Hsettle.
      + by eapply Hcancel. }
  split; [intros e; by apply Hstep |].
  intros events. revert w Ha.
  induction events as [|e events IH]; intros w Ha Hev; [done |].
  apply Forall_cons in Hev as [He Hev].
  rewrite exec_run_cons. apply IH; [| done].
  apply Hstep; [done | |]; intros; subst e; discriminate He.
Qed.

Lemma running_task_is_left_alone_witness :
  let w := exec (run [ExecuteCommand "a.run" None; Tick])
                (initial (λ n, 1000 + Z.of_nat n) (mkConfig None None None None)) in
  (Task.status <$>
     heap (exec (run [Tick; UpdateAsyncConfig; ExecuteCommand "b.run" None;
                      Tick; Stop; ClearAllTasks]) w) !! 0%nat) = Some running.
Proof.
  intros w.
  destruct (running_task_is_left_alone w 0
              (Task.mk "bg_task_1_1000" "a.run" None 0 running 1001
                 (Some 1003) None None None)) as [_ Hrun];
    [reflexivity | reflexivity |].
  rewrite Hrun; [reflexivity |].
  repeat constructor.
Defined.

(** ** The order of a tick *)

Lemma StronglySorted_sublist {A} (R : relation A) (l k : list A) :
  l `sublist_of` k → StronglySorted R k → StronglySorted R l.
Proof.
  induction 1 as [|x l k Hsub IH|x l k Hsub IH]; intros Hk.
  - done.
  - apply StronglySorted_inv in Hk as [Hk Hx]. constructor; [auto |].
    apply List.Forall_forall. intros y Hy%list_elem_of_In.
    eapply List.Forall_forall in Hx; [exact Hx |].
    apply list_elem_of_In. by eapply elem_of_sublist.
  - apply StronglySorted_inv in Hk as [Hk _]. auto.
Qed.

Lemma processTask_owners (a : nat) (w : World) :
  ∃ new, owners (exec (processTask a) w) = owners w ++ new
         ∧ new `sublist_of` [a].
Proof.
  unfold processTask, executeTask. unfold_m. cbn.
  destruct (heap w !! a) as [t|] eqn:Ha; cbn;
    [| exists []; rewrite app_nil_r; split; [done | apply sublist_nil_l]].
  destruct (Task.has_status pending t) eqn:Hp; cbn;
    [| exists []; rewrite app_nil_r; split; [done | apply sublist_nil_l]].
  destruct (Z.geb _ _); cbn;
    [| exists []; rewrite app_nil_r; split; [done | apply sublist_nil_l]].
  rewrite Ha. cbn. rewrite Hp. cbn.
  exists [a]. unfold owners. cbn. by rewrite owners_snoc.
Qed.

Lemma forEach_processTask_owners (l : list nat) (w : World) :
  ∃ new, owners (exec (forEach processTask l) w) = owners w ++ new
         ∧ new `sublist_of` l.
Proof.
  revert w. induction l as [|a l IH]; intros w.
  - exists []. by rewrite app_nil_r.
  - rewrite exec_forEach_cons.
    destruct (processTask_owners a w) as (new1 & Ho1 & Hs1).
    destruct (IH (exec (processTask a) w)) as (new2 & Ho2 & Hs2).
    exists (new1 ++ new2). split.
    + by rewrite Ho2, Ho1, app_assoc.
    + by apply (sublist_app new1 [a] new2 l).
Qed.

(** The sort by [createdAt] keeps the tasks with one and the same
    [createdAt] in the order they had. *)
Lemma Js_insert_createdAt (h : list BackgroundTask) (created : Z)
    (x : nat) (l : list nat) :
  List.filter (λ a, createdAtOf h a =? created) (Js.insert (createdAt_le h) x l)
  = List.filter (λ a, createdAtOf h a =? created) (x :: l).
Proof.
  induction l as [|y l IH]; [done |].
  cbn [Js.insert]. case_decide as Hxy; [done |].
  cbn [List.filter] in *. rewrite IH.
  unfold createdAt_le in Hxy.
  destruct (Z.eqb_spec (createdAtOf h x) created),
           (Z.eqb_spec (createdAtOf h y) created); try done; lia.
Qed.

Lemma Js_sort_createdAt (h : list BackgroundTask) (created : Z) (l : list nat) :
  List.filter (λ a, createdAtOf h a =? created) (Js.sort (createdAt_le h) l)
  = List.filter (λ a, createdAtOf h a =? created) l.
Proof.
  induction l as [|x l IH]; [done |].
  cbn [Js.sort]. rewrite Js_insert_createdAt. cbn [List.filter]. by rewrite IH.
Qed.

(** X18. A tick hands tasks to the host in the order of their creation:
    the tasks it starts are some of the tasks that were pending in the
    store, taken in ascending order of [createdAt], each at most once;
    tasks created at the same reading of the clock are taken in the order
    in which the store holds them. *)
Theorem tick_starts_oldest_first (w : World) :
  ∃ new,
    owners (exec processPendingTasks w) = owners w ++ new
    ∧ new `sublist_of` pendingTasksOf w
    ∧ StronglySorted (createdAt_le (heap w)) new
    ∧ (∀ a, a ∈ new →
         a ∈ JsMap.values (tasks w)
         ∧ ∃ t, heap w !! a = Some t ∧ Task.status t = pending)
    ∧ (isRunning w = false → new = [])
    ∧ StronglySorted (createdAt_le (heap w)) (pendingTasksOf w)
    ∧ ∀ created,
        List.filter (λ a, createdAtOf (heap w) a =? created) (pendingTasksOf w)
        = List.filter (λ a, createdAtOf (heap w) a =? created)
            (List.filter (ref_has_status (heap w) pending)
               (JsMap.values (tasks w))).
Proof.
  assert (StronglySorted (createdAt_le (heap w)) (pendingTasksOf w)) as Hsorted
    by (apply StronglySorted_Js_sort; apply _).
  assert (∀ created,
            List.filter (λ a, createdAtOf (heap w) a =? created) (pendingTasksOf w)
            = List.filter (λ a, createdAtOf (heap w) a =? created)
                (List.filter (ref_has_status (heap w) pending)
                   (JsMap.values (tasks w)))) as Hstable
    by (intros created; apply Js_sort_createdAt).
  unfold processPendingTasks. rewrite exec_bind.
  change (eval (gets isRunning) w) with (isRunning w).
  change (exec (gets isRunning) w) with w.
  destruct (isRunning w); cbn [negb].
  2: { exists []. rewrite app_nil_r. split_and!; try done.
       - apply sublist_nil_l.
       - constructor.
       - by intros a ?%elem_of_nil. }
  rewrite exec_bind.
  change (eval (gets pendingTasksOf) w) with (pendingTasksOf w).
  change (exec (gets pendingTasksOf) w) with w.
  destruct (forEach_processTask_owners (pendingTasksOf w) w) as (new & Ho & Hsub).
  exists new. split_and!; [done | done | | | done | done | done].
  - by eapply StronglySorted_sublist.
  - intros a Ha. eapply elem_of_sublist in Ha; [| exact Hsub].
    unfold pendingTasksOf in Ha. rewrite Js_sort_Permutation in Ha.
    apply list_elem_of_In, filter_In in Ha as [Hin Hs].
    split; [by apply list_elem_of_In |].
    unfold ref_has_status in Hs.
    destruct (heap w !! a) as [t|]; [| done]. cbn in Hs.
    exists t. split; [done |]. by apply bool_decide_eq_true in Hs.
Qed.

(** ** Looking up one command *)

(** X19. [getCommandInfo] agrees with the listing: when the host reports
    its commands, a command that exists and is allowed is one that
    [getAvailableCommands] lists (given that the host leaves no command out
    of the listing that it reports here).  When the host fails, the command
    is reported as not allowed even if the gate allows it. *)
Theorem getCommandInfo_agrees_with_listing
    (allowed names namesListed : list string) (command : string) :
  let info := getCommandInfo allowed (inl names) command in
  (ci_exists info = true ↔ command ∈ names)
  ∧ ci_allowed info = isCommandAllowed allowed command
  ∧ ci_error info = None
  ∧ (names ⊆ namesListed →
     ci_exists info = true → ci_allowed info = true →
     command ∈ getAvailableCommands allowed (inl namesListed))
  ∧ (∀ reason,
       let failed := getCommandInfo allowed (inr reason) command in
       ci_exists failed = false ∧ ci_allowed failed = false
       ∧ ci_error failed = Some (errorMessage reason)).
Proof.
  intros info.
  assert (ci_exists info = true ↔ command ∈ names) as Hexists.
  { cbn. unfold includes. rewrite existsb_exists. split.
    - intros (x & Hin & ->%String.eqb_eq). by apply list_elem_of_In.
    - intros Hin. exists command. split; [by apply list_elem_of_In |].
      by apply String.eqb_eq. }
  split_and!; try done.
  intros Hsub He Ha.
  apply Hexists, Hsub in He. cbn in Ha.
  cbn. rewrite Js_sort_Permutation.
  destruct allowed as [|entry allowed]; cbn [length Nat.ltb Nat.leb]; [done |].
  apply list_elem_of_In, filter_In. split; [by apply list_elem_of_In | done].
Qed.

Lemma getCommandInfo_agrees_with_listing_witness :
  "a.run" ∈ getAvailableCommands ["a.*"] (inl ["_internal"; "a.run"; "b.run"]).
Proof.
  destruct (getCommandInfo_agrees_with_listing
              ["a.*"] ["a.run"; "b.run"] ["_internal"; "a.run"; "b.run"] "a.run")
    as (_ & _ & _ & Hlisted & _).
  apply Hlisted; [| reflexivity | reflexivity].
  intros x Hx. by right.
Defined.

(** ** The status bar of the server *)

Lemma Server_run_snoc (events : list Server.Event) (e : Server.Event)
    (s : Server.State) :
  Server.run (events ++ [e]) s = Server.step e (Server.run events s).
Proof. unfold Server.run. by rewrite fold_left_app. Qed.

(** X20. The status bar shows the state of the server: through any
    sequence of calls of [start], [stop] and [dispose], answers of the
    FastMCP server, client connections and choices of the operator on the
    start messages, its text and colour are those of [isRunning].  The
    item is on display until [dispose] is called, and from then on it is
    disposed.  A call of [start] on a running server, and of [stop] on a
    stopped one, returns [true] at once and asks nothing of the FastMCP
    server. *)
Theorem status_bar_shows_the_state (events : list Server.Event) :
  let s := Server.run events Server.new in
  Server.statusBarText s = Server.textOf (Server.isRunning s)
  ∧ Server.statusBarColor s = Server.colorOf (Server.isRunning s)
  ∧ Server.displayed s = negb (Server.statusBarDisposed s)
  ∧ (Server.statusBarDisposed s = true ↔ Server.Dispose ∈ events)
  ∧ (∀ settings,
       Server.isRunning s = true → Server.start settings s = (Returned true, s))
  ∧ (Server.isRunning s = false → Server.stop s = (Returned true, s)).
Proof.
  induction events as [|e events IH] using rev_ind.
  { cbn. split_and!; try done. split; [done | by intros ?%elem_of_nil]. }
  cbn zeta in *. rewrite Server_run_snoc.
  destruct IH as (Ht & Hc & Hs & Hd & _).
  set (s := Server.run events Server.new) in *.
  assert (Server.statusBarText (Server.step e s)
            = Server.textOf (Server.isRunning (Server.step e s))
          ∧ Server.statusBarColor (Server.step e s)
            = Server.colorOf (Server.isRunning (Server.step e s))
          ∧ Server.displayed (Server.step e s)
            = negb (Server.statusBarDisposed (Server.step e s))
          ∧ Server.statusBarDisposed (Server.step e s)
            = Server.statusBarDisposed s
              || match e with Server.Dispose => true | _ => false end)
    as (? & ? & ? & Hd').
  { unfold Server.displayed in *.
    destruct e as [settings | | k answer | k selection | | | |]; cbn [Server.step].
    - unfold Server.start. destruct (Server.isRunning s) eqn:Hr; cbn;
        rewrite ?Hr, ?orb_false_r; done.
    - unfold Server.stop. destruct (Server.isRunning s) eqn:Hr; cbn;
        rewrite ?Hr, ?orb_false_r; done.
    - unfold Server.settle.
      destruct (Server.requests s !! k) as [[request []]|];
        rewrite ?orb_false_r; try done.
      destruct request, answer; cbn; rewrite ?orb_false_r; split_and!; try done;
        by destruct (Server.statusBarDisposed s).
    - unfold Server.choose.
      destruct (Server.prompts s !! k) as [p|]; rewrite ?orb_false_r; [| done].
      destruct (Server.prompt_answered p); [done |].
      by destruct selection.
    - by rewrite orb_false_r.
    - by rewrite orb_false_r.
    - by rewrite orb_false_r.
    - unfold Server.dispose, Server.stop.
      destruct (Server.isRunning s) eqn:Hr; cbn; rewrite ?Hr, ?orb_true_r; done. }
  split_and!; try done.
  - rewrite Hd'. rewrite orb_true_iff, Hd, elem_of_app, list_elem_of_singleton.
    split.
    + intros [? | He]; [by left | right]. by destruct e.
    + intros [? | <-]; [by left | by right].
  - intros settings Hr. unfold Server.start. by rewrite Hr.
  - intros Hr. unfold Server.stop. by rewrite Hr.
Qed.

(** ** The workspace report *)

(** X22. [get_workspace_info] never reports a blank name or a blank active
    editor: an unset value and the empty string are both replaced by the
    placeholder, any other value is reported as it is, and without
    workspace folders the list of folders is empty. *)
Theorem workspaceInfo_is_never_blank (ws : Workspace) :
  let info := workspaceInfoOf ws in
  info_name info ≠ ""
  ∧ info_activeEditor info ≠ ""
  ∧ (∀ name, workspace_name ws = Some name → name ≠ "" → info_name info = name)
  ∧ (∀ file, activeTextEditor ws = Some file → file ≠ "" →
       info_activeEditor info = file)
  ∧ ((workspace_name ws = None ∨ workspace_name ws = Some "") →
     info_name info = "未命名工作区")
  ∧ ((activeTextEditor ws = None ∨ activeTextEditor ws = Some "") →
     info_activeEditor info = "无活动编辑器")
  ∧ info_folders info = default [] (workspace_folders ws).
Proof.
  assert (∀ value fallback, fallback ≠ "" → orElse value fallback ≠ "") as Hblank.
  { intros [s|] fallback Hf; cbn; [| done].
    destruct (String.eqb s "") eqn:E; [done |]. by apply String.eqb_neq in E. }
  assert (∀ s fallback, s ≠ "" → orElse (Some s) fallback = s) as Hkeep.
  { intros s fallback Hs. cbn. by apply String.eqb_neq in Hs as ->. }
  intros info. subst info. unfold workspaceInfoOf. cbn.
  split_and!; try done.
  - by apply Hblank.
  - by apply Hblank.
  - intros name -> Hname. by apply Hkeep.
  - intros file -> Hfile. by apply Hkeep.
  - by intros [-> | ->].
  - by intros [-> | ->].
Qed.

(** ** A running task waits for the host *)

Lemma settle_unsettled (promise : nat) (outcome : Settlement) (w : World)
    (call : HostCall) :
  hostCalls w !! promise = Some call →
  hc_settled call = false →
  let w1 := set_hostCalls (alter mark_settled promise (hostCalls w)) w in
  exec (settle promise outcome) w
  = match hc_owner call, outcome with
    | None, _ => w1
    | Some a, Resolved value => exec (executeTask_fulfilled a value) w1
    | Some a, Rejected reason => exec (executeTask_rejected a reason) w1
    end.
Proof.
  intros Hk Hs w1. unfold settle. rewrite exec_bind.
  change (eval (gets hostCalls) w) with (hostCalls w).
  change (exec (gets hostCalls) w) with w.
  rewrite Hk, Hs. rewrite exec_bind.
  by destruct (hc_owner call), outcome.
Qed.

Lemma settle_settled (promise : nat) (outcome : Settlement) (w : World) :
  (∀ call, hostCalls w !! promise = Some call → hc_settled call = true) →
  exec (settle promise outcome) w = w.
Proof.
  intros Hk. unfold settle. rewrite exec_bind.
  change (eval (gets hostCalls) w) with (hostCalls w).
  change (exec (gets hostCalls) w) with w.
  destruct (hostCalls w !! promise) as [call|]; [| done].
  by rewrite (Hk call).
Qed.

Lemma processTask_effect (a : nat) (w : World) :
  let w' := exec (processTask a) w in
  (heap w' = heap w ∧ hostCalls w' = hostCalls w)
  ∨ (∃ t f, heap w !! a = Some t
            ∧ heap w' = alter f a (heap w)
            ∧ hostCalls w'
              = hostCalls w ++ [mkHostCall (Some a) (Task.command t)
                                  (default [] (Task.args t)) false]).
Proof.
  unfold processTask, executeTask, assign, Date_now, deref,
    vscode_commands_executeCommand.
  unfold_m. cbn.
  destruct (heap w !! a) as [t|] eqn:Ha; cbn; [| by left].
  destruct (Task.has_status pending t) eqn:Hp; cbn; [| by left].
  destruct (Z.geb _ _); cbn; [| by left].
  rewrite Ha. cbn. rewrite Hp. cbn.
  right. exists t, (λ t, Task.with_startedAt (clock w (S (clockReads w)))
                           (Task.with_status running t)).
  split_and!; [done | | done].
  by rewrite list_alter_alter_eq.
Qed.

Lemma running_awaited_processTask (a : nat) (w : World) :
  running_awaited w → running_awaited (exec (processTask a) w).
Proof.
  intros Hw b t Hb Hrun.
  destruct (processTask_effect a w) as [[Hh Hc] | (t0 & f & Ha & Hh & Hc)];
    unfold awaits_host; rewrite Hc; rewrite Hh in Hb.
  - exact (Hw b t Hb Hrun).
  - destruct (decide (b = a)) as [-> | Hne].
    + exists (length (hostCalls w)), (mkHostCall (Some a) (Task.command t0)
                                         (default [] (Task.args t0)) false).
      split; [| done]. by rewrite lookup_app_r, Nat.sub_diag.
    + rewrite list_lookup_alter_ne in Hb by done.
      destruct (Hw b t Hb Hrun) as (k & call & Hk & Ho & Hs).
      exists k, call. split; [| done]. by apply lookup_app_l_Some.
Qed.

Lemma cancelTask_untouched_calls (taskId : string) (w : World) :
  hostCalls (exec (cancelTask taskId;; mret ()) w) = hostCalls w.
Proof.
  unfold cancelTask, assign, Date_now, deref. unfold_m. cbn.
  repeat (case_match; cbn); done.
Qed.

Lemma running_awaited_step (e : Event) (w : World) :
  running_awaited w → running_awaited (exec (step e) w).
Proof.
  intros Hw.
  assert (e = Tick ∨ e ≠ Tick) as [-> | Hne]
    by (destruct e; (by left) || (by right)).
  { cbn [step]. unfold processPendingTasks. rewrite exec_bind.
    change (eval (gets isRunning) w) with (isRunning w).
    change (exec (gets isRunning) w) with w.
    destruct (isRunning w); cbn [negb]; [| done].
    rewrite exec_bind.
    change (exec (gets pendingTasksOf) w) with w.
    generalize (eval (gets pendingTasksOf) w). intros l.
    revert w Hw. induction l as [|a l IH]; intros w Hw; [done |].
    rewrite exec_forEach_cons. by apply IH, running_awaited_processTask. }
  intros b t Hb Hrun.
  assert (heap w !! b = Some t) as Hb0 by by apply (step_no_start e).
  destruct (Hw b t Hb0 Hrun) as (k & call & Hk & Ho & Hs).
  assert (∀ w', hostCalls w' = hostCalls w → ∃ k call, awaits_host w' b k call)
    as Hsame.
  { intros w' Hc. exists k, call. unfold awaits_host. by rewrite Hc. }
  destruct e; cbn [step] in *; try done.
  - unfold executeCommand. rewrite !exec_bind.
    change (eval (gets allowedCommands) w) with (allowedCommands w).
    change (exec (gets allowedCommands) w) with w.
    destruct (isCommandAllowed (allowedCommands w) command); cbn [negb];
      [| by apply Hsame].
    rewrite !exec_bind.
    change (eval (gets asyncExecution) w) with (asyncExecution w).
    change (exec (gets asyncExecution) w) with w.
    destruct (asyncExecution w); [by apply Hsame |].
    exists k, call. split; [| done]. by apply lookup_app_l_Some.
  - by apply Hsame.
  - destruct (hostCalls w !! promise) as [call'|] eqn:Hk'.
    2: { rewrite settle_settled in * by (intros ?; by rewrite Hk').
         by apply Hsame. }
    destruct (hc_settled call') eqn:Hs'.
    { rewrite settle_settled in * by (intros ?; rewrite Hk'; by intros [= <-]).
      by apply Hsame. }
    rewrite (settle_unsettled promise outcome w call' Hk' Hs') in *.
    set (w1 := set_hostCalls _ w) in *.
    assert (promise ≠ k) as Hpk.
    { intros ->. assert (call' = call) as -> by congruence.
      rewrite Ho in Hb.
      destruct outcome as [value | reason].
      - destruct (executeTask_fulfilled_effect b value w1) as (_ & _ & _ & Hh).
        rewrite Hh in Hb. cbn in Hb.
        rewrite !list_lookup_alter_eq, Hb0 in Hb. injection Hb as Heq.
        by rewrite <- Heq in Hrun.
      - destruct (executeTask_rejected_effect b reason w1) as (_ & _ & _ & Hh).
        rewrite Hh in Hb. cbn in Hb.
        rewrite !list_lookup_alter_eq, Hb0 in Hb. injection Hb as Heq.
        by rewrite <- Heq in Hrun. }
    assert (hostCalls w1 !! k = Some call) as Hk1
      by (cbn; by rewrite list_lookup_alter_ne).
    exists k, call. split; [| done].
    destruct (hc_owner call') as [a|]; [| done].
    destruct outcome as [value | reason].
    + destruct (executeTask_fulfilled_effect a value w1) as (_ & _ & -> & _). done.
    + destruct (executeTask_rejected_effect a reason w1) as (_ & _ & -> & _). done.
  - apply Hsame. apply cancelTask_untouched_calls.
  - apply Hsame, clearCompletedTasks_untouched.
  - apply Hsame, clearAllTasks_untouched.
  - by apply Hsame.
  - by apply Hsame.
  - apply Hsame, updateAsyncConfig_untouched.
  - apply Hsame, stop_untouched.
  - apply Hsame, dispose_untouched.
Qed.

Lemma running_awaited_run (events : list Event) (w : World) :
  running_awaited w → running_awaited (exec (run events) w).
Proof.
  revert w. induction events as [|e events IH]; intros w Hw; [done |].
  rewrite exec_run_cons. by apply IH, running_awaited_step.
Qed.

(** X21. A task is in [running] only while the host has not answered the
    call made for it: every running task has a host call of its own that
    is not settled yet, which carries the command and the arguments of the
    task; and when the host answers that call, the task becomes completed
    with the value of the answer, or failed with the message of the
    rejection. *)
Theorem running_task_awaits_host (w : World) (a : nat) (t : BackgroundTask) :
  reachable w →
  heap w !! a = Some t →
  Task.status t = running →
  ∃ k call,
    hostCalls w !! k = Some call
    ∧ hc_owner call = Some a
    ∧ hc_settled call = false
    ∧ hc_command call = Task.command t
    ∧ hc_args call = default [] (Task.args t)
    ∧ (∀ value,
         heap (exec (settle k (Resolved value)) w) !! a
         = Some (Task.with_result value
                   (Task.with_completedAt (clock w (clockReads w))
                      (Task.with_status completed t))))
    ∧ (∀ reason,
         heap (exec (settle k (Rejected reason)) w) !! a
         = Some (Task.with_error (errorMessage reason)
                   (Task.with_completedAt (clock w (clockReads w))
                      (Task.with_status failed t)))).
Proof.
  intros Hw Ha Hrun.
  destruct (reachable_invariants w Hw) as (_ & _ & Hmatch).
  destruct Hw as (clock & cfg & events & ->).
  assert (running_awaited (initial clock cfg)) as Hinit.
  { intros b tb. by rewrite (proj1 (initial_fields clock cfg)). }
  destruct (running_awaited_run events _ Hinit a t Ha Hrun)
    as (k & call & Hk & Ho & Hs).
  destruct (Hmatch k call a Hk Ho) as (t' & Ha' & Hc & Hargs).
  assert (t' = t) as -> by congruence.
  exists k, call. split_and!; try done.
  - intros value.
    rewrite (settle_unsettled k (Resolved value) _ call Hk Hs), Ho.
    set (w1 := set_hostCalls _ _).
    destruct (executeTask_fulfilled_effect a value w1) as (_ & _ & _ & ->).
    cbn. by rewrite !list_lookup_alter_eq, Ha.
  - intros reason.
    rewrite (settle_unsettled k (Rejected reason) _ call Hk Hs), Ho.
    set (w1 := set_hostCalls _ _).
    destruct (executeTask_rejected_effect a reason w1) as (_ & _ & _ & ->).
    cbn. by rewrite !list_lookup_alter_eq, Ha.
Qed.

Lemma running_task_awaits_host_witness :
  let w := exec (run [ExecuteCommand "a.run" None; Tick])
                (initial (λ n, 1000 + Z.of_nat n) (mkConfig None None None None)) in
  ∃ k call, hostCalls w !! k = Some call ∧ hc_owner call = Some 0%nat
            ∧ hc_settled call = false ∧ hc_command call = "a.run".
Proof.
  intros w.
  destruct (running_task_awaits_host w 0
              (Task.mk "bg_task_1_1000" "a.run" None 0 running 1001
                 (Some 1003) None None None))
    as (k & call & Hk & Ho & Hs & Hc & _);
    [by eexists _, _, _ | reflexivity | reflexivity |].
  exists k, call. split_and!; [exact Hk | exact Ho | exact Hs | exact Hc].
Defined.

(** ** Listing the commands *)

Lemma string_app_empty_r (s : string) : s +:+ "" = s.
Proof.
  induction s as [|c s IH]; [done |]. unfold String.app in *. simpl. by rewrite IH.
Qed.

Lemma linesOf_nonempty (text : string) : linesOf text ≠ [].
Proof.
  destruct text as [|c rest]; [done |]. cbn.
  destruct (Ascii.eqb c newlineChar); [done |]. by destruct (linesOf rest).
Qed.

(** The lines of two texts joined by a line break are the lines of the one
    followed by the lines of the other. *)
Lemma linesOf_app_newline (a b : string) :
  linesOf (a +:+ newline +:+ b) = linesOf a ++ linesOf b.
Proof.
  induction a as [|c a IH]; [done |].
  change (String c a +:+ newline +:+ b) with (String c (a +:+ newline +:+ b)).
  cbn [linesOf]. rewrite IH.
  destruct (Ascii.eqb c newlineChar); [done |].
  pose proof (linesOf_nonempty a). by destruct (linesOf a).
Qed.

Lemma linesOf_plain (s : string) :
  newlineChar ∉ chars s → linesOf s = [s].
Proof.
  induction s as [|c s IH]; [done |]. cbn. intros Hs.
  destruct (Ascii.eqb_spec c newlineChar) as [-> | _].
  - exfalso. apply Hs. by left.
  - rewrite IH; [done |]. intros Hin. apply Hs. by right.
Qed.

Lemma linesOf_join (l : list string) :
  l ≠ [] → (∀ x, x ∈ l → newlineChar ∉ chars x) →
  linesOf (Js.join newline l) = l.
Proof.
  induction l as [|x l IH]; [done |]. intros _ Hl.
  destruct l as [|y l].
  - cbn. apply linesOf_plain, Hl. by left.
  - change (Js.join newline (x :: y :: l))
      with (x +:+ newline +:+ Js.join newline (y :: l)).
    rewrite linesOf_app_newline, linesOf_plain, IH; [done | done | |].
    + intros z Hz. apply Hl. by right.
    + apply Hl. by left.
Qed.

Lemma digits_plain (d : Decimal.uint) :
  newlineChar ∉ chars (NilEmpty.string_of_uint d).
Proof.
  induction d; cbn; [by intros ?%elem_of_nil | ..];
    intros [[=] | Hin]%elem_of_cons; done.
Qed.

(** The first line of the listing. *)
Lemma header_plain (n : nat) :
  newlineChar ∉ chars ("可用命令 (" +:+ Js.show_Z (Z.of_nat n) +:+ "个):").
Proof.
  destruct (show_nat_digits n) as (d & _ & ->).
  rewrite !chars_app. intros Hin.
  apply elem_of_app in Hin as [Hin | Hin].
  { cbn in Hin. repeat (apply elem_of_cons in Hin as [[=] | Hin]).
    by apply elem_of_nil in Hin. }
  apply elem_of_app in Hin as [Hin | Hin]; [by apply digits_plain in Hin |].
  cbn in Hin. repeat (apply elem_of_cons in Hin as [[=] | Hin]).
  by apply elem_of_nil in Hin.
Qed.

(** C9. [list_vscode_commands] answers with the names reported by the host,
    passed through the gate when the allow-list is not empty (all of them
    when it is), in ascending lexicographic order of their code units.  Its
    text is the line with their number, followed by the first 20 of them,
    one on a line, and then the line of the truncation marker exactly when
    there are more than 20.  (A name that contains a line break would
    spread over several lines, and with no name at all the second line is
    empty.)  In the scenario of the specification the names listed are
    [a.run], [a.stop] and [b.exec]. *)
Theorem list_commands_filtered_sorted_truncated
    (allowedCommands names : list string) :
  let available := getAvailableCommands allowedCommands (inl names) in
  let header :=
    "可用命令 (" +:+ Js.show_Z (Z.of_nat (length available)) +:+ "个):" in
  let marker := "...(还有更多)" in
  (allowedCommands = [] → available ≡ₚ names)
  ∧ (allowedCommands ≠ [] →
     available ≡ₚ List.filter (isCommandAllowed allowedCommands) names)
  ∧ StronglySorted Js.le available
  ∧ (∃ text,
       list_vscode_commands allowedCommands (inl names)
       = mkToolResult (PlainText text) None
       ∧ text = header +:+ newline +:+ Js.join newline (take 20 available)
                  +:+ (if (20 <? length available)%nat
                       then newline +:+ marker else "")
       ∧ ((∀ name, name ∈ names → newlineChar ∉ chars name) →
          linesOf text
          = header :: match available with
                      | [] => [""]
                      | _ :: _ =>
                          take 20 available
                            ++ (if (20 <? length available)%nat
                                then [marker] else [])
                      end))
  ∧ getAvailableCommands ["a.*"; "b.exec"]
      (inl ["a.run"; "a.stop"; "b.exec"; "c.other"])
    = ["a.run"; "a.stop"; "b.exec"]
  ∧ list_vscode_commands ["a.*"; "b.exec"]
      (inl ["a.run"; "a.stop"; "b.exec"; "c.other"])
    = mkToolResult
        (PlainText ("可用命令 (3个):" +:+ newline +:+ "a.run" +:+ newline
                      +:+ "a.stop" +:+ newline +:+ "b.exec"))
        None.
Proof.
  intros available header marker.
  assert (allowedCommands = [] → available ≡ₚ names) as Hall.
  { intros ->. subst available. cbn. apply Js_sort_Permutation. }
  assert (allowedCommands ≠ [] →
          available ≡ₚ List.filter (isCommandAllowed allowedCommands) names)
    as Hfiltered.
  { intros Hne. subst available. unfold getAvailableCommands.
    destruct allowedCommands as [|a l]; [done |]. cbn [length Nat.ltb Nat.leb].
    apply Js_sort_Permutation. }
  assert (∀ name, name ∈ available → name ∈ names) as Hfrom.
  { intros name. destruct allowedCommands as [|a l].
    - by rewrite Hall.
    - rewrite Hfiltered by done.
      intros Hin%list_elem_of_In%filter_In. apply list_elem_of_In, Hin. }
  split_and!; [done | done | | | by vm_compute | by vm_compute].
  { subst available. unfold getAvailableCommands.
    apply StronglySorted_Js_sort; apply _. }
  exists (renderCommandList (previewOf available)).
  assert (renderCommandList (previewOf available)
          = header +:+ newline +:+ Js.join newline (take 20 available)
              +:+ (if (20 <? length available)%nat
                   then newline +:+ marker else "")) as Htext.
  { unfold renderCommandList, previewOf. cbn [cl_count cl_shown cl_more].
    subst header. by rewrite !string_app_assoc. }
  split_and!; [done | done |].
  intros Hplain. rewrite Htext, linesOf_app_newline.
  rewrite (linesOf_plain header) by apply header_plain.
  cbn [app]. f_equal.
  destruct available as [|name rest] eqn:Havailable; [done |].
  rewrite <- Havailable in *.
  assert (take 20 available ≠ []) as Hshown by (by rewrite Havailable).
  assert (∀ x, x ∈ take 20 available → newlineChar ∉ chars x) as Hlines.
  { intros x Hx%elem_of_take. destruct Hx as (i & Hx & _).
    apply Hplain, Hfrom. by eapply list_elem_of_lookup_2. }
  destruct (20 <? length available)%nat.
  - by rewrite linesOf_app_newline, linesOf_join.
  - by rewrite string_app_empty_r, linesOf_join, app_nil_r.
Qed.

Lemma list_commands_filtered_sorted_truncated_witness :
  getAvailableCommands [] (inl ["b"; "a"]) ≡ₚ ["b"; "a"]
  ∧ getAvailableCommands ["a.*"; "b.exec"] (inl ["b.exec"; "c.other"; "a.run"])
    ≡ₚ List.filter (isCommandAllowed ["a.*"; "b.exec"]) ["b.exec"; "c.other"; "a.run"]
  ∧ ∃ text,
      list_vscode_commands ["a.*"] (inl ["b.run"; "a.stop"; "a.run"])
      = mkToolResult (PlainText text) None
      ∧ linesOf text = ["可用命令 (2个):"; "a.run"; "a.stop"].
Proof.
  split_and!.
  - apply (proj1 (list_commands_filtered_sorted_truncated [] ["b"; "a"])).
    reflexivity.
  - apply (proj1 (proj2 (list_commands_filtered_sorted_truncated
                           ["a.*"; "b.exec"] ["b.exec"; "c.other"; "a.run"]))).
    discriminate.
  - destruct (list_commands_filtered_sorted_truncated
                ["a.*"] ["b.run"; "a.stop"; "a.run"])
      as (_ & _ & _ & (text & Hresult & _ & Hlines) & _).
    exists text. split; [exact Hresult |].
    rewrite Hlines; [reflexivity |].
    intros name Hname.
    repeat (apply elem_of_cons in Hname as [-> | Hname]);
      try (by apply elem_of_nil in Hname);
      intros Hin; cbn in Hin;
      repeat (apply elem_of_cons in Hin as [[=] | Hin]);
      by apply elem_of_nil in Hin.
Defined.
